(** * Fanorona: rule engine and playing loop

    The repository's [game.py] (the window, the screens and the playing loop)
    is embedded function by function in [Module UI].  The classes it imports
    ([State], the moves, the agents, [Button]) are not part of the sources at
    hand: the playing loop is therefore stated over an interface
    ([RuleEngine], [Collaborators]), and the rule engine itself is modelled
    from the written specification in [Module Rules]. *)

From stdpp Require Import base decidable option list sets strings.
From Stdlib Require Import ZArith Lia QArith Lqa.

Local Open Scope Z_scope.

(** ** Data shared by the engine and the window *)

(** [Player] (player.py, as used by game.py): the occupancy of a cell and the
    side to move. *)
Inductive Player : Type := EMPTY | WHITE | BLACK.

#[global] Instance Player_eq_dec : EqDecision Player.
Proof. solve_decision. Defined.

(** Modelled from the spec: the capture kind of a motion (moves/motion_move.py
    is missing).  A motion that captures nothing is quiet; where approach and
    withdrawal are both possible at one destination the engine offers one
    motion per kind, told apart by the first captured cell. *)
Inductive CaptureKind : Type := NoCapture | Approach | Withdrawal.

#[global] Instance CaptureKind_eq_dec : EqDecision CaptureKind.
Proof. solve_decision. Defined.

(** Modelled from the spec: the closed set of moves (moves/*.py is missing).
    [MotionMove] carries the four coordinates game.py reads ([row_origin],
    [col_origin], [row_destination], [col_destination]), the capture kind and
    the ordered captured cells. *)
Inductive Move : Type :=
  | PassMove
  | MotionMove (row_origin col_origin row_destination col_destination : Z)
               (kind : CaptureKind) (to_kill : list (Z * Z)).

#[global] Instance Move_eq_dec : EqDecision Move.
Proof. solve_decision. Defined.

(** The board matrix, [get_board_matrix()[row][col]]: a list of rows. *)
Notation Board := (list (list Player)).

Definition is_capture (m : Move) : bool :=
  match m with
  | MotionMove _ _ _ _ _ (_ :: _) => true
  | _ => false
  end.

Definition is_quiet (m : Move) : bool :=
  match m with
  | MotionMove _ _ _ _ _ [] => true
  | _ => false
  end.

(** Modelled from the spec: [get_first_to_kill] of a motion, the first cell of
    its ordered captured sequence; [None] where there is none to return. *)
Definition get_first_to_kill (m : Move) : option (Z * Z) :=
  match m with
  | MotionMove _ _ _ _ _ (k :: _) => Some k
  | _ => None
  end.

(** ** The rule engine, from the specification *)

Module Rules.

(** Modelled from the spec: [State] (state.py is missing) owns a board, the
    side to move and, while a capture chain is in progress, the square of the
    chain's piece and the direction that may not be used again. *)
Record State : Type := mkState {
  board : Board;
  player : Player;
  chain : option ((Z * Z) * (Z * Z))
}.

Definition opponent (p : Player) : Player :=
  match p with
  | WHITE => BLACK
  | BLACK => WHITE
  | EMPTY => EMPTY
  end.

Definition cell (b : Board) (r c : Z) : option Player :=
  if bool_decide (0 ≤ r ∧ 0 ≤ c)
  then b !! Z.to_nat r ≫= λ row, row !! Z.to_nat c
  else None.

Definition set_cell (b : Board) (r c : Z) (v : Player) : Board :=
  if bool_decide (0 ≤ r ∧ 0 ≤ c)
  then alter (λ row, <[Z.to_nat c := v]> row) (Z.to_nat r) b
  else b.

Definition board_height (b : Board) : nat := length b.
Definition board_width (b : Board) : nat := length (default [] (head b)).

Definition count_row (p : Player) (row : list Player) : nat :=
  length (filter (λ x, x = p) row).

Fixpoint count_cells (p : Player) (b : Board) : nat :=
  match b with
  | [] => 0%nat
  | row :: rest => (count_row p row + count_cells p rest)%nat
  end.

Definition occupied (b : Board) : nat :=
  (count_cells WHITE b + count_cells BLACK b)%nat.

Definition directions : list (Z * Z) :=
  [(-1, -1); (-1, 0); (-1, 1); (0, -1); (0, 1); (1, -1); (1, 0); (1, 1)].

(** The contiguous run of [opp] pieces starting at [(r, c)] and going on in
    direction [(dr, dc)]. *)
Fixpoint scan (fuel : nat) (b : Board) (opp : Player) (r c dr dc : Z)
  : list (Z * Z) :=
  match fuel with
  | O => []
  | S fuel' =>
      if decide (cell b r c = Some opp)
      then (r, c) :: scan fuel' b opp (r + dr) (c + dc) dr dc
      else []
  end.

Definition line (b : Board) (opp : Player) (r c dr dc : Z) : list (Z * Z) :=
  scan (board_height b + board_width b) b opp r c dr dc.

Definition all_cells (b : Board) : list (Z * Z) :=
  r ← seqZ 0 (Z.of_nat (board_height b));
  c ← seqZ 0 (Z.of_nat (board_width b));
  [(r, c)].

Definition owned_pieces (b : Board) (p : Player) : list (Z * Z) :=
  filter (λ rc, cell b rc.1 rc.2 = Some p) (all_cells b).

(** The candidate motions of the piece at [(r, c)] in direction [d]: none when
    the neighbouring cell is not an empty cell of the grid; otherwise one
    motion per available capture kind, or the quiet motion when neither
    approach nor withdrawal captures anything. *)
Definition motions_from (b : Board) (p : Player) (rc d : Z * Z) : list Move :=
  let '(r, c) := rc in
  let '(dr, dc) := d in
  let r' := r + dr in
  let c' := c + dc in
  if decide (cell b r' c' = Some EMPTY) then
    let approach := line b (opponent p) (r' + dr) (c' + dc) dr dc in
    let withdrawal := line b (opponent p) (r - dr) (c - dc) (- dr) (- dc) in
    match approach, withdrawal with
    | [], [] => [MotionMove r c r' c' NoCapture []]
    | _, _ =>
        (match approach with
         | [] => []
         | _ => [MotionMove r c r' c' Approach approach]
         end) ++
        (match withdrawal with
         | [] => []
         | _ => [MotionMove r c r' c' Withdrawal withdrawal]
         end)
    end
  else [].

(** Every owned piece in every direction; during a chain only the chain's
    piece, and not in the direction already used to reach its square. *)
Definition candidates (s : State) : list Move :=
  let pieces :=
    match chain s with
    | Some (pos, _) => filter (λ rc, rc = pos) (owned_pieces (board s) (player s))
    | None => owned_pieces (board s) (player s)
    end in
  let dirs :=
    match chain s with
    | Some (_, used) => filter (λ d, d ≠ used) directions
    | None => directions
    end in
  rc ← pieces; d ← dirs; motions_from (board s) (player s) rc d.

(** Captures are mandatory; Pass is legal only when the set would otherwise be
    empty. *)
Definition get_available_moves (s : State) : list Move :=
  let cands := candidates s in
  match filter (λ m, is_capture m = true) cands with
  | [] => match cands with [] => [PassMove] | _ => cands end
  | captures => captures
  end.

Definition apply_motion (s : State) (r c r' c' : Z) (kills : list (Z * Z))
  : Board :=
  let moved := set_cell (set_cell (board s) r c EMPTY) r' c' (player s) in
  foldl (λ b k, set_cell b k.1 k.2 EMPTY) moved kills.

(** A move outside the available set fails ([None]).  Passing switches the
    side to move.  A motion vacates its origin, occupies its destination and
    empties every captured cell; after a capture that leaves the same piece a
    further capture, the side to move stays and the chain is recorded,
    otherwise the side flips and the chain is cleared. *)
Definition execute_move (s : State) (m : Move) : option State :=
  if decide (m ∈ get_available_moves s) then
    match m with
    | PassMove => Some (mkState (board s) (opponent (player s)) None)
    | MotionMove r c r' c' _ kills =>
        let b' := apply_motion s r c r' c' kills in
        let continued := mkState b' (player s) (Some ((r', c'), (r' - r, c' - c))) in
        if is_capture m &&
           bool_decide (filter (λ m', is_capture m' = true) (candidates continued) ≠ [])
        then Some continued
        else Some (mkState b' (opponent (player s)) None)
    end
  else None.

(** A side with no piece left loses, and so does a side to move whose
    available-move set is empty. *)
Definition check_winner (s : State) : Player :=
  if decide (count_cells WHITE (board s) = 0%nat) then BLACK
  else if decide (count_cells BLACK (board s) = 0%nat) then WHITE
  else if decide (get_available_moves s = []) then opponent (player s)
  else EMPTY.

Definition get_board_matrix (s : State) : Board := board s.

Definition rectangular (w h : Z) (b : Board) : Prop :=
  0 ≤ w ∧ 0 ≤ h ∧ length b = Z.to_nat h ∧ Forall (λ row, length row = Z.to_nat w) b.

(** The states of a game on a [w] by [h] board: the opening position is any
    full [w] by [h] grid with either side to move and no chain under way (the
    opening layout is configuration the specification leaves open), and
    [execute_move] leads from one state to the next. *)
Inductive reachable (w h : Z) : State → Prop :=
  | reach_init b p :
      rectangular w h b → p ≠ EMPTY → reachable w h (mkState b p None)
  | reach_move s m s' :
      reachable w h s → execute_move s m = Some s' → reachable w h s'.

End Rules.

(** ** The window and the playing loop (game.py) *)

Module UI.

Definition MIN_SIZE : Z := 5.
Definition MAX_SIZE : Z := 10.

Definition WHITE_COLOR : Z * Z * Z := (255, 255, 255).
Definition BLACK_COLOR : Z * Z * Z := (0, 0, 0).

(** [WindowState]: the current screen of the program. *)
Inductive WindowState : Type :=
  | BOARD_SIZE_SEL | WHITE_MODE_SEL | BLACK_MODE_SEL | PLAYING | GAME_OVER.

#[global] Instance WindowState_eq_dec : EqDecision WindowState.
Proof. solve_decision. Defined.

(** [PlayerModes]: the playing modes of a team, in the order of the enum. *)
Inductive PlayerModes : Type :=
  | HUMAN
  | RANDOM
  | MINIMAX_VERY_EASY
  | MINIMAX_EASY
  | MINIMAX_DEFENSIVE_EASY
  | MINIMAX_DEFENSIVE_HARD
  | MINIMAX_AGRESSIVE_EASY
  | MINIMAX_AGRESSIVE_HARD
  | MCTS_QUICK
  | MCTS_BETTER
  | MCTS_HEURISTICS.

#[global] Instance PlayerModes_eq_dec : EqDecision PlayerModes.
Proof. solve_decision. Defined.

Definition all_modes : list PlayerModes :=
  [HUMAN; RANDOM; MINIMAX_VERY_EASY; MINIMAX_EASY; MINIMAX_DEFENSIVE_EASY;
   MINIMAX_DEFENSIVE_HARD; MINIMAX_AGRESSIVE_EASY; MINIMAX_AGRESSIVE_HARD;
   MCTS_QUICK; MCTS_BETTER; MCTS_HEURISTICS].

(** The evaluators imported from [heuristics/]; only their identity matters
    to the window. *)
Inductive Heuristic : Type :=
  | WinHeuristic
  | NrPiecesHeuristic
  | AdjacentPiecesHeuristic
  | GroupsHeuristic
  | CenterControlHeuristic
  | ApproximateEnemyHeuristic.

#[global] Instance Heuristic_eq_dec : EqDecision Heuristic.
Proof. solve_decision. Defined.

(** [HeuristicsList(heuristics, weights)]: two parallel arrays.  Every weight
    written in game.py ([1e6], [100000], [50], ...) is a whole number, so the
    weights are kept as integers. *)
Record HeuristicsList : Type := mkHeuristicsList {
  heuristics : list Heuristic;
  weights : list Z
}.

#[global] Instance HeuristicsList_eq_dec : EqDecision HeuristicsList.
Proof. solve_decision. Defined.

(** The closures stored in the buttons. *)
Inductive Action : Type :=
  | SizeSelAction (col row : Z)             (* size_sel_button_action(col, row) *)
  | ModeSelAction (mode : PlayerModes)      (* mode_sel_button_action(mode) *)
  | BackToBoardSizeSel (from_game_over : bool)
  | BackToWhiteModeSel
  | BackToBlackModeSel.

(** [Button(x, y, text, canvas, font, textColor, bgColor, action, width,
    height)]: the position, the optional width and the action; the drawing
    arguments are left out. *)
Record Button : Type := mkButton {
  btn_x : Z;
  btn_y : Z;
  btn_width : option Z;
  action : Action
}.

(** What [pygame.event.get()] hands to a screen.  A mouse press carries the
    position [pygame.mouse.get_pos()] returns while it is handled. *)
Inductive Event : Type :=
  | QUIT                          (* pygame.QUIT, or KEYDOWN with K_ESCAPE *)
  | K_RETURN                      (* KEYDOWN with K_RETURN *)
  | MOUSEBUTTONDOWN (x y : Z)
  | OtherEvent.

(** How a piece of the program ends: normally, by [exit()] after a quit
    event, or by an exception nothing catches. *)
Inductive Result (A : Type) : Type :=
  | Ok (a : A)
  | Exited
  | Raised.
Arguments Ok {A} a.
Arguments Exited {A}.
Arguments Raised {A}.

#[global] Instance Result_eq_dec `{EqDecision A} : EqDecision (Result A).
Proof. solve_decision. Defined.

(** The interface of [State] that game.py uses (state.py is missing). *)
Class RuleEngine : Type := {
  State : Type;
  new_State : Z → Z → State;               (* State(width, height) *)
  player : State → Player;                  (* state.player *)
  get_board_matrix : State → Board;
  get_available_moves : State → list Move;
  execute_move : State → Move → option State;  (* [None]: the call raises *)
  check_winner : State → Player
}.

(** The other imported collaborators (minimax.py, monte_carlo_tree_search/,
    button.py are missing).  [Seed] stands for the random draws one frame
    consumes.  A decision that cannot be made ([None]) raises. *)
Class Collaborators `{RuleEngine} : Type := {
  Seed : Type;
  MonteCarloTree : Type;
  get_random_move : Seed → State → option Move;
  get_minimax_move : HeuristicsList → Z → State → option Move;
  from_player : option HeuristicsList → Z → Z → Player → MonteCarloTree;
  train_until : Seed → MonteCarloTree → Z → MonteCarloTree;
  get_best_move : MonteCarloTree → option Move;
  update_move : MonteCarloTree → Move → MonteCarloTree;
  mouse_collision : Button → Z → Z → bool
}.

Section Window.
Context `{Collaborators}.

(** What [choose_alg] returns: [None] for a mode it has no case for, the
    function [get_random_move], a minimax closure, or a tree object. *)
Inductive Alg : Type :=
  | NoAlg
  | RandomAlg
  | MinimaxAlg (h : HeuristicsList) (depth : Z)
  | MctsAlg (tree : MonteCarloTree).

(** The attributes of [Game] that the logic reads (canvas, font and the
    rendered texts are left out). *)
Record Game : Type := mkGame {
  window_state : WindowState;
  selected_piece : option (Z * Z);
  width : option Z;
  height : option Z;
  game_state : option State;
  winner : Player;
  white_mode : option PlayerModes;
  black_mode : option PlayerModes;
  available_moves : option (list Move);
  white_alg : Alg;
  black_alg : Alg;
  selected_moves : list Move
}.

Definition set_window_state (v : WindowState) (g : Game) : Game :=
  mkGame v (selected_piece g) (width g) (height g) (game_state g) (winner g)
         (white_mode g) (black_mode g) (available_moves g) (white_alg g)
         (black_alg g) (selected_moves g).
Definition set_selected_piece (v : option (Z * Z)) (g : Game) : Game :=
  mkGame (window_state g) v (width g) (height g) (game_state g) (winner g)
         (white_mode g) (black_mode g) (available_moves g) (white_alg g)
         (black_alg g) (selected_moves g).
Definition set_width (v : option Z) (g : Game) : Game :=
  mkGame (window_state g) (selected_piece g) v (height g) (game_state g)
         (winner g) (white_mode g) (black_mode g) (available_moves g)
         (white_alg g) (black_alg g) (selected_moves g).
Definition set_height (v : option Z) (g : Game) : Game :=
  mkGame (window_state g) (selected_piece g) (width g) v (game_state g)
         (winner g) (white_mode g) (black_mode g) (available_moves g)
         (white_alg g) (black_alg g) (selected_moves g).
Definition set_game_state (v : option State) (g : Game) : Game :=
  mkGame (window_state g) (selected_piece g) (width g) (height g) v (winner g)
         (white_mode g) (black_mode g) (available_moves g) (white_alg g)
         (black_alg g) (selected_moves g).
Definition set_winner (v : Player) (g : Game) : Game :=
  mkGame (window_state g) (selected_piece g) (width g) (height g)
         (game_state g) v (white_mode g) (black_mode g) (available_moves g)
         (white_alg g) (black_alg g) (selected_moves g).
Definition set_white_mode (v : option PlayerModes) (g : Game) : Game :=
  mkGame (window_state g) (selected_piece g) (width g) (height g)
         (game_state g) (winner g) v (black_mode g) (available_moves g)
         (white_alg g) (black_alg g) (selected_moves g).
Definition set_black_mode (v : option PlayerModes) (g : Game) : Game :=
  mkGame (window_state g) (selected_piece g) (width g) (height g)
         (game_state g) (winner g) (white_mode g) v (available_moves g)
         (white_alg g) (black_alg g) (selected_moves g).
Definition set_available_moves (v : option (list Move)) (g : Game) : Game :=
  mkGame (window_state g) (selected_piece g) (width g) (height g)
         (game_state g) (winner g) (white_mode g) (black_mode g) v
         (white_alg g) (black_alg g) (selected_moves g).
Definition set_white_alg (v : Alg) (g : Game) : Game :=
  mkGame (window_state g) (selected_piece g) (width g) (height g)
         (game_state g) (winner g) (white_mode g) (black_mode g)
         (available_moves g) v (black_alg g) (selected_moves g).
Definition set_black_alg (v : Alg) (g : Game) : Game :=
  mkGame (window_state g) (selected_piece g) (width g) (height g)
         (game_state g) (winner g) (white_mode g) (black_mode g)
         (available_moves g) (white_alg g) v (selected_moves g).
Definition set_selected_moves (v : list Move) (g : Game) : Game :=
  mkGame (window_state g) (selected_piece g) (width g) (height g)
         (game_state g) (winner g) (white_mode g) (black_mode g)
         (available_moves g) (white_alg g) (black_alg g) v.

(** The calls the window makes on its collaborators, in the order it makes
    them.  The [Player] of an agent call tells whose object ([white_alg] or
    [black_alg]) receives it. *)
Inductive Call : Type :=
  | CState (w h : option Z)                    (* State(self.width, self.height) *)
  | CFromPlayer (hl : option HeuristicsList) (w h : option Z) (p : Player)
                                               (* ...from_player(.., width, height, player) *)
  | CCheckWinner (s : State)                   (* s.check_winner() *)
  | CExecuteMove (s : State) (m : Move)        (* s.execute_move(m) *)
  | CAlg (side : Player) (s : State)           (* alg(s) *)
  | CTrainUntil (side : Player) (n : Z)        (* alg.train_until(n) *)
  | CGetBestMove (side : Player)               (* alg.get_best_move() *)
  | CUpdateMove (side : Player) (m : Move).    (* alg.update_move(m) *)

(** A run: the calls made, and how it ended. *)
Definition Run (A : Type) : Type := list Call * Result A.

Definition ret {A} (a : A) : Run A := ([], Ok a).
Definition raise {A} : Run A := ([], Raised).
Definition exit {A} : Run A := ([], Exited).
Definition call (c : Call) : Run unit := ([c], Ok tt).

Definition bind {A B} (m : Run A) (f : A → Run B) : Run B :=
  match m with
  | (t, Ok a) => let '(t', r) := f a in (t ++ t', r)
  | (t, Exited) => (t, Exited)
  | (t, Raised) => (t, Raised)
  end.

Definition need {A} (o : option A) : Run A :=
  match o with
  | Some a => ret a
  | None => raise
  end.

Local Notation "x <- m ;; f" := (bind m (λ x, f))
  (at level 100, m at next level, right associativity).

(** ** Indexing and ranges as Python has them *)

(** [l[i]]: a negative index counts from the end, anything else out of range
    raises ([None]). *)
Definition py_index {A} (l : list A) (i : Z) : option A :=
  if decide (0 ≤ i) then l !! Z.to_nat i
  else if decide (- Z.of_nat (length l) ≤ i)
       then l !! Z.to_nat (Z.of_nat (length l) + i)
       else None.

(** [matrix[row][col]]. *)
Definition py_index2 (m : Board) (row col : Z) : option Player :=
  py_index m row ≫= λ r, py_index r col.

(** [range(a, b)]. *)
Definition py_range (a b : Z) : list Z := seqZ a (b - a).

(** ** Construction ([Game.__init__]) *)

Definition DEFAULT_WIDTH : Z := 7.
Definition DEFAULT_HEIGHT : Z := 7.

Definition get_canvas_width (width : Z) : Z := width * 70.
Definition get_canvas_height (height : Z) : Z := height * 70 + 40.
Definition get_default_canvas_width : Z := get_canvas_width DEFAULT_WIDTH.
Definition get_default_canvas_height : Z := get_canvas_height DEFAULT_HEIGHT.

Definition size_sel_buttons : list Button :=
  col ← py_range MIN_SIZE (MAX_SIZE + 1);
  row ← py_range MIN_SIZE (MAX_SIZE + 1);
  [mkButton ((col - 4) * DEFAULT_WIDTH * 10) ((row - 4) * DEFAULT_HEIGHT * 10)
            None (SizeSelAction col row)].

Definition mode_sel_buttons : list Button :=
  imap (λ i mode,
          mkButton (get_default_canvas_width `div` 2) ((Z.of_nat i + 2) * 40)
                   (Some (get_default_canvas_width `div` 2))
                   (ModeSelAction mode))
       all_modes.

Definition create_back_button (a : Action) : Button := mkButton 30 15 None a.

Definition back_buttons : list Button :=
  [create_back_button (BackToBoardSizeSel false);
   create_back_button BackToWhiteModeSel;
   create_back_button BackToBlackModeSel;
   create_back_button (BackToBoardSizeSel true)].

(** The attributes as [__init__] leaves them. *)
Definition init : Game :=
  mkGame BOARD_SIZE_SEL None None None None EMPTY None None None NoAlg NoAlg [].

(** ** The button actions *)

Definition back_to_white_mode_sel (g : Game) : Game :=
  set_window_state WHITE_MODE_SEL (set_white_mode None g).

Definition back_to_black_mode_sel (g : Game) : Game :=
  set_window_state BLACK_MODE_SEL (set_black_mode None g).

Definition back_to_board_size_sel (from_game_over : bool) (g : Game) : Game :=
  let leave g := set_window_state BOARD_SIZE_SEL (set_height None (set_width None g)) in
  let g1 :=
    if from_game_over
    then leave (back_to_white_mode_sel
                  (back_to_black_mode_sel
                     (set_selected_piece None (set_winner EMPTY g))))
    else g in
  leave g1.

Definition get_back_button (g : Game) : option Button :=
  match window_state g with
  | WHITE_MODE_SEL => back_buttons !! 0%nat
  | BLACK_MODE_SEL => back_buttons !! 1%nat
  | PLAYING => back_buttons !! 2%nat
  | GAME_OVER => back_buttons !! 3%nat
  | BOARD_SIZE_SEL => None
  end.

Definition mode_sel_button_action (mode : PlayerModes) (g : Game) : Run Game :=
  if decide (window_state g = WHITE_MODE_SEL) then
    ret (set_white_mode (Some mode) g)
  else if decide (window_state g = BLACK_MODE_SEL) then
    let g1 := set_black_mode (Some mode) g in
    _ <- call (CState (width g1) (height g1));;
    w <- need (width g1);;
    h <- need (height g1);;
    let s := new_State w h in
    ret (set_selected_piece None
           (set_available_moves (Some (get_available_moves s))
              (set_game_state (Some s) g1)))
  else ret g.

Definition size_sel_button_action (col row : Z) (g : Game) : Game :=
  set_window_state WHITE_MODE_SEL (set_height (Some row) (set_width (Some col) g)).

(** [button.action()]. *)
Definition run_action (a : Action) (g : Game) : Run Game :=
  match a with
  | SizeSelAction col row => ret (size_sel_button_action col row g)
  | ModeSelAction mode => mode_sel_button_action mode g
  | BackToBoardSizeSel from_game_over => ret (back_to_board_size_sel from_game_over g)
  | BackToWhiteModeSel => ret (back_to_white_mode_sel g)
  | BackToBlackModeSel => ret (back_to_black_mode_sel g)
  end.

(** [back_button is not None and back_button.mouse_collision(x, y)]. *)
Definition back_pressed (back_button : option Button) (x y : Z) : option Action :=
  match back_button with
  | Some b => if mouse_collision b x y then Some (action b) else None
  | None => None
  end.

(** ** The size-selection screen *)

Fixpoint size_sel_events (back_button : option Button) (evs : list Event)
    (g : Game) : Run Game :=
  match evs with
  | [] => ret g
  | QUIT :: _ => exit
  | MOUSEBUTTONDOWN x y :: evs' =>
      match head (filter (λ b, mouse_collision b x y = true) size_sel_buttons) with
      | Some b => run_action (action b) g
      | None =>
          match back_pressed back_button x y with
          | Some a => run_action a g
          | None => size_sel_events back_button evs' g
          end
      end
  | _ :: evs' => size_sel_events back_button evs' g
  end.

Definition size_sel (g : Game) (evs : list Event) : Run Game :=
  size_sel_events (get_back_button g) evs g.

(** ** The mode-selection screens *)

Definition is_minimax (mode : option PlayerModes) : bool :=
  bool_decide (mode = Some MINIMAX_VERY_EASY)
  || bool_decide (mode = Some MINIMAX_EASY)
  || bool_decide (mode = Some MINIMAX_DEFENSIVE_EASY)
  || bool_decide (mode = Some MINIMAX_DEFENSIVE_HARD)
  || bool_decide (mode = Some MINIMAX_AGRESSIVE_EASY)
  || bool_decide (mode = Some MINIMAX_AGRESSIVE_HARD).

Definition is_random (mode : option PlayerModes) : bool :=
  bool_decide (mode = Some RANDOM).

Definition is_mcts (mode : option PlayerModes) : bool :=
  bool_decide (mode = Some MCTS_QUICK)
  || bool_decide (mode = Some MCTS_BETTER)
  || bool_decide (mode = Some MCTS_HEURISTICS).

(** [choose_alg(mode, player)]: the algorithm of a team, initialised. *)
Definition choose_alg (g : Game) (mode : PlayerModes) (p : Player) : Run Alg :=
  match mode with
  | RANDOM => ret RandomAlg
  | MINIMAX_VERY_EASY =>
      ret (MinimaxAlg
             (mkHeuristicsList [WinHeuristic; ApproximateEnemyHeuristic]
                               [1000000; 1]) 2)
  | MINIMAX_EASY =>
      ret (MinimaxAlg
             (mkHeuristicsList [WinHeuristic; NrPiecesHeuristic]
                               [1000000; 1]) 2)
  | MINIMAX_DEFENSIVE_EASY =>
      ret (MinimaxAlg
             (mkHeuristicsList
                [WinHeuristic; NrPiecesHeuristic; GroupsHeuristic;
                 AdjacentPiecesHeuristic; CenterControlHeuristic]
                [1000000; 10; 2; 1; 1]) 2)
  | MINIMAX_DEFENSIVE_HARD =>
      ret (MinimaxAlg
             (mkHeuristicsList
                [WinHeuristic; NrPiecesHeuristic; GroupsHeuristic;
                 CenterControlHeuristic]
                [1000000; 10; 1; 1]) 4)
  | MINIMAX_AGRESSIVE_EASY =>
      ret (MinimaxAlg
             (mkHeuristicsList
                [WinHeuristic; NrPiecesHeuristic; ApproximateEnemyHeuristic]
                [1000000; 10; 2]) 2)
  | MINIMAX_AGRESSIVE_HARD =>
      ret (MinimaxAlg
             (mkHeuristicsList
                [WinHeuristic; NrPiecesHeuristic; ApproximateEnemyHeuristic]
                [1000000; 2; 1]) 4)
  | MCTS_QUICK | MCTS_BETTER =>
      _ <- call (CFromPlayer None (width g) (height g) p);;
      w <- need (width g);;
      h <- need (height g);;
      ret (MctsAlg (from_player None w h p))
  | MCTS_HEURISTICS =>
      let hl :=
        mkHeuristicsList
          [WinHeuristic; NrPiecesHeuristic; GroupsHeuristic;
           CenterControlHeuristic]
          [100000; 50; 10; 5] in
      _ <- call (CFromPlayer (Some hl) (width g) (height g) p);;
      w <- need (width g);;
      h <- need (height g);;
      ret (MctsAlg (from_player (Some hl) w h p))
  | HUMAN => ret NoAlg
  end.

(** [for button in self.mode_sel_buttons: if button.mouse_collision(x, y):
    button.action()]. *)
Fixpoint press_all (buttons : list Button) (x y : Z) (g : Game) : Run Game :=
  match buttons with
  | [] => ret g
  | b :: bs =>
      if mouse_collision b x y
      then g' <- run_action (action b) g;; press_all bs x y g'
      else press_all bs x y g
  end.

(** How an event loop is left: by running out of events or by [return]. *)
Inductive Loop : Type :=
  | Finished (g : Game)
  | Returned (g : Game).

Fixpoint mode_sel_events (back_button : option Button) (evs : list Event)
    (g : Game) : Run Loop :=
  match evs with
  | [] => ret (Finished g)
  | QUIT :: _ => exit
  | MOUSEBUTTONDOWN x y :: evs' =>
      g1 <- press_all mode_sel_buttons x y g;;
      match back_pressed back_button x y with
      | Some a => g2 <- run_action a g1;; ret (Returned g2)
      | None => mode_sel_events back_button evs' g1
      end
  | _ :: evs' => mode_sel_events back_button evs' g
  end.

(** [change_canvas_size(width, height)] multiplies both; [None] raises. *)
Definition change_canvas_size (width height : option Z) : Run unit :=
  _ <- need width;; _ <- need height;; ret tt.

(** [mode is not None and self.window_state == screen]: the mode chosen on
    the screen the window is on, if any. *)
Definition chosen_on (screen : WindowState) (mode : option PlayerModes)
    (g : Game) : option PlayerModes :=
  if decide (window_state g = screen) then mode else None.

Definition mode_sel (g : Game) (evs : list Event) : Run Game :=
  l <- mode_sel_events (get_back_button g) evs g;;
  match l with
  | Returned g' => ret g'
  | Finished g' =>
      match chosen_on WHITE_MODE_SEL (white_mode g') g' with
      | Some wm =>
          alg <- choose_alg g' wm WHITE;;
          ret (set_window_state BLACK_MODE_SEL (set_white_alg alg g'))
      | None =>
          match chosen_on BLACK_MODE_SEL (black_mode g') g' with
          | Some bm =>
              alg <- choose_alg g' bm BLACK;;
              let g'' := set_window_state PLAYING (set_black_alg alg g') in
              _ <- change_canvas_size (width g'') (height g'');;
              ret g''
          | None => ret g'
          end
      end
  end.

(** ** The playing screen *)

(** The tree object behind [alg], for a method call on it; anything else has
    no such method and the call raises. *)
Definition as_tree (a : Alg) : Run MonteCarloTree :=
  match a with
  | MctsAlg t => ret t
  | _ => raise
  end.

Definition mode_of (g : Game) (side : Player) : option PlayerModes :=
  if decide (side = WHITE) then white_mode g else black_mode g.

Definition alg_of (g : Game) (side : Player) : Alg :=
  if decide (side = WHITE) then white_alg g else black_alg g.

Definition set_alg (side : Player) (a : Alg) (g : Game) : Game :=
  if decide (side = WHITE) then set_white_alg a g else set_black_alg a g.

(** [get_current_npc] and [get_other_npc] return the (mode, algorithm) pair
    of a team; here the team itself, read through [mode_of] and [alg_of]. *)
Definition get_current_npc (s : State) : Player :=
  if decide (player s = WHITE) then WHITE else BLACK.

Definition get_other_npc (s : State) : Player :=
  if decide (player s = WHITE) then BLACK else WHITE.

(** [alg.update_move(move)] on the object of [side]. *)
Definition alg_update_move (side : Player) (move : Move) (g : Game) : Run Game :=
  t <- as_tree (alg_of g side);;
  _ <- call (CUpdateMove side move);;
  ret (set_alg side (MctsAlg (update_move t move)) g).

(** [alg.train_until(n)]. *)
Definition alg_train_until (seed : Seed) (side : Player) (n : Z) (g : Game)
  : Run Game :=
  t <- as_tree (alg_of g side);;
  _ <- call (CTrainUntil side n);;
  ret (set_alg side (MctsAlg (train_until seed t n)) g).

(** [alg.get_best_move()]. *)
Definition alg_get_best_move (side : Player) (g : Game) : Run Move :=
  t <- as_tree (alg_of g side);;
  _ <- call (CGetBestMove side);;
  need (get_best_move t).

(** [alg(self.game_state)]: only the random and minimax functions can be
    called. *)
Definition alg_call (seed : Seed) (side : Player) (s : State) (g : Game)
  : Run Move :=
  match alg_of g side with
  | RandomAlg => _ <- call (CAlg side s);; need (get_random_move seed s)
  | MinimaxAlg h depth => _ <- call (CAlg side s);; need (get_minimax_move h depth s)
  | _ => raise
  end.

(** [self.game_state = self.game_state.execute_move(move)]. *)
Definition apply_move (move : Move) (g : Game) : Run Game :=
  s <- need (game_state g);;
  _ <- call (CExecuteMove s move);;
  s' <- need (execute_move s move);;
  ret (set_game_state (Some s') g).

Definition execute_human_move (g : Game) (move : Move) : Run Game :=
  s <- need (game_state g);;
  g1 <- (if bool_decide (player s = BLACK) && is_mcts (white_mode g)
         then alg_update_move WHITE move g
         else if bool_decide (player s = WHITE) && is_mcts (black_mode g)
         then alg_update_move BLACK move g
         else ret g);;
  g2 <- apply_move move (set_selected_moves [] g1);;   (* the order matters here *)
  ret (set_selected_piece None g2).

Definition train_mcts (seed : Seed) (mode : option PlayerModes) (side : Player)
    (g : Game) : Run Game :=
  match mode with
  | Some MCTS_QUICK => alg_train_until seed side 100 g
  | Some MCTS_BETTER => alg_train_until seed side 1000 g
  | Some MCTS_HEURISTICS => alg_train_until seed side 2000 g
  | _ => ret g
  end.

(** [draw_static_board_elements]: [range(self.width)], [range(self.height)]. *)
Definition draw_static_board_elements (g : Game) : Run unit :=
  _ <- need (width g);; _ <- need (height g);; ret tt.

(** [draw_pieces] reads [get_board_matrix()[row][col]] for every row below
    [self.height] and column below [self.width]. *)
Definition draw_pieces (g : Game) : Run unit :=
  h <- need (height g);;
  w <- need (width g);;
  s <- need (game_state g);;
  if forallb (λ row,
       forallb (λ col, bool_decide (is_Some (py_index2 (get_board_matrix s) row col)))
               (py_range 0 w))
       (py_range 0 h)
  then ret tt else raise.

(** The second drawing loop of [handle_human_moves]: the first captured cell
    of every selected move is read from the board matrix. *)
Fixpoint draw_selected_moves (moves : list Move) (s : State) : Run unit :=
  match moves with
  | [] => ret tt
  | m :: ms =>
      rc <- need (get_first_to_kill m);;
      _ <- need (py_index2 (get_board_matrix s) rc.1 rc.2);;
      draw_selected_moves ms s
  end.

(** The moves of [available_moves] that start at the selected piece and end
    on the clicked cell. *)
Definition selects (g : Game) (row col : Z) (m : Move) : bool :=
  match m with
  | MotionMove row_origin col_origin row_destination col_destination _ _ =>
      bool_decide (selected_piece g = Some (row_origin, col_origin))
      && bool_decide ((row, col) = (row_destination, col_destination))
  | PassMove => false
  end.

(** [for move in self.selected_moves: if (row, col) ==
    move.get_first_to_kill(): ...; return].  [Some] when a move was executed. *)
Fixpoint kill_click (moves : list Move) (row col : Z) (g : Game)
  : Run (option Game) :=
  match moves with
  | [] => ret None
  | m :: ms =>
      rc <- need (get_first_to_kill m);;
      if decide ((row, col) = rc)
      then g' <- execute_human_move g m;; ret (Some (set_selected_moves [] g'))
      else kill_click ms row col g
  end.

Fixpoint human_events (back_button : option Button) (evs : list Event)
    (g : Game) : Run Game :=
  match evs with
  | [] => ret g
  | QUIT :: _ => exit
  | K_RETURN :: evs' =>
      avail <- need (available_moves g);;
      if decide (PassMove ∈ avail)
      then execute_human_move g PassMove
      else human_events back_button evs' g
  | MOUSEBUTTONDOWN x y :: evs' =>
      match back_pressed back_button x y with
      | Some a => run_action a g
      | None =>
          let col := x `div` 70 in
          let row := y `div` 70 in
          s <- need (game_state g);;
          v <- need (py_index2 (get_board_matrix s) row col);;
          if decide (v = player s) then
            human_events back_button evs'
              (set_selected_moves [] (set_selected_piece (Some (row, col)) g))
          else if decide (v = EMPTY) then
            avail <- need (available_moves g);;
            let g1 :=
              set_selected_moves (filter (λ m, selects g row col m = true) avail) g in
            match selected_moves g1 with
            | [m] => execute_human_move g1 m
            | _ => human_events back_button evs' g1
            end
          else
            r <- kill_click (selected_moves g) row col g;;
            match r with
            | Some g' => ret g'
            | None => human_events back_button evs' g
            end
      end
  | OtherEvent :: evs' => human_events back_button evs' g
  end.

Definition handle_human_moves (g : Game) (evs : list Event) : Run Game :=
  let back_button := get_back_button g in
  _ <- need (available_moves g);;
  s <- need (game_state g);;
  _ <- draw_selected_moves (selected_moves g) s;;
  human_events back_button evs g.

(** How the event loop of an automated team is left: by [return] after the
    back button, or by running out of events or [break], with [move]. *)
Inductive NpcLoop : Type :=
  | NpcReturned (g : Game)
  | NpcFinished (g : Game) (move : option Move).

Fixpoint npc_events (back_button : option Button) (side : Player) (seed : Seed)
    (evs : list Event) (g : Game) : Run NpcLoop :=
  match evs with
  | [] => ret (NpcFinished g None)
  | QUIT :: _ => exit
  | MOUSEBUTTONDOWN x y :: evs' =>
      match back_pressed back_button x y with
      | Some a => g' <- run_action a g;; ret (NpcReturned g')
      | None => npc_events back_button side seed evs' g
      end
  | K_RETURN :: evs' =>
      let mode := mode_of g side in
      if is_minimax mode || is_random mode then
        s <- need (game_state g);;
        move <- alg_call seed side s g;;
        g1 <- apply_move move g;;
        ret (NpcFinished g1 (Some move))
      else if is_mcts mode then
        g1 <- train_mcts seed mode side g;;
        move <- alg_get_best_move side g1;;
        g2 <- apply_move move g1;;
        g3 <- alg_update_move side move g2;;
        ret (NpcFinished g3 (Some move))
      else npc_events back_button side seed evs' g
  | OtherEvent :: evs' => npc_events back_button side seed evs' g
  end.

Definition is_human_turn (g : Game) (s : State) : bool :=
  bool_decide (white_mode g = Some HUMAN) && bool_decide (player s = WHITE)
  || bool_decide (black_mode g = Some HUMAN) && bool_decide (player s = BLACK).

(** [board()]: draws the board and handles the game logic of one frame. *)
Definition board (g : Game) (evs : list Event) (seed : Seed) : Run Game :=
  let back_button := get_back_button g in
  _ <- draw_static_board_elements g;;
  _ <- draw_pieces g;;
  s <- need (game_state g);;
  let g := set_available_moves (Some (get_available_moves s)) g in
  if is_human_turn g s then handle_human_moves g evs
  else
    let side := get_current_npc s in
    let other := get_other_npc s in
    l <- npc_events back_button side seed evs g;;
    match l with
    | NpcReturned g' => ret g'
    | NpcFinished g' None => ret g'
    | NpcFinished g' (Some move) =>
        if is_mcts (mode_of g' other)
        then alg_update_move other move g'
        else ret g'
    end.

(** ** What the playing screen draws *)

(** The lines [draw_static_board_elements] draws, each by its two end
    points: one down every column, one across every row, and one diagonal in
    every square of the grid, its direction by the parity of the square. *)
Definition static_board_lines (width height : Z) : list ((Z * Z) * (Z * Z)) :=
  (i ← py_range 0 width; [((70 * i + 35, 35), (70 * i + 35, 70 * height - 35))])
  ++ (i ← py_range 0 height; [((35, 70 * i + 35), (70 * width - 35, 70 * i + 35))])
  ++ (i ← py_range 0 (width - 1);
      j ← py_range 0 (height - 1);
      [if decide ((i + j) `mod` 2 = 0)
       then ((70 * i + 35, 70 * j + 35), (70 * i + 105, 70 * j + 105))
       else ((70 * i + 105, 70 * j + 35), (70 * i + 35, 70 * j + 105))]).

(** What [draw_pieces] draws for the cell at [row], [col]: a circle of
    radius 30 in the colour of the piece, by colour and centre; nothing for
    an empty cell; [None] where the matrix has no such cell. *)
Definition piece_circle (m : Board) (row col : Z)
  : option (list ((Z * Z * Z) * (Z * Z))) :=
  v ← py_index2 m row col;
  Some (if decide (v = WHITE) then [(WHITE_COLOR, (70 * col + 35, 70 * row + 35))]
        else if decide (v = BLACK)
             then [(BLACK_COLOR, (70 * col + 35, 70 * row + 35))]
             else []).

(** The circles [draw_pieces] draws, row by row. *)
Definition piece_circles (m : Board) (width height : Z)
  : option (list ((Z * Z * Z) * (Z * Z))) :=
  mjoin <$> mapM (λ rc : Z * Z, piece_circle m rc.1 rc.2)
                  (row ← py_range 0 height; col ← py_range 0 width; [(row, col)]).

(** ** The texts of the playing screen *)

Definition get_pass_move_text (color : Z * Z * Z) : string * (Z * Z * Z) :=
  ("Pressione Enter para passar a jogada"%string, color).

Definition get_white_move_text : string * (Z * Z * Z) :=
  ("Vez das brancas"%string, WHITE_COLOR).

Definition get_black_move_text : string * (Z * Z * Z) :=
  ("Vez das pretas"%string, BLACK_COLOR).

Definition get_npc_move_text (color : Z * Z * Z) : string * (Z * Z * Z) :=
  ("Pressione Enter para continuar"%string, color).

(** A rendered text put on the canvas, with the centre of its rectangle. *)
Record Blit : Type := mkBlit {
  blit_text : string * (Z * Z * Z);
  blit_center : Z * Z
}.

(** [draw_playing_text()]: the texts telling whose turn it is, as they are
    blitted.  [PassMove() in self.available_moves] raises on [None]. *)
Definition draw_playing_text (g : Game) : Run (list Blit) :=
  s <- need (game_state g);;
  textList <-
    (if decide (player s = BLACK) then
       if decide (black_mode g = Some HUMAN) then
         avail <- need (available_moves g);;
         ret ([get_black_move_text]
              ++ (if decide (PassMove ∈ avail)
                  then [get_pass_move_text BLACK_COLOR] else []))
       else ret [get_black_move_text; get_npc_move_text BLACK_COLOR]
     else if decide (player s = WHITE) then
       if decide (white_mode g = Some HUMAN) then
         avail <- need (available_moves g);;
         ret ([get_white_move_text]
              ++ (if decide (PassMove ∈ avail)
                  then [get_pass_move_text WHITE_COLOR] else []))
       else ret [get_white_move_text; get_npc_move_text WHITE_COLOR]
     else ret []);;
  match textList with
  | [] => ret []
  | _ =>
      w <- need (width g);;
      h <- need (height g);;
      ret (imap (λ i text,
                   mkBlit text ((w * 70) `div` 2, h * 70 + 7 + 15 * Z.of_nat i))
                textList)
  end.

(** ** The game-over screen *)

Definition get_winner_text (g : Game) : string * (Z * Z * Z) :=
  if decide (winner g = BLACK) then ("Pretas vencem!"%string, BLACK_COLOR)
  else if decide (winner g = WHITE) then ("Brancas vencem!"%string, WHITE_COLOR)
  else ("Empate!"%string, BLACK_COLOR).

Fixpoint game_over_events (back_button : option Button) (evs : list Event)
    (g : Game) : Run Game :=
  match evs with
  | [] => ret g
  | QUIT :: _ => exit
  | MOUSEBUTTONDOWN x y :: evs' =>
      match back_pressed back_button x y with
      | Some a => run_action a g
      | None => game_over_events back_button evs' g
      end
  | _ :: evs' => game_over_events back_button evs' g
  end.

(** [game_over()]: the texts are placed at [self.width * 35], [self.height *
    35]. *)
Definition game_over (g : Game) (evs : list Event) : Run Game :=
  _ <- need (width g);;
  _ <- need (height g);;
  game_over_events (get_back_button g) evs g.

(** ** The main loop *)

(** What one iteration of the loop may consume: the events of the frame and
    the random draws of the agents. *)
Record Frame : Type := mkFrame {
  events : list Event;
  seed : Seed
}.

(** The body of [while True] in [play].  The iteration that moves to the
    game-over screen ends with [continue] and reads nothing of the frame. *)
Definition play_iteration (g : Game) (fr : Frame) : Run Game :=
  match window_state g with
  | PLAYING =>
      s <- need (game_state g);;
      _ <- call (CCheckWinner s);;
      let g1 := set_winner (check_winner s) g in
      if decide (winner g1 ≠ EMPTY)
      then ret (set_window_state GAME_OVER g1)
      else board g1 (events fr) (seed fr)
  | BOARD_SIZE_SEL => size_sel g (events fr)
  | WHITE_MODE_SEL | BLACK_MODE_SEL => mode_sel g (events fr)
  | GAME_OVER => game_over g (events fr)
  end.

(** [play()] over the frames of a finite stretch of the loop. *)
Fixpoint play (g : Game) (frames : list Frame) : Run Game :=
  match frames with
  | [] => ret g
  | fr :: rest => g' <- play_iteration g fr;; play g' rest
  end.

(** What [play] returns over the given frames, or [init] if it ends early. *)
Definition played (frames : list Frame) : Game :=
  match (play init frames).2 with
  | Ok g => g
  | _ => init
  end.

(** The configurations the loop can be in: [init], and whatever an iteration
    leads to. *)
Inductive reachable : Game → Prop :=
  | reachable_init : reachable init
  | reachable_step g fr t g' :
      reachable g → play_iteration g fr = (t, Ok g') → reachable g'.

End Window.

(** Configurations and calls can be compared wherever states and trees can. *)
Section Decidable.
Context `{Collaborators} `{!EqDecision State} `{!EqDecision MonteCarloTree}.

#[global] Instance Alg_eq_dec : EqDecision Alg.
Proof. solve_decision. Defined.

#[global] Instance Game_eq_dec : EqDecision Game.
Proof. solve_decision. Defined.

#[global] Instance Call_eq_dec : EqDecision Call.
Proof. solve_decision. Defined.

End Decidable.
End UI.

(** ** A reference instance

    The rule engine of the specification on a small opening position,
    stand-in agents and a stand-in hit test: enough to run the window on
    concrete frames. *)

Module Fixture.

(** An opening with one white piece at row 2, column 1 and black pieces at
    (0, 2), (2, 3) and (3, 2), on a grid of the requested size. *)
Definition opening_cell (row col : Z) : Player :=
  if decide ((row, col) = (2, 1)) then WHITE
  else if decide ((row, col) ∈ [(0, 2); (2, 3); (3, 2)]) then BLACK
  else EMPTY.

Definition opening (w h : Z) : Board :=
  (λ row, (λ col, opening_cell row col) <$> seqZ 0 w) <$> seqZ 0 h.

#[global] Instance Rules_State_eq_dec : EqDecision Rules.State.
Proof. solve_decision. Defined.

#[global] Instance engine : UI.RuleEngine := {|
  UI.State := Rules.State;
  UI.new_State w h := Rules.mkState (opening w h) WHITE None;
  UI.player := Rules.player;
  UI.get_board_matrix := Rules.get_board_matrix;
  UI.get_available_moves := Rules.get_available_moves;
  UI.execute_move := Rules.execute_move;
  UI.check_winner := Rules.check_winner
|}.

(** Agents that take the first available move (the random one the move its
    draw points at); a tree is stood for by its root state.  Buttons are hit
    within 20 pixels across and 10 down of their position. *)
#[global] Instance collaborators : UI.Collaborators := {|
  UI.Seed := nat;
  UI.MonteCarloTree := Rules.State;
  UI.get_random_move seed s :=
    let moves := Rules.get_available_moves s in
    moves !! (seed `mod` length moves)%nat;
  UI.get_minimax_move _ _ s := head (Rules.get_available_moves s);
  UI.from_player _ w h _ := Rules.mkState (opening w h) WHITE None;
  UI.train_until _ t _ := t;
  UI.get_best_move t := head (Rules.get_available_moves t);
  UI.update_move t m := default t (Rules.execute_move t m);
  UI.mouse_collision b x y :=
    bool_decide (Z.abs (x - UI.btn_x b) ≤ 20 ∧ Z.abs (y - UI.btn_y b) ≤ 10)
|}.

#[global] Instance State_eq_dec : EqDecision UI.State := Rules_State_eq_dec.
#[global] Instance MonteCarloTree_eq_dec : EqDecision UI.MonteCarloTree :=
  Rules_State_eq_dec.

Definition click_cell (row col : Z) : UI.Event :=
  UI.MOUSEBUTTONDOWN (70 * col + 35) (70 * row + 35).

Definition click_button (b : UI.Button) : UI.Event :=
  UI.MOUSEBUTTONDOWN (UI.btn_x b) (UI.btn_y b).

Definition click_size (col row : Z) : UI.Event :=
  UI.MOUSEBUTTONDOWN ((col - 4) * 70) ((row - 4) * 70).

(** The button of the [i]-th mode of the enum. *)
Definition click_mode (i : Z) : UI.Event :=
  UI.MOUSEBUTTONDOWN 245 ((i + 2) * 40).

Definition click_back : UI.Event := UI.MOUSEBUTTONDOWN 30 15.

Definition frame (evs : list UI.Event) : UI.Frame := UI.mkFrame evs 0%nat.

(** The configuration a run ends in, or [init] if it ends early. *)
Definition result (r : UI.Run UI.Game) : UI.Game :=
  match r.2 with
  | UI.Ok g => g
  | _ => UI.init
  end.

(** A 5 by 5 board, then the modes of the white and of the black team by
    their place in the enum. *)
Definition setup (white black : Z) : list UI.Frame :=
  [frame [click_size 5 5]; frame [click_mode white]; frame [click_mode black]].

(** The opening position on the 5 by 5 board. *)
Definition opening_state : Rules.State := Rules.mkState (opening 5 5) WHITE None.

(** Two humans, about to play. *)
Definition two_humans : UI.Game := UI.played (setup 0 0).

(** A human with the white pieces against the quick tree search. *)
Definition human_against_tree : UI.Game := UI.played (setup 0 8).

(** The quick tree search with the white pieces against the random agent. *)
Definition tree_against_random : UI.Game := UI.played (setup 8 1).

(** White selects its piece and captures towards the right. *)
Definition first_capture : list UI.Event := [click_cell 2 1; click_cell 2 2].

(** The window on the black mode screen, both sizes chosen. *)
Definition choosing_black : UI.Game :=
  UI.played [frame [click_size 5 5]; frame [click_mode 0]].

(** White captures all three black pieces in one chain; the frame after the
    last capture finds the winner. *)
Definition won_game : list UI.Frame :=
  setup 0 0
  ++ [frame first_capture;
      frame [click_cell 2 2; click_cell 1 2; click_cell 0 2];
      frame [click_cell 1 2; click_cell 2 2];
      frame []].

(** White captures once, selects the piece again and clicks the cell from
    which both an approach and a withdrawal capture, goes back to the black
    mode screen, starts a new game and clicks the black piece at (0, 2). *)
Definition stale_selection : list UI.Frame :=
  setup 0 0
  ++ [frame first_capture;
      frame [click_cell 2 2; click_cell 1 2; click_back];
      frame [click_mode 0];
      frame [click_cell 0 2]].

(** The chain of [won_game], one capture before its end. *)
Definition last_capture_made : UI.Game :=
  UI.played
    (setup 0 0
     ++ [frame first_capture;
         frame [click_cell 2 2; click_cell 1 2; click_cell 0 2];
         frame [click_cell 1 2; click_cell 2 2]]).

(** The first capture of the opening position, and the move the stand-in
    agents pick there. *)
Definition capture_right : Move := MotionMove 2 1 2 2 Approach [(2, 3)].
Definition first_available : Move := MotionMove 2 1 1 0 Withdrawal [(3, 2)].

(** The approach capture offered after the first capture. *)
Definition stale_move : Move := MotionMove 2 2 1 2 Approach [(0, 2)].

(** The state after white's first available move in the opening. *)
Definition after_first_available : Rules.State :=
  default opening_state (Rules.execute_move opening_state first_available).

(** The state after white's capture to the right in the opening. *)
Definition after_capture_right : Rules.State :=
  default opening_state (Rules.execute_move opening_state capture_right).

(** The texts of the turn of an automated white team on the 5 by 5 board. *)
Definition automated_white_texts : list UI.Blit :=
  [UI.mkBlit UI.get_white_move_text (175, 357);
   UI.mkBlit (UI.get_npc_move_text UI.WHITE_COLOR) (175, 372)].

(** The circles drawn for the pieces of the opening position. *)
Definition opening_circles : list ((Z * Z * Z) * (Z * Z)) :=
  default [] (UI.piece_circles (Rules.get_board_matrix opening_state) 5 5).





End Fixture.

(** ** What the claims speak about *)

Module UISpec.
Import UI.

Section Spec.
Context `{Collaborators}.

(** The buttons that lead back a screen. *)
Definition is_back (a : Action) : Prop :=
  match a with
  | BackToBoardSizeSel _ | BackToWhiteModeSel | BackToBlackModeSel => True
  | _ => False
  end.

(** [update_move(m)] on the tree of [side], if its mode is an MCTS one. *)
Definition mcts_update (g : Game) (side : Player) (m : Move) : list Call :=
  if is_mcts (mode_of g side) then [CUpdateMove side m] else [].

(** The [update_move(m)] calls on the trees of both teams, the team to move
    first. *)
Definition mcts_updates (g : Game) (s : State) (m : Move) : list Call :=
  mcts_update g (get_current_npc s) m ++ mcts_update g (get_other_npc s) m.

(** The simulations [train_mcts] asks for. *)
Definition mcts_budget (mode : option PlayerModes) : option Z :=
  match mode with
  | Some MCTS_QUICK => Some 100
  | Some MCTS_BETTER => Some 1000
  | Some MCTS_HEURISTICS => Some 2000
  | _ => None
  end.

(** The calls of one frame of [board] that runs to its end, on the state [s]
    the frame starts with. *)
Inductive frame_calls (g : Game) (s : State) : list Call → Prop :=
  | calls_idle : frame_calls g s []
  | calls_human m :
      is_human_turn g s = true →
      frame_calls g s (mcts_updates g s m ++ [CExecuteMove s m])
  | calls_function m :
      is_human_turn g s = false →
      is_minimax (mode_of g (get_current_npc s))
      || is_random (mode_of g (get_current_npc s)) = true →
      frame_calls g s
        (CAlg (get_current_npc s) s :: CExecuteMove s m :: mcts_updates g s m)
  | calls_mcts m n :
      is_human_turn g s = false →
      is_mcts (mode_of g (get_current_npc s)) = true →
      mcts_budget (mode_of g (get_current_npc s)) = Some n →
      frame_calls g s
        (CTrainUntil (get_current_npc s) n :: CGetBestMove (get_current_npc s)
           :: CExecuteMove s m :: mcts_updates g s m).

(** What [alg(state)] returns. *)
Definition alg_answer (seed : Seed) (a : Alg) (s : State) : option Move :=
  match a with
  | RandomAlg => get_random_move seed s
  | MinimaxAlg h depth => get_minimax_move h depth s
  | _ => None
  end.







(** Both sizes chosen and within the supported bounds. *)
Definition supported (w h : option Z) : Prop :=
  ∃ w' h', w = Some w' ∧ h = Some h' ∧
           MIN_SIZE ≤ w' ≤ MAX_SIZE ∧ MIN_SIZE ≤ h' ≤ MAX_SIZE.

(** What holds of every configuration the loop reaches. *)
Record invariant (g : Game) : Prop := mkInvariant {
  inv_size : window_state g ≠ BOARD_SIZE_SEL → supported (width g) (height g);
  inv_state : is_Some (black_mode g) → is_Some (game_state g);
  inv_playing : window_state g = PLAYING ∨ window_state g = GAME_OVER →
                is_Some (black_mode g);
  inv_winner : window_state g = GAME_OVER → winner g ≠ EMPTY
}.

(** The calls of [execute_human_move], as the code orders them. *)
Definition human_calls (g : Game) (s : State) (m : Move) : list Call :=
  (if bool_decide (player s = BLACK) && is_mcts (white_mode g)
   then [CUpdateMove WHITE m]
   else if bool_decide (player s = WHITE) && is_mcts (black_mode g)
   then [CUpdateMove BLACK m]
   else []) ++ [CExecuteMove s m].

(** [g'] differs from [g] in nothing the screens and the agents go by. *)
Definition same_setup (g g' : Game) : Prop :=
  window_state g' = window_state g ∧ width g' = width g ∧ height g' = height g ∧
  winner g' = winner g ∧ white_mode g' = white_mode g ∧ black_mode g' = black_mode g.

(** What a back button does, whatever the screen. *)
Definition back_target (a : Action) (g : Game) : Game :=
  match a with
  | BackToBoardSizeSel b => back_to_board_size_sel b g
  | BackToWhiteModeSel => back_to_white_mode_sel g
  | _ => back_to_black_mode_sel g
  end.

(** How a frame of the playing screen leaves the window: as it was set up,
    with a state to play on, or one screen back. *)
Definition after_frame (g g' : Game) : Prop :=
  (same_setup g g' ∧ is_Some (game_state g'))
  ∨ ∃ a g1, is_back a ∧ same_setup g g1 ∧ is_Some (game_state g1) ∧
            g' = back_target a g1.

(** C3 as the specification words it: once a move is applied, every team
    playing an MCTS mode gets its [update_move] call. *)
Definition updated_after (g : Game) (t : list Call) : Prop :=
  ∀ pre s m post side,
    t = pre ++ CExecuteMove s m :: post →
    is_mcts (mode_of g side) = true →
    CUpdateMove side m ∈ post.

(** C4 as the specification words it: in a frame of an automated team, the
    move applied to the state [s] was obtained by calling the team's
    algorithm on [s]. *)
Definition decided_by_call (g : Game) (s : State) (t : list Call) : Prop :=
  is_human_turn g s = false →
  ∀ pre m post,
    t = pre ++ CExecuteMove s m :: post → CAlg (get_current_npc s) s ∈ pre.

(** C6 as the specification words it: a move handed to [execute_move] is one
    of the moves available in the state it is applied to. *)
Definition executes_available (t : list Call) : Prop :=
  ∀ s m, CExecuteMove s m ∈ t → m ∈ get_available_moves s.

(** The shape of what a human frame calls: nothing, or the calls of one
    executed move. *)
Definition human_shape (g : Game) (s : State) (full : list Call) : Prop :=
  full = [] ∨ ∃ m, full = human_calls g s m.

(** A check that calls no collaborator: it passes or raises. *)
Definition silent (m : Run unit) : Prop := m = ret tt ∨ m = raise.

(** The calls of the event loop of an automated team, by the move it ends
    with. *)
Definition npc_calls (g : Game) (s : State) (side : Player) (om : option Move)
    (full : list Call) : Prop :=
  match om with
  | None => full = []
  | Some m =>
      (is_minimax (mode_of g side) || is_random (mode_of g side) = true ∧
       full = [CAlg side s; CExecuteMove s m])
      ∨ (is_minimax (mode_of g side) || is_random (mode_of g side) = false ∧
         is_mcts (mode_of g side) = true ∧
         ∃ n, mcts_budget (mode_of g side) = Some n ∧
              full = [CTrainUntil side n; CGetBestMove side; CExecuteMove s m;
                      CUpdateMove side m])
  end.

(** The calls of the mode screens: construction only, on supported sizes. *)
Definition setup_call (c : Call) : Prop :=
  match c with
  | CState w h => supported w h
  | CFromPlayer _ w h _ => supported w h
  | _ => False
  end.

(** A step of a mode screen: the screen and the sizes stay. *)
Definition mode_step (g g' : Game) : Prop :=
  window_state g' = window_state g ∧ invariant g'.

(** The calls of a playing frame go to the rule engine and the agents. *)
Definition game_call (c : Call) : Prop :=
  match c with
  | CExecuteMove _ _ | CAlg _ _ | CTrainUntil _ _ | CGetBestMove _
  | CUpdateMove _ _ => True
  | _ => False
  end.

End Spec.
End UISpec.

(** ** What the further theorems speak about *)

Module UIProps.
Import UI UISpec.

Section Props.
Context `{Collaborators}.

(** The screens an iteration of the main loop can lead to from a screen. *)
Definition next_screen (a b : WindowState) : Prop :=
  match a with
  | BOARD_SIZE_SEL => b = BOARD_SIZE_SEL ∨ b = WHITE_MODE_SEL
  | WHITE_MODE_SEL => b = WHITE_MODE_SEL ∨ b = BLACK_MODE_SEL ∨ b = BOARD_SIZE_SEL
  | BLACK_MODE_SEL => b = BLACK_MODE_SEL ∨ b = PLAYING ∨ b = WHITE_MODE_SEL
  | PLAYING => b = PLAYING ∨ b = GAME_OVER ∨ b = BLACK_MODE_SEL
  | GAME_OVER => b = GAME_OVER ∨ b = BOARD_SIZE_SEL
  end.

(** A mouse press, wherever it lands. *)
Definition is_press (e : Event) : Prop :=
  match e with
  | MOUSEBUTTONDOWN _ _ => True
  | _ => False
  end.

(** [g1] is [g] with another selection: [selected_piece] and
    [selected_moves] are all that [handle_human_moves] assigns between two
    moves. *)
Definition reselect (g g1 : Game) : Prop :=
  ∃ p l, g1 = set_selected_moves l (set_selected_piece p g).

(** [g1] is [g] with another selection and other available moves: what a
    frame of [board] assigns when no move is made. *)
Definition refreshed (g g1 : Game) : Prop :=
  ∃ av p l, g1 = set_selected_moves l (set_selected_piece p (set_available_moves av g)).

(** The same algorithm object, or a tree in the place of a tree. *)
Definition same_kind (a b : Alg) : Prop :=
  a = b ∨ ∃ tree tree', a = MctsAlg tree ∧ b = MctsAlg tree'.

(** [g'] is set up as [g] and holds algorithm objects of the same kinds. *)
Definition keeps (g g' : Game) : Prop :=
  same_setup g g' ∧ same_kind (white_alg g) (white_alg g') ∧
  same_kind (black_alg g) (black_alg g').

(** What pressing mode buttons leaves as it was: the screen, the sizes, the
    algorithm objects, the stored winner and the selected moves; on the black
    team's screen also the white team's mode. *)
Definition chosen (g g' : Game) : Prop :=
  window_state g' = window_state g ∧ width g' = width g ∧ height g' = height g ∧
  white_alg g' = white_alg g ∧ black_alg g' = black_alg g ∧
  selected_moves g' = selected_moves g ∧ winner g' = winner g ∧
  (window_state g = BLACK_MODE_SEL → white_mode g' = white_mode g).

(** The action of the back button of each screen. *)
Definition back_action (screen : WindowState) : option Action :=
  match screen with
  | BOARD_SIZE_SEL => None
  | WHITE_MODE_SEL => Some (BackToBoardSizeSel false)
  | BLACK_MODE_SEL => Some BackToWhiteModeSel
  | PLAYING => Some BackToBlackModeSel
  | GAME_OVER => Some (BackToBoardSizeSel true)
  end.

(** The algorithm object a team playing [mode] is to hold: nothing for a
    human, the random function, the minimax closure [choose_alg] builds for
    the mode, or a tree. *)
Definition agrees (mode : option PlayerModes) (a : Alg) : Prop :=
  match mode with
  | Some HUMAN => a = NoAlg
  | Some RANDOM => a = RandomAlg
  | Some MCTS_QUICK | Some MCTS_BETTER | Some MCTS_HEURISTICS =>
      ∃ tree, a = MctsAlg tree
  | Some m => choose_alg init m WHITE = ret a
  | None => False
  end.

(** Past the screen on which a team's mode is chosen, the team holds the
    algorithm object of its mode. *)
Definition equipped (g : Game) : Prop :=
  (window_state g = BLACK_MODE_SEL ∨ window_state g = PLAYING
   ∨ window_state g = GAME_OVER → agrees (white_mode g) (white_alg g)) ∧
  (window_state g = PLAYING ∨ window_state g = GAME_OVER →
   agrees (black_mode g) (black_alg g)).

(** The hint to press Enter for a pass is among the texts drawn. *)
Definition pass_hint (blits : list Blit) : Prop :=
  Exists (λ b, (blit_text b).1 = (get_pass_move_text WHITE_COLOR).1) blits.

#[global] Instance pass_hint_dec blits : Decision (pass_hint blits).
Proof. unfold pass_hint. apply _. Defined.

(** The move the agent of [side] decides on in the state [s]: what the
    random or minimax function answers, or the best move of the tree once
    it is trained with the budget of the mode. *)
Definition agent_move (seed : Seed) (g : Game) (side : Player) (s : State)
  : option Move :=
  match alg_of g side with
  | MctsAlg tree =>
      n ← mcts_budget (mode_of g side); get_best_move (train_until seed tree n)
  | a => alg_answer seed a s
  end.

(** The board matrix has a cell for every row and column of the board. *)
Definition covers (w h : Z) (m : Board) : Prop :=
  ∀ row col, 0 ≤ row < h → 0 ≤ col < w → is_Some (py_index2 m row col).

(** The calls of a mode screen: [State(self.width, self.height)] on the
    black team's screen, and the construction of a tree for the team of the
    screen, both on the sizes of the window. *)
Definition menu_call (g : Game) (c : Call) : Prop :=
  match c with
  | CState w h => window_state g = BLACK_MODE_SEL ∧ w = width g ∧ h = height g
  | CFromPlayer _ w h p =>
      w = width g ∧ h = height g ∧
      (window_state g = WHITE_MODE_SEL ∧ p = WHITE
       ∨ window_state g = BLACK_MODE_SEL ∧ p = BLACK)
  | _ => False
  end.

(** The moves handed to [execute_move], in order. *)
Definition executed (t : list Call) : list Move :=
  omap (λ c, match c with CExecuteMove _ m => Some m | _ => None end) t.

(** The moves handed to [update_move] on the tree of [side], in order. *)
Definition updated (side : Player) (t : list Call) : list Move :=
  omap (λ c, match c with
             | CUpdateMove sd m => if decide (sd = side) then Some m else None
             | _ => None
             end) t.

(** No mouse press of the frame lands on a back button. *)
Definition no_back (fr : Frame) : Prop :=
  ∀ x y b, MOUSEBUTTONDOWN x y ∈ events fr → b ∈ back_buttons →
           mouse_collision b x y = false.

(** The pixel at which the intersection of column [a] and row [b] of the
    board is drawn. *)
Definition point (a b : Z) : Z * Z := (70 * a + 35, 70 * b + 35).

(** An intersection from which the diagonals start: column plus row is even. *)
Definition strong (a b : Z) : Prop := (a + b) `mod` 2 = 0.

(** The colour [draw_pieces] gives the pieces of a team. *)
Definition piece_color (p : Player) : Z * Z * Z :=
  if decide (p = WHITE) then WHITE_COLOR else BLACK_COLOR.

(** A game has been set up on a [w] by [h] board and not played yet. *)
Definition started (w h : Z) (g : Game) : Prop :=
  game_state g = Some (new_State w h) ∧
  available_moves g = Some (get_available_moves (new_State w h)) ∧
  selected_piece g = None.

End Props.

#[global] Instance Action_eq_dec : EqDecision Action.
Proof. solve_decision. Defined.

#[global] Instance Button_eq_dec : EqDecision Button.
Proof. solve_decision. Defined.

#[global] Instance Blit_eq_dec : EqDecision Blit.
Proof. solve_decision. Defined.

(** The value of a mode in the enum. *)
Definition PlayerModes_value (mode : PlayerModes) : Z :=
  match mode with
  | HUMAN => 0
  | RANDOM => 1
  | MINIMAX_VERY_EASY => 2
  | MINIMAX_EASY => 3
  | MINIMAX_DEFENSIVE_EASY => 4
  | MINIMAX_DEFENSIVE_HARD => 5
  | MINIMAX_AGRESSIVE_EASY => 6
  | MINIMAX_AGRESSIVE_HARD => 7
  | MCTS_QUICK => 8
  | MCTS_BETTER => 9
  | MCTS_HEURISTICS => 10
  end.

End UIProps.

(** * Theorems *)

(** ** The rule engine *)

Module RulesFacts.
Import Rules.

Lemma cell_Some_bounds (b : Board) r c v :
  cell b r c = Some v →
  0 ≤ r ∧ 0 ≤ c ∧ ∃ row, b !! Z.to_nat r = Some row ∧ row !! Z.to_nat c = Some v.
Proof.
  unfold cell. case_bool_decide as Hrc; [|done].
  destruct (b !! Z.to_nat r) as [row|] eqn:Hrow; simpl; [|done].
  intros Hc. destruct Hrc. eauto.
Qed.

Lemma set_cell_None (b : Board) r c v :
  cell b r c = None → set_cell b r c v = b.
Proof.
  unfold cell, set_cell. case_bool_decide as Hrc; [|done].
  intros Hc. apply list_eq. intros i.
  destruct (decide (i = Z.to_nat r)) as [->|Hne].
  - rewrite list_lookup_alter_eq.
    destruct (b !! Z.to_nat r) as [row|]; simpl in *; [|done].
    f_equal. apply list_insert_ge. by apply lookup_ge_None.
  - by rewrite list_lookup_alter_ne.
Qed.

Lemma cell_set_cell_eq (b : Board) r c old v :
  cell b r c = Some old → cell (set_cell b r c v) r c = Some v.
Proof.
  intros (Hr & Hc & row & Hrow & Hcol)%cell_Some_bounds.
  unfold cell, set_cell. rewrite !bool_decide_eq_true_2 by done.
  rewrite list_lookup_alter_eq, Hrow. simpl.
  apply list_lookup_insert_eq. by eapply lookup_lt_Some.
Qed.

Lemma cell_set_cell_ne (b : Board) r c v r' c' :
  (r, c) ≠ (r', c') → cell (set_cell b r c v) r' c' = cell b r' c'.
Proof.
  intros Hne. unfold cell, set_cell.
  case_bool_decide as Hrc; [|done].
  case_bool_decide as Hrc'; [|done].
  destruct (decide (Z.to_nat r = Z.to_nat r')) as [Heq|Hr].
  - rewrite <- Heq, list_lookup_alter_eq.
    destruct (b !! Z.to_nat r) as [row|]; simpl; [|done].
    apply list_lookup_insert_ne. intros Hc. apply Hne. f_equal; lia.
  - by rewrite list_lookup_alter_ne.
Qed.

Lemma count_row_insert p (row : list Player) i old v :
  row !! i = Some old →
  (count_row p (<[i:=v]> row) + (if decide (old = p) then 1 else 0) =
   count_row p row + (if decide (v = p) then 1 else 0))%nat.
Proof.
  unfold count_row. revert i. induction row as [|x row IH]; intros [|i] Hi; simplify_eq/=.
  - rewrite !filter_cons. repeat case_decide; simpl; lia.
  - specialize (IH _ Hi). rewrite !filter_cons. repeat case_decide; simpl in *; lia.
Qed.

Lemma count_cells_set_cell p (b : Board) r c old v :
  cell b r c = Some old →
  (count_cells p (set_cell b r c v) + (if decide (old = p) then 1 else 0) =
   count_cells p b + (if decide (v = p) then 1 else 0))%nat.
Proof.
  intros (Hr & Hc & row & Hrow & Hcol)%cell_Some_bounds.
  unfold set_cell. rewrite bool_decide_eq_true_2 by done.
  generalize dependent (Z.to_nat r). clear Hr.
  induction b as [|x b IH]; intros [|i] Hi; simplify_eq/=.
  - pose proof (count_row_insert p _ _ _ v Hcol). lia.
  - specialize (IH _ Hi). lia.
Qed.

Lemma occupied_set_cell (b : Board) r c old v :
  cell b r c = Some old →
  (occupied (set_cell b r c v) + (if decide (old = EMPTY) then 0 else 1) =
   occupied b + (if decide (v = EMPTY) then 0 else 1))%nat.
Proof.
  intros Hc. unfold occupied.
  pose proof (count_cells_set_cell WHITE _ _ _ _ v Hc).
  pose proof (count_cells_set_cell BLACK _ _ _ _ v Hc).
  destruct old, v; repeat case_decide; simplify_eq; lia.
Qed.

Lemma occupied_clear_le (b : Board) r c :
  (occupied (set_cell b r c EMPTY) ≤ occupied b)%nat.
Proof.
  destruct (cell b r c) as [old|] eqn:Hc.
  - pose proof (occupied_set_cell _ _ _ _ EMPTY Hc).
    repeat case_decide; simplify_eq; lia.
  - by rewrite set_cell_None.
Qed.

Lemma occupied_clear_all_le (kills : list (Z * Z)) (b : Board) :
  (occupied (foldl (λ b k, set_cell b k.1 k.2 EMPTY) b kills) ≤ occupied b)%nat.
Proof.
  revert b. induction kills as [|k kills IH]; intros b; simpl; [lia|].
  etransitivity; [apply IH|apply occupied_clear_le].
Qed.

Lemma scan_cells fuel (b : Board) opp r c dr dc k :
  k ∈ scan fuel b opp r c dr dc → cell b k.1 k.2 = Some opp.
Proof.
  revert r c. induction fuel as [|fuel IH]; intros r c; simpl.
  - by intros ?%elem_of_nil.
  - case_decide as Hc; [|by intros ?%elem_of_nil].
    intros [->|Hk]%elem_of_cons; [done|eauto].
Qed.

(** What membership among the candidates says about a motion: its origin
    holds a piece of the side to move, its destination is an empty cell of
    the grid, and every captured cell holds an opposing piece. *)
Lemma candidates_motion (s : State) r c r' c' kd kills :
  MotionMove r c r' c' kd kills ∈ candidates s →
  cell (board s) r c = Some (player s) ∧
  cell (board s) r' c' = Some EMPTY ∧
  ∀ k, k ∈ kills → cell (board s) k.1 k.2 = Some (opponent (player s)).
Proof.
  unfold candidates.
  intros ([r0 c0] & Hm & Hpiece)%list_elem_of_bind.
  apply list_elem_of_bind in Hm as ([dr dc] & Hm & _).
  assert (Hown : cell (board s) r0 c0 = Some (player s)).
  { destruct (chain s) as [[pos used]|].
    - apply list_elem_of_filter in Hpiece as [_ Hpiece].
      by apply list_elem_of_filter in Hpiece as [Hpiece _].
    - by apply list_elem_of_filter in Hpiece as [Hpiece _]. }
  clear Hpiece. unfold motions_from in Hm.
  case_decide as Hdest; [|by apply elem_of_nil in Hm].
  unfold line in Hm.
  set (fuel := (board_height (board s) + board_width (board s))%nat) in Hm.
  destruct (scan fuel _ _ (r0 + dr + dr) _ _ _) as [|a la] eqn:Ha;
    destruct (scan fuel _ _ (r0 - dr) _ _ _) as [|w lw] eqn:Hw; simpl in Hm.
  - apply list_elem_of_singleton in Hm. simplify_eq.
    split_and!; [done..|]. by intros k ?%elem_of_nil.
  - apply list_elem_of_singleton in Hm. simplify_eq.
    split_and!; [done..|]. intros k Hk. eapply scan_cells. by rewrite Hw.
  - apply list_elem_of_singleton in Hm. simplify_eq.
    split_and!; [done..|]. intros k Hk. eapply scan_cells. by rewrite Ha.
  - apply elem_of_cons in Hm as [Hm|Hm%list_elem_of_singleton]; simplify_eq.
    + split_and!; [done..|]. intros k Hk. eapply scan_cells. by rewrite Ha.
    + split_and!; [done..|]. intros k Hk. eapply scan_cells. by rewrite Hw.
Qed.

Lemma available_subset (s : State) m :
  m ∈ get_available_moves s → m = PassMove ∨ m ∈ candidates s.
Proof.
  unfold get_available_moves.
  destruct (filter _ (candidates s)) as [|m0 caps] eqn:Hcaps.
  - destruct (candidates s); [|by right].
    intros ->%list_elem_of_singleton. by left.
  - rewrite <- Hcaps. intros [_ ?]%list_elem_of_filter. by right.
Qed.

Lemma execute_move_Some (s : State) m s' :
  execute_move s m = Some s' →
  m ∈ get_available_moves s ∧
  match m with
  | PassMove => board s' = board s ∧ player s' = opponent (player s)
  | MotionMove r c r' c' _ kills =>
      board s' = apply_motion s r c r' c' kills ∧
      (player s' = player s ∨ player s' = opponent (player s))
  end.
Proof.
  unfold execute_move. case_decide as Hin; [|done].
  destruct m as [|r c r' c' kd kills].
  - intros [= <-]. by simpl.
  - destruct (_ && _); intros [= <-]; simpl; auto.
Qed.

Lemma occupied_apply_motion (s : State) r c r' c' kd kills :
  player s ≠ EMPTY →
  MotionMove r c r' c' kd kills ∈ candidates s →
  (occupied (apply_motion s r c r' c' kills) ≤ occupied (board s))%nat ∧
  (kills ≠ [] → (occupied (apply_motion s r c r' c' kills) < occupied (board s))%nat) ∧
  (kills = [] → occupied (apply_motion s r c r' c' kills) = occupied (board s)).
Proof.
  intros Hp (Horig & Hdest & Hkills)%candidates_motion.
  assert (Hne : (r, c) ≠ (r', c')) by (intros [= -> ->]; congruence).
  unfold apply_motion.
  set (b1 := set_cell (board s) r c EMPTY).
  set (b2 := set_cell b1 r' c' (player s)).
  assert (Hd1 : cell b1 r' c' = Some EMPTY) by (unfold b1; by rewrite cell_set_cell_ne).
  assert (H2 : occupied b2 = occupied (board s)).
  { pose proof (occupied_set_cell _ _ _ _ EMPTY Horig) as H1.
    pose proof (occupied_set_cell _ _ _ _ (player s) Hd1) as H2.
    fold b1 in H1. fold b2 in H2.
    repeat case_decide; simplify_eq; lia. }
  destruct kills as [|k kills].
  - simpl. split_and!; [lia|done|done].
  - assert (Hk : cell (board s) k.1 k.2 = Some (opponent (player s)))
      by (apply Hkills; left).
    assert (Hopp : opponent (player s) ≠ EMPTY) by (by destruct (player s)).
    assert (Hk2 : cell b2 k.1 k.2 = Some (opponent (player s))).
    { unfold b2, b1.
      rewrite !cell_set_cell_ne; [done|..];
        intros [= Hr Hc]; rewrite <- Hr, <- Hc in Hk;
        destruct (player s); simplify_eq/=. }
    pose proof (occupied_set_cell _ _ _ _ EMPTY Hk2) as H3.
    pose proof (occupied_clear_all_le kills (set_cell b2 k.1 k.2 EMPTY)) as H4.
    simpl. repeat case_decide; simplify_eq.
    split_and!; [lia|intros _; lia|done].
Qed.

Lemma count_cells_total (b : Board) :
  (count_cells WHITE b + count_cells BLACK b + count_cells EMPTY b)%nat =
  length (concat b).
Proof.
  induction b as [|row b IH]; simpl; [done|].
  rewrite length_app, <- IH.
  assert (Hrow : (count_row WHITE row + count_row BLACK row + count_row EMPTY row)%nat
                 = length row).
  { unfold count_row. induction row as [|x row IHr]; [done|].
    rewrite !filter_cons. destruct x; repeat case_decide; simplify_eq; simpl; lia. }
  lia.
Qed.

Lemma rectangular_cells w h (b : Board) :
  rectangular w h b → Z.of_nat (length (concat b)) = w * h.
Proof.
  intros (Hw & Hh & Hlen & Hrows).
  assert (Hsum : length (concat b) = (length b * Z.to_nat w)%nat).
  { clear Hlen. induction Hrows as [|row b Hrow _ IH]; simpl; [done|].
    rewrite length_app. lia. }
  rewrite Hsum, Hlen. lia.
Qed.

Lemma rectangular_set_cell w h (b : Board) r c v :
  rectangular w h b → rectangular w h (set_cell b r c v).
Proof.
  intros (Hw & Hh & Hlen & Hrows). unfold set_cell.
  case_bool_decide; [|done].
  split_and!; [done..| |].
  - by rewrite length_alter.
  - apply Forall_alter; [done|]. intros row _ Hrow.
    by rewrite length_insert.
Qed.

Lemma rectangular_apply_motion w h (s : State) r c r' c' kills :
  rectangular w h (board s) → rectangular w h (apply_motion s r c r' c' kills).
Proof.
  intros Hb. unfold apply_motion.
  set (b2 := set_cell _ r' c' _).
  assert (H2 : rectangular w h b2) by (by do 2 apply rectangular_set_cell).
  clearbody b2. revert b2 H2.
  induction kills as [|k kills IH]; intros b2 H2; simpl; [done|].
  apply IH. by apply rectangular_set_cell.
Qed.

Lemma reachable_rectangular w h (s : State) :
  reachable w h s → rectangular w h (board s) ∧ player s ≠ EMPTY.
Proof.
  induction 1 as [b p Hb Hp|s m s' _ [IHb IHp] Hex]; [done|].
  apply execute_move_Some in Hex as [_ Hex].
  destruct m as [|r c r' c' kd kills].
  - destruct Hex as [-> ->]. split; [done|]. by destruct (player s).
  - destruct Hex as [-> Hpl]. split; [by apply rectangular_apply_motion|].
    destruct Hpl as [->| ->]; [done|]. by destruct (player s).
Qed.

(** C1: whenever the available-move set holds a capturing motion it holds no
    quiet motion and no Pass: captures are mandatory. *)
Theorem mandatory_capture (s : State) :
  (∃ m, m ∈ get_available_moves s ∧ is_capture m = true) →
  ∀ m', m' ∈ get_available_moves s → is_quiet m' = false ∧ m' ≠ PassMove.
Proof.
  intros (m & Hm & Hcap) m'. unfold get_available_moves in *.
  destruct (filter _ (candidates s)) as [|m0 caps] eqn:Hcaps.
  - exfalso. destruct (candidates s) as [|c0 cs] eqn:Hcands.
    + apply list_elem_of_singleton in Hm. by subst m.
    + assert (Hin : m ∈ filter (λ m, is_capture m = true) (c0 :: cs))
        by (by apply list_elem_of_filter).
      rewrite Hcaps in Hin. by apply elem_of_nil in Hin.
  - rewrite <- Hcaps. intros [Hcap' _]%list_elem_of_filter.
    destruct m' as [|? ? ? ? ? [|? ?]]; done.
Qed.

(** C2: in every state reached from an opening position on a [w] by [h]
    board the three cell counts add up to [w * h]; an applied move never
    raises the number of occupied cells, a capture lowers it, and a quiet
    motion or a pass leaves it as it was. *)
Theorem reachable_counts w h (s : State) :
  reachable w h s →
  Z.of_nat (count_cells WHITE (board s) + count_cells BLACK (board s)
            + count_cells EMPTY (board s)) = w * h ∧
  ∀ m s', execute_move s m = Some s' →
    (occupied (board s') ≤ occupied (board s))%nat ∧
    (is_capture m = true → (occupied (board s') < occupied (board s))%nat) ∧
    (is_capture m = false → occupied (board s') = occupied (board s)).
Proof.
  intros [Hrect Hp]%reachable_rectangular. split.
  - rewrite count_cells_total. by apply rectangular_cells.
  - intros m s' (Hin & Hex)%execute_move_Some.
    destruct m as [|r c r' c' kd kills].
    + destruct Hex as [-> _]. split_and!; [lia|done|done].
    + destruct Hex as [-> _].
      apply available_subset in Hin as [?|Hin]; [done|].
      destruct (occupied_apply_motion s r c r' c' kd kills Hp Hin) as (Hle & Hlt & Heq).
      split_and!; [done| |].
      * intros Hcap. apply Hlt. by destruct kills.
      * intros Hcap. apply Heq. by destruct kills.
Qed.

End RulesFacts.

(** ** The window *)

Module UIFacts.
Import UI UISpec.

Section WindowFacts.
Context `{Collaborators}.

Ltac prefix_solve :=
  solve [ by apply prefix_nil
        | done
        | by (eexists; simpl; reflexivity) ].

Lemma same_setup_refl g : same_setup g g.
Proof. by repeat split. Qed.

Lemma same_setup_trans g1 g2 g3 :
  same_setup g1 g2 → same_setup g2 g3 → same_setup g1 g3.
Proof. unfold same_setup. intros (?&?&?&?&?&?) (?&?&?&?&?&?). split_and!; congruence. Qed.

Lemma execute_human_move_calls g m s t r :
  game_state g = Some s →
  execute_human_move g m = (t, r) →
  t `prefix_of` human_calls g s m ∧
  r ≠ Exited ∧
  (∀ g', r = Ok g' →
     t = human_calls g s m ∧ same_setup g g' ∧ selected_moves g' = [] ∧
     ∃ s', execute_move s m = Some s' ∧ game_state g' = Some s').
Proof.
  intros Hs.
  unfold execute_human_move, human_calls, alg_update_move, apply_move, as_tree,
    set_alg, alg_of.
  rewrite Hs. simpl.
  destruct (bool_decide (player s = BLACK) && is_mcts (white_mode g));
    [|destruct (bool_decide (player s = WHITE) && is_mcts (black_mode g))];
    simpl.
  - destruct (white_alg g); simpl; try (intros [= <- <-]; split_and!; [prefix_solve|done|done]).
    rewrite Hs; simpl. destruct (execute_move s m) eqn:He; simpl; intros [= <- <-].
    + split_and!; [prefix_solve|done|]. intros g' [= <-].
      split_and!; [done|by repeat split|done|eauto].
    + split_and!; [prefix_solve|done|done].
  - destruct (black_alg g); simpl; try (intros [= <- <-]; split_and!; [prefix_solve|done|done]).
    rewrite Hs; simpl. destruct (execute_move s m) eqn:He; simpl; intros [= <- <-].
    + split_and!; [prefix_solve|done|]. intros g' [= <-].
      split_and!; [done|by repeat split|done|eauto].
    + split_and!; [prefix_solve|done|done].
  - rewrite Hs; simpl. destruct (execute_move s m) eqn:He; simpl; intros [= <- <-].
    + split_and!; [prefix_solve|done|]. intros g' [= <-].
      split_and!; [done|by repeat split|done|eauto].
    + split_and!; [prefix_solve|done|done].
Qed.

Lemma human_calls_updates g s m :
  is_human_turn g s = true →
  human_calls g s m = mcts_updates g s m ++ [CExecuteMove s m].
Proof.
  unfold is_human_turn, human_calls, mcts_updates, mcts_update, mode_of,
    get_current_npc, get_other_npc.
  intros Hh. f_equal.
  destruct (player s), (white_mode g) as [[]|], (black_mode g) as [[]|];
    simpl in *; try done.
Qed.

Lemma back_button_is_back g b : get_back_button g = Some b → is_back (action b).
Proof.
  unfold get_back_button. destruct (window_state g); simpl; intros [= <-]; done.
Qed.

Lemma back_pressed_run back x y a g :
  (∀ b, back = Some b → is_back (action b)) →
  back_pressed back x y = Some a →
  is_back a ∧ run_action a g = ([], Ok (back_target a g)).
Proof.
  intros Hback. unfold back_pressed. destruct back as [b|]; [|done].
  destruct (mouse_collision b x y); [|done]. intros [= <-].
  specialize (Hback b eq_refl). by destruct (action b).
Qed.

Lemma bind_ret {A B} (a : A) (f : A → Run B) : bind (ret a) f = f a.
Proof. unfold bind, ret. by destruct (f a). Qed.

Lemma bind_Ok {A B} (t : list Call) (a : A) (f : A → Run B) :
  bind (t, Ok a) f = ((t ++ (f a).1), (f a).2).
Proof. unfold bind. by destruct (f a). Qed.

Lemma bind_need {A B} (o : option A) (a : A) (f : A → Run B) :
  o = Some a → bind (need o) f = f a.
Proof. intros ->. apply bind_ret. Qed.

Lemma bind_need_None {A B} (o : option A) (f : A → Run B) :
  o = None → bind (need o) f = ([], Raised).
Proof. by intros ->. Qed.

Lemma bind_inv {A B} (m : Run A) (f : A → Run B) t r :
  bind m f = (t, r) →
  (∃ t1 a t2, m = (t1, Ok a) ∧ f a = (t2, r) ∧ t = t1 ++ t2)
  ∨ (m = (t, Exited) ∧ r = Exited)
  ∨ (m = (t, Raised) ∧ r = Raised).
Proof.
  unfold bind. destruct m as [t1 [a| |]].
  - destruct (f a) as [t2 r2] eqn:Hf. intros [= <- <-]. left. by exists t1, a, t2.
  - intros [= <- <-]. auto.
  - intros [= <- <-]. auto.
Qed.

Ltac run_need :=
  match goal with
  | |- context [bind (need ?o) _] =>
      destruct o eqn:?;
      [rewrite (bind_need _ _ _ eq_refl)|rewrite (bind_need_None _ _ eq_refl)]
  end.

Lemma kill_click_calls ms row col g s t r :
  game_state g = Some s →
  kill_click ms row col g = (t, r) →
  ∃ full, human_shape g s full ∧ t `prefix_of` full ∧ r ≠ Exited ∧
    ∀ o, r = Ok o →
      t = full ∧
      match o with
      | None => t = []
      | Some g' => same_setup g g' ∧ is_Some (game_state g')
      end.
Proof.
  intros Hs. revert t r. induction ms as [|m ms IH]; intros t r; simpl.
  - intros [= <- <-]. exists []. split_and!; [by left|done|done|]. by intros o [= <-].
  - run_need.
    2:{ intros [= <- <-]. exists []. split_and!; [by left|done|done|done]. }
    case_decide as Hrc; [|apply IH].
    intros Hb. apply bind_inv in Hb as [(t1 & g1 & t2 & He & Hr & ->)|[[He ->]|[He ->]]].
    + destruct (execute_human_move_calls _ _ _ _ _ Hs He) as (Hp & _ & Hok).
      destruct (Hok g1 eq_refl) as (-> & Hsame & _ & s' & _ & Hs').
      injection Hr as <- <-. exists (human_calls g s m).
      split_and!; [right; eauto|by rewrite app_nil_r|done|].
      intros o [= <-]. rewrite app_nil_r. split; [done|]. simpl. split; [|by rewrite Hs'].
      destruct Hsame as (?&?&?&?&?&?). by repeat split.
    + by destruct (execute_human_move_calls _ _ _ _ _ Hs He) as (_ & ? & _).
    + destruct (execute_human_move_calls _ _ _ _ _ Hs He) as (Hp & _ & _).
      exists (human_calls g s m). split_and!; [right; eauto|done|done|done].
Qed.

Lemma human_events_calls back evs g s t r :
  (∀ b, back = Some b → is_back (action b)) →
  game_state g = Some s →
  human_events back evs g = (t, r) →
  ∃ full, human_shape g s full ∧ t `prefix_of` full ∧
    ∀ g', r = Ok g' → t = full ∧ after_frame g g'.
Proof.
  intros Hback. revert g t r.
  induction evs as [|ev evs IH]; intros g t r Hs; simpl.
  { intros [= <- <-]. exists []. split_and!; [by left|done|].
    intros g' [= <-]. split; [done|]. left. split; [apply same_setup_refl|by rewrite Hs]. }
  destruct ev as [| |x y|].
  - intros [= <- <-]. exists []. split_and!; [by left|done|done].
  - run_need.
    2:{ intros [= <- <-]. exists []. split_and!; [by left|done|done]. }
    case_decide; [|by apply IH].
    intros He. destruct (execute_human_move_calls _ _ _ _ _ Hs He) as (Hp & _ & Hok).
    exists (human_calls g s PassMove). split_and!; [right; eauto|done|].
    intros g' ->. destruct (Hok g' eq_refl) as (-> & Hsame & _ & s' & _ & Hs').
    split; [done|]. left. split; [done|by rewrite Hs'].
  - destruct (back_pressed back x y) as [a|] eqn:Hbp.
    { destruct (back_pressed_run _ _ _ _ g Hback Hbp) as [Ha ->].
      intros [= <- <-]. exists []. split_and!; [by left|done|].
      intros g' [= <-]. split; [done|]. right. exists a, g.
      split_and!; [done|apply same_setup_refl|by rewrite Hs|done]. }
    rewrite (bind_need _ _ _ Hs).
    run_need.
    2:{ intros [= <- <-]. exists []. split_and!; [by left|done|done]. }
    case_decide as Hv.
    { intros Hrec. apply IH in Hrec as (full & Hsh & Hp & Hok); [|done].
      exists full. split_and!; [done..|]. intros g' Hr. destruct (Hok g' Hr) as [-> Haf].
      split; [done|]. destruct Haf as [[Hsame ?]|(a & g1 & ? & Hsame & ? & ->)];
        [left|right; exists a, g1]; split_and!; try done;
        (eapply same_setup_trans; [|exact Hsame]); by repeat split. }
    case_decide as Hv'.
    + run_need.
      2:{ intros [= <- <-]. exists []. split_and!; [by left|done|done]. }
      simpl. generalize (filter (λ m, selects g (y `div` 70) (x `div` 70) m = true) l).
      intros sel. set (g1 := set_selected_moves sel g).
      assert (Hs1 : game_state g1 = Some s) by done.
      assert (Hsame1 : same_setup g g1) by (by repeat split).
      destruct sel as [|m [|m' sel]].
      2:{ intros He. destruct (execute_human_move_calls _ _ _ _ _ Hs1 He) as (Hp & _ & Hok).
          exists (human_calls g s m). split_and!; [right; eauto|done|].
          intros g' ->. destruct (Hok g' eq_refl) as (-> & Hsame & _ & s' & _ & Hs').
          split; [done|]. left. split; [|by rewrite Hs'].
          by eapply same_setup_trans. }
      all: intros Hrec; apply IH in Hrec as (full & Hsh & Hp & Hok); [|done];
        exists full; (split_and!; [done..|]); intros g' Hr;
        destruct (Hok g' Hr) as [-> Haf]; (split; [done|]);
        destruct Haf as [[Hsame ?]|(a & g2 & ? & Hsame & ? & ->)];
        [left|right; exists a, g2]; split_and!; try done;
        by eapply same_setup_trans.
    + intros Hb. apply bind_inv in Hb as [(t1 & o & t2 & Hk & Hr & ->)|[[Hk ->]|[Hk ->]]].
      * destruct (kill_click_calls _ _ _ _ _ _ _ Hs Hk) as (full & Hsh & Hp & _ & Hok).
        destruct (Hok o eq_refl) as [-> Ho]. destruct o as [g1|].
        -- injection Hr as <- <-. exists full. rewrite app_nil_r.
           split_and!; [done..|]. intros g' [= <-]. split; [done|]. by left.
        -- subst full. simpl. by apply IH.
      * by destruct (kill_click_calls _ _ _ _ _ _ _ Hs Hk) as (? & _ & _ & ? & _).
      * destruct (kill_click_calls _ _ _ _ _ _ _ Hs Hk) as (full & Hsh & Hp & _ & _).
        exists full. split_and!; done.
  - by apply IH.
Qed.

Lemma alg_update_move_run side m g :
  alg_update_move side m g =
  match alg_of g side with
  | MctsAlg tree =>
      ([CUpdateMove side m], Ok (set_alg side (MctsAlg (update_move tree m)) g))
  | _ => ([], Raised)
  end.
Proof. unfold alg_update_move, as_tree. by destruct (alg_of g side). Qed.

Lemma alg_train_until_run seed side n g :
  alg_train_until seed side n g =
  match alg_of g side with
  | MctsAlg tree =>
      ([CTrainUntil side n], Ok (set_alg side (MctsAlg (train_until seed tree n)) g))
  | _ => ([], Raised)
  end.
Proof. unfold alg_train_until, as_tree. by destruct (alg_of g side). Qed.

Lemma alg_get_best_move_run side g :
  alg_get_best_move side g =
  match alg_of g side with
  | MctsAlg tree =>
      ([CGetBestMove side],
       match get_best_move tree with Some m => Ok m | None => Raised end)
  | _ => ([], Raised)
  end.
Proof.
  unfold alg_get_best_move, as_tree.
  destruct (alg_of g side) as [| | |tree]; try done.
  simpl. by destruct (get_best_move tree).
Qed.

Lemma alg_call_run seed side s g :
  alg_call seed side s g =
  match alg_of g side with
  | RandomAlg | MinimaxAlg _ _ =>
      ([CAlg side s],
       match alg_answer seed (alg_of g side) s with Some m => Ok m | None => Raised end)
  | _ => ([], Raised)
  end.
Proof.
  unfold alg_call, alg_answer.
  destruct (alg_of g side) as [| |h d|tree]; try done; simpl.
  - by destruct (get_random_move seed s).
  - by destruct (get_minimax_move h d s).
Qed.

Lemma apply_move_run m g s :
  game_state g = Some s →
  apply_move m g =
  ([CExecuteMove s m],
   match execute_move s m with
   | Some s' => Ok (set_game_state (Some s') g)
   | None => Raised
   end).
Proof.
  intros Hs. unfold apply_move. rewrite (bind_need _ _ _ Hs). simpl.
  by destruct (execute_move s m).
Qed.

Lemma train_mcts_run seed mode side g :
  is_mcts mode = true →
  ∃ n, mcts_budget mode = Some n ∧ train_mcts seed mode side g = alg_train_until seed side n g.
Proof. destruct mode as [[]|]; try done; simpl; eauto. Qed.

Lemma alg_of_set_alg side a g : alg_of (set_alg side a g) side = a.
Proof. unfold alg_of, set_alg. by destruct (decide (side = WHITE)). Qed.

Lemma game_state_set_alg side a g : game_state (set_alg side a g) = game_state g.
Proof. unfold set_alg. by destruct (decide (side = WHITE)). Qed.

Lemma same_setup_set_alg side a g : same_setup g (set_alg side a g).
Proof. unfold set_alg. destruct (decide (side = WHITE)); by repeat split. Qed.

Lemma mode_of_same g g' side : same_setup g g' → mode_of g' side = mode_of g side.
Proof. intros (?&?&?&?&?&?). unfold mode_of. by case_decide. Qed.

Lemma npc_events_calls back side seed evs g s t r :
  (∀ b, back = Some b → is_back (action b)) →
  game_state g = Some s →
  npc_events back side seed evs g = (t, r) →
  ∃ om full, npc_calls g s side om full ∧ t `prefix_of` full ∧
    ∀ l, r = Ok l →
      t = full ∧
      match l with
      | NpcReturned g' => om = None ∧ ∃ a, is_back a ∧ g' = back_target a g
      | NpcFinished g' om' =>
          om' = om ∧ same_setup g g' ∧ is_Some (game_state g') ∧
          ∀ m, om = Some m →
               is_minimax (mode_of g side) || is_random (mode_of g side) = true →
               alg_answer seed (alg_of g side) s = Some m
      end.
Proof.
  intros Hback Hs. revert t r.
  induction evs as [|ev evs IH]; intros t r; simpl.
  { intros [= <- <-]. exists None, []. split_and!; [done..|].
    intros l [= <-]. split_and!; [done..|apply same_setup_refl|by rewrite Hs|done]. }
  destruct ev as [| |x y|]; [| | |apply IH].
  - intros [= <- <-]. by exists None, [].
  - destruct (is_minimax (mode_of g side) || is_random (mode_of g side)) eqn:Hfun.
    + rewrite (bind_need _ _ _ Hs), alg_call_run.
      destruct (alg_of g side) as [| |h d|tree] eqn:Halg;
        try (intros [= <- <-]; by exists None, []).
      all: destruct (alg_answer _ _ s) as [m|] eqn:Hans; simpl;
        [|intros [= <- <-]; exists (Some PassMove), [CAlg side s; CExecuteMove s PassMove];
          split_and!; [by left|prefix_solve|done]].
      all: rewrite (apply_move_run _ _ _ Hs).
      all: destruct (execute_move s m) as [s'|] eqn:Hex; simpl; intros [= <- <-];
        exists (Some m), [CAlg side s; CExecuteMove s m];
        (split_and!; [by left|prefix_solve|]); [|done].
      all: intros l [= <-]; split_and!; [done..|by repeat split|done|by intros ? [= <-]].
    + destruct (is_mcts (mode_of g side)) eqn:Hmcts; [|apply IH].
      destruct (train_mcts_run seed _ side g Hmcts) as (n & Hn & ->).
      rewrite alg_train_until_run.
      destruct (alg_of g side) as [| | |tree] eqn:Halg;
        try (intros [= <- <-]; by exists None, []).
      rewrite bind_Ok, alg_get_best_move_run, alg_of_set_alg.
      set (full m := [CTrainUntil side n; CGetBestMove side; CExecuteMove s m;
                      CUpdateMove side m]).
      assert (Hshape : ∀ m, npc_calls g s side (Some m) (full m)).
      { intros m. right. split_and!; [done..|]. by exists n. }
      destruct (get_best_move _) as [m|] eqn:Hbest.
      2:{ intros [= <- <-]. exists (Some PassMove), (full PassMove).
          split_and!; [done|prefix_solve|done]. }
      rewrite bind_Ok, (apply_move_run _ _ s) by (by rewrite game_state_set_alg).
      destruct (execute_move s m) as [s'|] eqn:Hex.
      2:{ intros [= <- <-]. exists (Some m), (full m).
          split_and!; [done|prefix_solve|done]. }
      rewrite bind_Ok, alg_update_move_run.
      assert (Ha : alg_of (set_game_state (Some s')
                     (set_alg side (MctsAlg (train_until seed tree n)) g)) side
                   = MctsAlg (train_until seed tree n)).
      { unfold alg_of, set_alg. by destruct (decide (side = WHITE)). }
      rewrite Ha. simpl. intros [= <- <-]. exists (Some m), (full m).
      split_and!; [done|done|]. intros l [= <-]. split_and!; [done..| | |].
      * eapply same_setup_trans; [|apply same_setup_set_alg].
        eapply same_setup_trans; [apply same_setup_set_alg|]. by repeat split.
      * by rewrite game_state_set_alg.
      * intros ? _ ?. congruence.
  - destruct (back_pressed back x y) as [a|] eqn:Hbp; [|apply IH].
    destruct (back_pressed_run _ _ _ _ g Hback Hbp) as [Ha ->]. simpl.
    intros [= <- <-]. exists None, []. split_and!; [done..|].
    intros l [= <-]. split_and!; [done..|]. eauto.
Qed.

(** The move an automated team's loop ends with was accepted by
    [execute_move], whose result is the new state; the move of a team that
    holds a tree is what [get_best_move] answers on the tree trained with the
    budget of the team's mode. *)
Lemma npc_events_best_move back side seed evs g s t g' m :
  game_state g = Some s →
  npc_events back side seed evs g = (t, Ok (NpcFinished g' (Some m))) →
  (∃ s', execute_move s m = Some s' ∧ game_state g' = Some s') ∧
  (is_minimax (mode_of g side) || is_random (mode_of g side) = false →
   ∃ tree n, alg_of g side = MctsAlg tree ∧
             mcts_budget (mode_of g side) = Some n ∧
             get_best_move (train_until seed tree n) = Some m).
Proof.
  intros Hs. revert t.
  induction evs as [|ev evs IH]; intros t; cbn [npc_events]; [done|].
  destruct ev as [| |x y|]; [done| | |apply IH].
  - destruct (is_minimax (mode_of g side) || is_random (mode_of g side)) eqn:Hfun.
    + rewrite (bind_need _ _ _ Hs), alg_call_run.
      destruct (alg_of g side) as [| |h d|tree] eqn:Halg; try done.
      all: destruct (alg_answer _ _ s) as [m1|] eqn:Hans; simpl; [|done].
      all: rewrite (apply_move_run _ _ _ Hs).
      all: destruct (execute_move s m1) as [s'|] eqn:Hex; simpl; [|done].
      all: intros [= <- <- <-]; split; [by exists s'|done].
    + destruct (is_mcts (mode_of g side)) eqn:Hmcts; [|apply IH].
      destruct (train_mcts_run seed _ side g Hmcts) as (n & Hn & ->).
      rewrite alg_train_until_run.
      destruct (alg_of g side) as [| | |tree] eqn:Halg; try done.
      rewrite bind_Ok, alg_get_best_move_run, alg_of_set_alg.
      destruct (get_best_move _) as [m1|] eqn:Hbest; [|done].
      rewrite bind_Ok, (apply_move_run _ _ s) by (by rewrite game_state_set_alg).
      destruct (execute_move s m1) as [s'|] eqn:Hex; [|done].
      rewrite bind_Ok, alg_update_move_run.
      assert (Ha : alg_of (set_game_state (Some s')
                     (set_alg side (MctsAlg (train_until seed tree n)) g)) side
                   = MctsAlg (train_until seed tree n)).
      { unfold alg_of, set_alg. by destruct (decide (side = WHITE)). }
      rewrite Ha. simpl. intros [= <- <- <-]. split.
      * exists s'. split; [done|]. by rewrite game_state_set_alg.
      * intros _. by exists tree, n.
  - destruct (back_pressed back x y) as [a|] eqn:Hbp; [|apply IH].
    intros Hb. apply bind_inv in Hb as [(t1 & g1 & t2 & _ & Hret & _)|[[_ ?]|[_ ?]]];
      [|done..]. unfold ret in Hret. simplify_eq.
Qed.

Lemma draw_static_board_elements_silent g : silent (draw_static_board_elements g).
Proof.
  unfold silent, draw_static_board_elements.
  destruct (width g), (height g); simpl; auto.
Qed.

Lemma draw_pieces_silent g : silent (draw_pieces g).
Proof.
  unfold silent, draw_pieces.
  destruct (height g), (width g), (game_state g); simpl; auto.
  destruct (forallb _ _); auto.
Qed.

Lemma draw_selected_moves_silent ms s : silent (draw_selected_moves ms s).
Proof.
  unfold silent. induction ms as [|m ms IH]; simpl; [by left|].
  destruct (get_first_to_kill m) as [rc|]; simpl; [|by right].
  destruct (py_index2 _ _ _); simpl; [|by right].
  destruct IH as [-> | ->]; auto.
Qed.

Lemma change_canvas_size_silent w h : silent (change_canvas_size w h).
Proof. unfold silent, change_canvas_size. destruct w, h; simpl; auto. Qed.

Lemma is_human_turn_same g g' s :
  same_setup g g' → is_human_turn g' s = is_human_turn g s.
Proof. intros (?&?&?&?&Hw&Hb). unfold is_human_turn. by rewrite Hw, Hb. Qed.

Lemma mcts_updates_same g g' s m :
  same_setup g g' → mcts_updates g' s m = mcts_updates g s m.
Proof.
  intros Hsame. unfold mcts_updates, mcts_update. by rewrite !(mode_of_same g g').
Qed.

Lemma frame_calls_same g g' s full :
  same_setup g' g → frame_calls g s full → frame_calls g' s full.
Proof.
  intros Hsame Hfull.
  destruct Hfull as [|m Hh|m Hh Hf|m n Hh Hm Hn];
    rewrite ?(mcts_updates_same g' g) by done;
    rewrite ?(is_human_turn_same g' g) in * by done;
    rewrite ?(mode_of_same g' g) in * by done.
  - constructor.
  - by constructor.
  - by constructor.
  - by constructor.
Qed.

Lemma handle_human_moves_calls g evs s t r :
  game_state g = Some s →
  is_human_turn g s = true →
  handle_human_moves g evs = (t, r) →
  ∃ full, frame_calls g s full ∧ t `prefix_of` full ∧
    ∀ g', r = Ok g' → t = full ∧ after_frame g g'.
Proof.
  intros Hs Hh. unfold handle_human_moves.
  run_need; [|intros [= <- <-]; exists []; split_and!; [constructor|done|done]].
  rewrite (bind_need _ _ _ Hs).
  destruct (draw_selected_moves_silent (selected_moves g) s) as [-> | ->];
    [rewrite bind_ret|intros [= <- <-]; exists []; split_and!; [constructor|done|done]].
  destruct (human_events _ evs g) as [t' r'] eqn:Hev. simpl. intros [= <- <-].
  apply human_events_calls with (s := s) in Hev as (full & Hsh & Hp & Hok);
    [|apply back_button_is_back|done].
  exists full. split_and!; [|done..].
  destruct Hsh as [-> |[m ->]]; [constructor|].
  rewrite human_calls_updates by done. by constructor.
Qed.

(** The calls of one frame of [board]: a prefix of what [frame_calls] lists,
    and all of it when the frame runs to its end. *)
Lemma board_calls g evs seed s t r :
  game_state g = Some s →
  board g evs seed = (t, r) →
  ∃ full, frame_calls g s full ∧ t `prefix_of` full ∧
    ∀ g', r = Ok g' → t = full ∧ after_frame g g'.
Proof.
  intros Hs. unfold board.
  destruct (draw_static_board_elements_silent g) as [-> | ->];
    [rewrite bind_ret|intros [= <- <-]; exists []; split_and!; [constructor|done|done]].
  destruct (draw_pieces_silent g) as [-> | ->];
    [rewrite bind_ret|intros [= <- <-]; exists []; split_and!; [constructor|done|done]].
  rewrite (bind_need _ _ _ Hs). simpl.
  set (g0 := set_available_moves _ g).
  assert (Hs0 : game_state g0 = Some s) by done.
  assert (Hsame : same_setup g g0) by (by repeat split).
  assert (Hafter : ∀ g', after_frame g0 g' → after_frame g g').
  { intros g' [[? ?]|(a & g1 & ? & ? & ? & ->)]; [left|right; exists a, g1];
      split_and!; try done; by eapply same_setup_trans. }
  destruct (is_human_turn g0 s) eqn:Hh.
  { intros Hev. apply handle_human_moves_calls with (s := s) in Hev
      as (full & Hfull & Hp & Hok); [|done..].
    exists full. split_and!; [exact (frame_calls_same g0 g s _ Hsame Hfull)|done|].
    intros g' Hr. destruct (Hok g' Hr). auto. }
  intros Hb. apply bind_inv in Hb as [(t1 & l & t2 & Hev & Hrest & ->)|[[Hev ->]|[Hev ->]]].
  - apply npc_events_calls with (s := s) in Hev as (om & full & Hnpc & Hp & Hok);
      [|apply back_button_is_back|done].
    destruct (Hok l eq_refl) as [-> Hl]. destruct l as [g1|g1 om'].
    + destruct Hl as (-> & a & Ha & ->). injection Hrest as <- <-.
      simpl in Hnpc. subst full. exists []. split_and!; [constructor|done|].
      intros g' [= <-]. split; [done|]. apply Hafter. right. exists a, g0.
      split_and!; [done|apply same_setup_refl|by rewrite Hs0|done].
    + destruct Hl as (-> & Hsame1 & Hst1 & _). destruct om as [m|].
      2:{ injection Hrest as <- <-. simpl in Hnpc. subst full.
          exists []. split_and!; [constructor|done|].
          intros g' [= <-]. split; [done|]. apply Hafter. by left. }
      rewrite (mode_of_same g0 g1) in Hrest by done.
      assert (Hup : ∃ r2, (t2 `prefix_of` mcts_update g0 (get_other_npc s) m) ∧
                r = r2 ∧ ∀ g', r2 = Ok g' →
                  t2 = mcts_update g0 (get_other_npc s) m ∧
                  same_setup g1 g' ∧ is_Some (game_state g')).
      { unfold mcts_update. destruct (is_mcts (mode_of g0 (get_other_npc s))).
        - rewrite alg_update_move_run in Hrest.
          destruct (alg_of g1 (get_other_npc s));
            injection Hrest as <- <-; eexists; split_and!; try done; try prefix_solve.
          intros g' [= <-]. split_and!; [done|apply same_setup_set_alg|].
          by rewrite game_state_set_alg.
        - injection Hrest as <- <-. eexists; split_and!; try done.
          intros g' [= <-]. split_and!; [done|apply same_setup_refl|done]. }
      destruct Hup as (r2 & Hp2 & -> & Hok2).
      assert (Hfull : frame_calls g0 s (full ++ mcts_update g0 (get_other_npc s) m)).
      { destruct Hnpc as [[Hfun ->]|(Hfun & Hm & n & Hn & ->)].
        - replace (_ ++ _) with
            (CAlg (get_current_npc s) s :: CExecuteMove s m :: mcts_updates g0 s m).
          + by constructor.
          + unfold mcts_updates, mcts_update at 1.
            destruct (mode_of g0 (get_current_npc s)) as [[]|]; done.
        - replace (_ ++ _) with
            (CTrainUntil (get_current_npc s) n :: CGetBestMove (get_current_npc s)
               :: CExecuteMove s m :: mcts_updates g0 s m).
          + by constructor.
          + unfold mcts_updates, mcts_update at 1. by rewrite Hm. }
      exists (full ++ mcts_update g0 (get_other_npc s) m).
      split_and!; [exact (frame_calls_same g0 g s _ Hsame Hfull)| |].
      * by apply prefix_app.
      * intros g' Hr. destruct (Hok2 g' Hr) as (-> & Hsame2 & Hst2).
        split; [done|]. apply Hafter. left. split; [|done].
        by eapply same_setup_trans.
  - apply npc_events_calls with (s := s) in Hev as (om & full & Hnpc & Hp & Hok);
      [|apply back_button_is_back|done].
    destruct om as [m|]; simpl in Hnpc.
    + exists (full ++ mcts_update g0 (get_other_npc s) m). split_and!; [| |done].
      2:{ by apply prefix_app_r. }
      apply (frame_calls_same g0 g s _ Hsame).
      destruct Hnpc as [[Hfun ->]|(Hfun & Hm & n & Hn & ->)].
      * replace (_ ++ _) with
          (CAlg (get_current_npc s) s :: CExecuteMove s m :: mcts_updates g0 s m).
        -- by constructor.
        -- unfold mcts_updates, mcts_update at 1.
           destruct (mode_of g0 (get_current_npc s)) as [[]|]; done.
      * replace (_ ++ _) with
          (CTrainUntil (get_current_npc s) n :: CGetBestMove (get_current_npc s)
             :: CExecuteMove s m :: mcts_updates g0 s m).
        -- by constructor.
        -- unfold mcts_updates, mcts_update at 1. by rewrite Hm.
    + subst full. exists []. split_and!; [constructor|done|done].
  - apply npc_events_calls with (s := s) in Hev as (om & full & Hnpc & Hp & Hok);
      [|apply back_button_is_back|done].
    destruct om as [m|]; simpl in Hnpc.
    + exists (full ++ mcts_update g0 (get_other_npc s) m). split_and!; [| |done].
      2:{ by apply prefix_app_r. }
      apply (frame_calls_same g0 g s _ Hsame).
      destruct Hnpc as [[Hfun ->]|(Hfun & Hm & n & Hn & ->)].
      * replace (_ ++ _) with
          (CAlg (get_current_npc s) s :: CExecuteMove s m :: mcts_updates g0 s m).
        -- by constructor.
        -- unfold mcts_updates, mcts_update at 1.
           destruct (mode_of g0 (get_current_npc s)) as [[]|]; done.
      * replace (_ ++ _) with
          (CTrainUntil (get_current_npc s) n :: CGetBestMove (get_current_npc s)
             :: CExecuteMove s m :: mcts_updates g0 s m).
        -- by constructor.
        -- unfold mcts_updates, mcts_update at 1. by rewrite Hm.
    + subst full. exists []. split_and!; [constructor|done|done].
Qed.

(** *** The invariant *)

Lemma invariant_same g g' :
  invariant g → same_setup g g' → is_Some (game_state g') →
  window_state g ≠ GAME_OVER → invariant g'.
Proof.
  intros [Hsz Hst Hpl Hwin] (Hw & Hwd & Hh & Hwn & Hwm & Hbm) Hs Hng.
  split; rewrite ?Hw, ?Hwd, ?Hh, ?Hwn, ?Hbm; auto.
Qed.

Lemma back_target_invariant a g :
  is_back a → invariant g → window_state g ≠ BOARD_SIZE_SEL →
  invariant (back_target a g) ∧ window_state (back_target a g) ≠ GAME_OVER.
Proof.
  intros Ha [Hsz Hst Hpl Hwin] Hw.
  destruct a as [| |[]| |]; try done; simpl;
    (split; [split; simpl; try done; try (intros []; done); auto|done]).
Qed.

Lemma size_sel_buttons_supported b :
  b ∈ size_sel_buttons →
  ∃ col row, action b = SizeSelAction col row ∧
             MIN_SIZE ≤ col ≤ MAX_SIZE ∧ MIN_SIZE ≤ row ≤ MAX_SIZE.
Proof.
  unfold size_sel_buttons, py_range.
  intros (col & (row & Hb & Hrow)%list_elem_of_bind & Hcol)%list_elem_of_bind.
  apply list_elem_of_singleton in Hb as ->.
  apply elem_of_seqZ in Hrow, Hcol. exists col, row. simpl.
  unfold MIN_SIZE, MAX_SIZE in *. split_and!; [done|lia..].
Qed.

Lemma size_sel_invariant g evs t r :
  window_state g = BOARD_SIZE_SEL → invariant g →
  size_sel g evs = (t, r) →
  t = [] ∧ ∀ g', r = Ok g' → invariant g'.
Proof.
  intros Hw Hinv. unfold size_sel, get_back_button. rewrite Hw.
  revert t r. induction evs as [|ev evs IH]; intros t r; simpl.
  { intros [= <- <-]. split; [done|]. by intros g' [= <-]. }
  destruct ev as [| |x y|]; try apply IH.
  - by intros [= <- <-].
  - destruct (head _) as [b|] eqn:Hhead; [|apply IH].
    apply head_Some_elem_of, list_elem_of_filter in Hhead as [_ Hb].
    apply size_sel_buttons_supported in Hb as (col & row & -> & Hcol & Hrow).
    simpl. intros [= <- <-]. split; [done|]. intros g' [= <-].
    destruct Hinv as [Hsz Hst Hpl Hwin].
    split; simpl; try done; [|intros []; done].
    intros _. by exists col, row.
Qed.

Lemma game_over_invariant g evs t r :
  window_state g = GAME_OVER → invariant g →
  game_over g evs = (t, r) →
  t = [] ∧ ∀ g', r = Ok g' → invariant g'.
Proof.
  intros Hw Hinv. unfold game_over.
  run_need; [|by intros [= <- <-]].
  run_need; [|by intros [= <- <-]].
  assert (Hback : ∀ b, get_back_button g = Some b → is_back (action b))
    by apply back_button_is_back.
  revert Hback. generalize (get_back_button g). intros back Hback.
  revert t r. induction evs as [|ev evs IH]; intros t r; simpl.
  { intros [= <- <-]. split; [done|]. by intros g' [= <-]. }
  destruct ev as [| |x y|]; try apply IH.
  - by intros [= <- <-].
  - destruct (back_pressed back x y) as [a|] eqn:Hbp; [|apply IH].
    destruct (back_pressed_run _ _ _ _ g Hback Hbp) as [Ha ->].
    intros [= <- <-]. split; [done|]. intros g' [= <-].
    apply back_target_invariant; [done..|]. by rewrite Hw.
Qed.

Lemma mode_sel_button_action_invariant mode g t r :
  invariant g → window_state g ≠ BOARD_SIZE_SEL →
  window_state g ≠ PLAYING → window_state g ≠ GAME_OVER →
  mode_sel_button_action mode g = (t, r) →
  Forall setup_call t ∧ ∀ g', r = Ok g' → mode_step g g'.
Proof.
  intros Hinv Hw Hp Hg. unfold mode_sel_button_action.
  destruct Hinv as [Hsz Hst Hpl Hwin].
  destruct (Hsz Hw) as (w & h & Hwd & Hh & Hb).
  case_decide as Hw1.
  { intros [= <- <-]. split; [done|]. intros g' [= <-]. split; [done|].
    split; simpl; try done; try (intros [|]; congruence). }
  case_decide as Hw2.
  { simpl. rewrite Hwd, Hh. simpl. intros [= <- <-]. split.
    - repeat constructor. by exists w, h.
    - intros g' [= <-]. split; [done|].
      split; simpl; try done; try (intros [|]; congruence);
        try (intros _; by exists w, h). }
  intros [= <- <-]. split; [done|]. intros g' [= <-]. by split.
Qed.

Lemma mode_sel_buttons_modes :
  Forall (λ b, ∃ mode, action b = ModeSelAction mode) mode_sel_buttons.
Proof. unfold mode_sel_buttons. simpl. repeat constructor; simpl; eauto. Qed.

Lemma press_all_invariant buttons x y g t r :
  Forall (λ b, ∃ mode, action b = ModeSelAction mode) buttons →
  invariant g → window_state g ≠ BOARD_SIZE_SEL →
  window_state g ≠ PLAYING → window_state g ≠ GAME_OVER →
  press_all buttons x y g = (t, r) →
  Forall setup_call t ∧ r ≠ Exited ∧ ∀ g', r = Ok g' → mode_step g g'.
Proof.
  intros Hbs. revert g t r.
  induction Hbs as [|b bs [mode Hb] _ IH]; intros g t r Hinv Hw Hp Hg; simpl.
  { intros [= <- <-]. split_and!; [done..|]. intros g' [= <-]. by split. }
  destruct (mouse_collision b x y); [|by apply IH].
  rewrite Hb. simpl.
  intros Hbind. apply bind_inv in Hbind
    as [(t1 & g1 & t2 & Ha & Hrest & ->)|[[Ha ->]|[Ha ->]]].
  - apply mode_sel_button_action_invariant in Ha as [Ht1 Hok]; [|done..].
    destruct (Hok g1 eq_refl) as [Hw1 Hinv1].
    apply IH in Hrest as (Ht2 & Hne & Hok2); [|done|congruence..].
    split_and!; [by apply Forall_app|done|].
    intros g' Hr. destruct (Hok2 g' Hr) as [Hw2 Hinv2]. split; [congruence|done].
  - unfold mode_sel_button_action in Ha. repeat case_decide; simpl in Ha; try done.
    destruct (width _), (height _); simpl in Ha; done.
  - apply mode_sel_button_action_invariant in Ha as [Ht1 Hok]; done.
Qed.

Lemma choose_alg_invariant g mode p t r :
  supported (width g) (height g) →
  choose_alg g mode p = (t, r) → Forall setup_call t ∧ r ≠ Exited.
Proof.
  intros (w & h & Hw & Hh & Hb). unfold choose_alg.
  destruct mode; simpl; rewrite ?Hw, ?Hh; simpl; intros [= <- <-];
    (split; [|done]); repeat constructor; by exists w, h.
Qed.

Lemma mode_sel_events_invariant back evs g t r :
  (∀ b, back = Some b → is_back (action b)) →
  invariant g → window_state g ≠ BOARD_SIZE_SEL →
  window_state g ≠ PLAYING → window_state g ≠ GAME_OVER →
  mode_sel_events back evs g = (t, r) →
  Forall setup_call t ∧
  ∀ l, r = Ok l →
    match l with
    | Finished g' => mode_step g g'
    | Returned g' => invariant g' ∧ window_state g' ≠ GAME_OVER ∧ window_state g' ≠ PLAYING
    end.
Proof.
  intros Hback. revert g t r.
  induction evs as [|ev evs IH]; intros g t r Hinv Hw Hp Hg; cbn [mode_sel_events].
  { intros [= <- <-]. split; [done|]. intros l [= <-]. by split. }
  destruct ev as [| |x y|]; try (by apply IH).
  - by intros [= <- <-].
  - intros Hbind. apply bind_inv in Hbind
      as [(t1 & g1 & t2 & Ha & Hrest & ->)|[[Ha ->]|[Ha ->]]].
    + apply press_all_invariant in Ha as (Ht1 & _ & Hok);
        [|apply mode_sel_buttons_modes|done..].
      destruct (Hok g1 eq_refl) as [Hw1 Hinv1].
      destruct (back_pressed back x y) as [a|] eqn:Hbp.
      * destruct (back_pressed_run _ _ _ _ g1 Hback Hbp) as [Hba Hrun].
        rewrite Hrun in Hrest. simpl in Hrest. injection Hrest as <- <-.
        split; [by rewrite app_nil_r|]. intros l [= <-].
        destruct (back_target_invariant a g1) as [? ?]; [done|done|congruence|].
        split_and!; [done..|].
        destruct a as [| |[]| |]; done.
      * apply IH in Hrest as [Ht2 Hok2]; [|done|congruence..].
        split; [by apply Forall_app|]. intros l Hr. specialize (Hok2 l Hr).
        destruct l as [g'|g']; [|done].
        destruct Hok2 as [Hw2 Hinv2]. split; [congruence|done].
    + by apply press_all_invariant in Ha as (_ & ? & _);
        [|apply mode_sel_buttons_modes|done..].
    + apply press_all_invariant in Ha as (Ht1 & _ & _);
        [|apply mode_sel_buttons_modes|done..]. done.
Qed.

Lemma mode_sel_invariant g evs t r :
  window_state g = WHITE_MODE_SEL ∨ window_state g = BLACK_MODE_SEL →
  invariant g →
  mode_sel g evs = (t, r) →
  Forall setup_call t ∧ ∀ g', r = Ok g' → invariant g' ∧ window_state g' ≠ GAME_OVER.
Proof.
  intros Hw Hinv. unfold mode_sel.
  intros Hbind. apply bind_inv in Hbind
    as [(t1 & l & t2 & Hev & Hrest & ->)|[[Hev ->]|[Hev ->]]].
  2,3: apply mode_sel_events_invariant in Hev as [? _];
    [done|apply back_button_is_back|done|destruct Hw; congruence..].
  apply mode_sel_events_invariant in Hev as [Ht1 Hok];
    [|apply back_button_is_back|done|destruct Hw; congruence..].
  specialize (Hok l eq_refl). destruct l as [g1|g1].
  2:{ injection Hrest as <- <-. split; [by rewrite app_nil_r|].
      intros g' [= <-]. by destruct Hok as (? & ? & ?). }
  destruct Hok as [Hw1 Hinv1].
  assert (Hsz : supported (width g1) (height g1)).
  { apply Hinv1. destruct Hw; congruence. }
  unfold chosen_on in Hrest.
  destruct (decide (window_state g1 = WHITE_MODE_SEL)) as [Hw2|Hw2];
    [destruct (white_mode g1) as [wm|] eqn:Hwm|].
  - apply bind_inv in Hrest as [(t3 & alg & t4 & Hc & Hr & ->)|[[Hc ->]|[Hc ->]]].
    + apply choose_alg_invariant in Hc as [Ht3 _]; [|done].
      injection Hr as <- <-. split; [rewrite app_nil_r; by apply Forall_app|].
      intros g' [= <-]. split; [|done].
      destruct Hinv1 as [? Hst ? ?]. split; simpl; try done; try (intros [|]; done).
    + by apply choose_alg_invariant in Hc as [_ ?].
    + apply choose_alg_invariant in Hc as [Ht3 _]; [|done].
      split; [by apply Forall_app|done].
  - destruct (decide (window_state g1 = BLACK_MODE_SEL)); [congruence|].
    destruct (black_mode g1); injection Hrest as <- <-;
      (split; [by rewrite app_nil_r|]); intros g' [= <-]; (split; [done|destruct Hw; congruence]).
  - destruct (decide (window_state g1 = BLACK_MODE_SEL)) as [Hw3|Hw3].
    2:{ destruct (white_mode g1), (black_mode g1); injection Hrest as <- <-;
          (split; [by rewrite app_nil_r|]); intros g' [= <-]; (split; [done|destruct Hw; congruence]). }
    assert (Hrest' :
      match black_mode g1 with
      | Some bm =>
          bind (choose_alg g1 bm BLACK) (λ alg,
            let g'' := set_window_state PLAYING (set_black_alg alg g1) in
            bind (change_canvas_size (width g'') (height g'')) (λ _, ret g''))
      | None => ret g1
      end = (t2, r)) by (by destruct (white_mode g1)).
    clear Hrest. destruct (black_mode g1) as [bm|] eqn:Hbm.
    2:{ injection Hrest' as <- <-. split; [by rewrite app_nil_r|].
        intros g' [= <-]. split; [done|destruct Hw; congruence]. }
    apply bind_inv in Hrest' as [(t3 & alg & t4 & Hc & Hr & ->)|[[Hc ->]|[Hc ->]]].
    + apply choose_alg_invariant in Hc as [Ht3 _]; [|done].
      simpl in Hr.
      destruct (change_canvas_size_silent (width g1) (height g1)) as [Hcs|Hcs];
        rewrite Hcs in Hr; simpl in Hr; injection Hr as <- <-;
        (split; [rewrite app_nil_r; by apply Forall_app|]); [|done].
      intros g' [= <-]. split; [|done].
      destruct Hinv1 as [? Hst ? ?]. split; simpl; try done;
        try (intros _; by rewrite Hbm).
    + by apply choose_alg_invariant in Hc as [_ ?].
    + apply choose_alg_invariant in Hc as [Ht3 _]; [|done].
      split; [by apply Forall_app|done].
Qed.

(** *** One iteration of the main loop *)

Lemma mcts_updates_game g s m : Forall game_call (mcts_updates g s m).
Proof.
  unfold mcts_updates, mcts_update.
  apply Forall_app; split; case_match; repeat constructor.
Qed.

Lemma frame_calls_game g s full : frame_calls g s full → Forall game_call full.
Proof.
  pose proof (mcts_updates_game g s) as Hup.
  destruct 1; repeat first [done | apply Forall_cons; split | apply Forall_app; split
                                 | apply Forall_nil | apply Hup].
Qed.

Lemma prefix_Forall {A} (P : A → Prop) (l1 l2 : list A) :
  l1 `prefix_of` l2 → Forall P l2 → Forall P l1.
Proof. intros [k ->] Hall. by apply Forall_app in Hall as [? _]. Qed.

Lemma bind_call {B} (c : Call) (f : unit → Run B) :
  bind (call c) f = (c :: (f tt).1, (f tt).2).
Proof. unfold bind, call. by destruct (f tt). Qed.

Lemma invariant_playing_state g :
  invariant g → window_state g = PLAYING ∨ window_state g = GAME_OVER →
  is_Some (game_state g).
Proof. intros [_ Hst Hpl _] Hw. auto. Qed.

(** A playing iteration: one [check_winner] call on the current state, then
    either the move to the game-over screen or the calls of [board]. *)
Lemma play_iteration_playing g fr t r :
  invariant g → window_state g = PLAYING →
  play_iteration g fr = (t, r) →
  ∃ s t',
    game_state g = Some s ∧ t = CCheckWinner s :: t' ∧
    let g1 := set_winner (check_winner s) g in
    if decide (check_winner s ≠ EMPTY)
    then t' = [] ∧ r = Ok (set_window_state GAME_OVER g1)
    else board g1 (events fr) (seed fr) = (t', r) ∧
         ∃ full, frame_calls g1 s full ∧ t' `prefix_of` full ∧
                 ∀ g', r = Ok g' → t' = full ∧ after_frame g1 g'.
Proof.
  intros Hinv Hw. unfold play_iteration. rewrite Hw.
  destruct (invariant_playing_state g Hinv) as [s Hs]; [by left|].
  rewrite (bind_need _ _ _ Hs), bind_call. simpl.
  case_decide as Hwin; simpl in Hwin.
  - simpl. intros [= <- <-]. exists s, []. rewrite decide_True by exact Hwin. done.
  - destruct (board _ _ _) as [tb rb] eqn:Hb. simpl. intros [= <- <-].
    exists s, tb. rewrite decide_False by (by intros Hc). split_and!; [done..|].
    by apply board_calls with (s := s) in Hb.
Qed.

Lemma play_iteration_invariant g fr t r :
  invariant g → play_iteration g fr = (t, r) →
  (∀ w h, CState w h ∈ t → supported w h) ∧ (∀ g', r = Ok g' → invariant g').
Proof.
  intros Hinv Hrun. destruct (window_state g) eqn:Hw.
  - unfold play_iteration in Hrun. rewrite Hw in Hrun.
    apply size_sel_invariant in Hrun as [-> Hok]; [|done..].
    split; [|done]. by intros w h ?%elem_of_nil.
  - unfold play_iteration in Hrun. rewrite Hw in Hrun.
    apply mode_sel_invariant in Hrun as [Ht Hok]; [|rewrite Hw; auto|done].
    split; [|intros g' Hr; by apply Hok].
    intros w h Hin. by apply (proj1 (Forall_forall _ _) Ht) in Hin.
  - unfold play_iteration in Hrun. rewrite Hw in Hrun.
    apply mode_sel_invariant in Hrun as [Ht Hok]; [|rewrite Hw; auto|done].
    split; [|intros g' Hr; by apply Hok].
    intros w h Hin. by apply (proj1 (Forall_forall _ _) Ht) in Hin.
  - apply play_iteration_playing in Hrun as (s & t' & Hs & -> & Hrun); [|done..].
    simpl in Hrun.
    assert (Hinv1 : invariant (set_winner (check_winner s) g)).
    { destruct Hinv as [? ? ? ?]. split; simpl; try done. by rewrite Hw. }
    case_decide as Hwin.
    + destruct Hrun as [-> ->]. split.
      * intros w h [?|?%elem_of_nil]%elem_of_cons; done.
      * intros g' [= <-]. destruct Hinv1 as [Hsz ? Hpl ?].
        split; simpl; try done.
        -- intros _. apply Hsz. simpl. by rewrite Hw.
        -- intros _. apply Hpl. simpl. auto.
    + destruct Hrun as (_ & full & Hfull & Hp & Hok). split.
      * intros w h [?|Hin]%elem_of_cons; [done|].
        apply frame_calls_game in Hfull.
        apply (prefix_Forall _ _ _ Hp) in Hfull.
        by apply (proj1 (Forall_forall _ _) Hfull) in Hin.
      * intros g' Hr. destruct (Hok g' Hr) as [_ Haf].
        destruct Haf as [[Hsame Hst]|(a & g2 & Ha & Hsame & Hst & ->)].
        -- eapply invariant_same; [exact Hinv1|done..|]. simpl. by rewrite Hw.
        -- apply back_target_invariant; [done| |].
           ++ eapply invariant_same; [exact Hinv1|done..|]. simpl. by rewrite Hw.
           ++ destruct Hsame as (Hw2 & _). rewrite Hw2. simpl. by rewrite Hw.
  - unfold play_iteration in Hrun. rewrite Hw in Hrun.
    apply game_over_invariant in Hrun as [-> Hok]; [|done..].
    split; [|done]. by intros w h ?%elem_of_nil.
Qed.

Lemma init_invariant : invariant init.
Proof. split; simpl; try done; intros [|]; done. Qed.

Lemma reachable_invariant g : reachable g → invariant g.
Proof.
  induction 1 as [|g fr t g' _ IH Hrun]; [apply init_invariant|].
  by apply play_iteration_invariant in Hrun as [_ Hok]; [apply Hok|].
Qed.

Lemma play_reachable g frames t g' :
  reachable g → play g frames = (t, Ok g') → reachable g'.
Proof.
  revert g t. induction frames as [|fr frames IH]; intros g t Hg; simpl.
  { by intros [= <- <-]. }
  intros Hb. apply bind_inv in Hb as [(t1 & g1 & t2 & H1 & H2 & ->)|[[? ?]|[? ?]]];
    [|done..].
  eapply IH; [|exact H2]. by eapply reachable_step.
Qed.

Lemma played_reachable frames : reachable (played frames).
Proof.
  unfold played. destruct (play init frames) as [t [g| |]] eqn:Hp; simpl;
    try apply reachable_init.
  eapply play_reachable; [apply reachable_init|exact Hp].
Qed.

(** C7: in the playing state an iteration of the main loop asks
    [check_winner] exactly once, as its first call, and whenever the answer is
    not [EMPTY] the iteration ends there: the window is on the game-over
    screen and nothing else was called or changed in the game state. *)
Theorem check_winner_once_per_frame g fr t r :
  reachable g → window_state g = PLAYING →
  play_iteration g fr = (t, r) →
  ∃ s t',
    game_state g = Some s ∧ t = CCheckWinner s :: t' ∧
    (∀ s', CCheckWinner s' ∉ t') ∧
    (check_winner s ≠ EMPTY →
       t' = [] ∧
       ∃ g', r = Ok g' ∧ window_state g' = GAME_OVER ∧
             winner g' = check_winner s ∧ game_state g' = Some s).
Proof.
  intros Hg%reachable_invariant Hw Hrun.
  apply play_iteration_playing in Hrun as (s & t' & Hs & -> & Hrun); [|done..].
  exists s, t'. simpl in Hrun. split_and!; [done..| |].
  - case_decide as Hwin.
    + destruct Hrun as [-> _]. by intros s' ?%elem_of_nil.
    + destruct Hrun as (_ & full & Hfull & Hp & _). intros s' Hin.
      apply frame_calls_game in Hfull. apply (prefix_Forall _ _ _ Hp) in Hfull.
      by apply (proj1 (Forall_forall _ _) Hfull) in Hin.
  - intros Hwin. rewrite decide_True in Hrun by done. destruct Hrun as [-> ->].
    split; [done|]. eexists. split_and!; [done..|]. done.
Qed.

(** C10: whenever the window is on the game-over screen the stored winner is
    the white or the black side, so [get_winner_text] never answers with the
    draw text. *)
Theorem game_over_has_winner g :
  reachable g → window_state g = GAME_OVER →
  (winner g = WHITE ∨ winner g = BLACK) ∧
  (get_winner_text g).1 ≠ "Empate!"%string.
Proof.
  intros Hg%reachable_invariant Hw.
  pose proof (inv_winner g Hg Hw) as Hwin. unfold get_winner_text.
  destruct (winner g); [done|..]; (split; [auto|]); simpl; done.
Qed.

(** C5: the size buttons only carry sizes from 5 to 10; every configuration
    past the size screen holds such a width and height; and every call of
    the [State] constructor is made on such a pair. *)
Theorem board_size_supported g :
  reachable g →
  (∀ b, b ∈ size_sel_buttons →
        ∃ col row, action b = SizeSelAction col row ∧
                   5 ≤ col ≤ 10 ∧ 5 ≤ row ≤ 10) ∧
  (window_state g ≠ BOARD_SIZE_SEL → supported (width g) (height g)) ∧
  ∀ fr t r w h,
    play_iteration g fr = (t, r) → CState w h ∈ t →
    ∃ w' h', w = Some w' ∧ h = Some h' ∧ 5 ≤ w' ≤ 10 ∧ 5 ≤ h' ≤ 10.
Proof.
  intros Hg%reachable_invariant.
  split_and!; [apply size_sel_buttons_supported|apply Hg|].
  intros fr t r w h Hrun Hin.
  apply play_iteration_invariant in Hrun as [Hcalls _]; [|done].
  by apply Hcalls.
Qed.

(** *** The calls around a move *)

Lemma mcts_updates_elem g s m c :
  c ∈ mcts_updates g s m →
  ∃ side, c = CUpdateMove side m ∧ is_mcts (mode_of g side) = true.
Proof.
  unfold mcts_updates, mcts_update.
  intros [Hc|Hc]%elem_of_app; case_match eqn:Hm; try (by apply elem_of_nil in Hc);
    apply list_elem_of_singleton in Hc as ->; eauto.
Qed.

Lemma mcts_updates_complete g s m side :
  side = WHITE ∨ side = BLACK → is_mcts (mode_of g side) = true →
  CUpdateMove side m ∈ mcts_updates g s m.
Proof.
  unfold mcts_updates, mcts_update, get_current_npc, get_other_npc.
  intros [-> | ->] Hm; case_decide; rewrite ?Hm;
    apply elem_of_app; (left; by apply list_elem_of_singleton)
                       || (right; by apply list_elem_of_singleton).
Qed.

Lemma mcts_updates_NoDup g s m : NoDup (mcts_updates g s m).
Proof.
  unfold mcts_updates, mcts_update, get_current_npc, get_other_npc.
  case_decide; repeat case_match; simpl;
    repeat first [apply NoDup_nil_2 | apply NoDup_cons_2; [set_solver|]].
Qed.

Lemma execute_in_updates g s m s0 m0 : CExecuteMove s0 m0 ∉ mcts_updates g s m.
Proof. by intros (? & ? & _)%mcts_updates_elem. Qed.

Lemma board_no_state g evs seed :
  game_state g = None → ∃ r, board g evs seed = ([], r).
Proof.
  intros Hs. unfold board.
  destruct (draw_static_board_elements_silent g) as [-> | ->];
    [rewrite bind_ret|by eexists].
  destruct (draw_pieces_silent g) as [-> | ->]; [rewrite bind_ret|by eexists].
  rewrite Hs. by eexists.
Qed.

(** C3, amended: whenever a frame of [board] applies a move, it is applied
    to the state the frame starts with, and [update_move] is called with that
    move exactly once on the tree of each team whose mode is an MCTS one and
    on no other: right before [execute_move] when a human moved, right after
    it when an automated team moved. *)
Theorem update_move_around_applied_move g evs seed t g' s s0 m :
  game_state g = Some s →
  board g evs seed = (t, Ok g') →
  CExecuteMove s0 m ∈ t →
  s0 = s ∧
  (∀ side, CUpdateMove side m ∈ mcts_updates g s m ↔
           (side = WHITE ∨ side = BLACK) ∧ is_mcts (mode_of g side) = true) ∧
  NoDup (mcts_updates g s m) ∧
  if is_human_turn g s
  then t = mcts_updates g s m ++ [CExecuteMove s m]
  else ∃ pre,
      t = pre ++ CExecuteMove s m :: mcts_updates g s m ∧
      (pre = [CAlg (get_current_npc s) s]
       ∨ ∃ n, pre = [CTrainUntil (get_current_npc s) n;
                     CGetBestMove (get_current_npc s)]).
Proof.
  intros Hs Hrun Hin.
  apply board_calls with (s := s) in Hrun as (full & Hfull & _ & Hok); [|done].
  destruct (Hok g' eq_refl) as [-> _].
  assert (Hsides : ∀ m1 side, CUpdateMove side m1 ∈ mcts_updates g s m1 ↔
            (side = WHITE ∨ side = BLACK) ∧ is_mcts (mode_of g side) = true).
  { intros m1 side. split; [|intros [? ?]; by apply mcts_updates_complete].
    intros Hc. pose proof Hc as (side' & [= <-] & Hm)%mcts_updates_elem.
    split; [|done]. revert Hc.
    unfold mcts_updates, mcts_update, get_current_npc, get_other_npc.
    case_decide; repeat case_match; set_solver. }
  destruct Hfull as [|m1 Hh|m1 Hh Hf|m1 n Hh Hm Hn].
  - by apply elem_of_nil in Hin.
  - apply elem_of_app in Hin as [Hin|[= -> ->]%list_elem_of_singleton];
      [by apply execute_in_updates in Hin|].
    rewrite Hh. split_and!; [done|apply Hsides|apply mcts_updates_NoDup|done].
  - apply elem_of_cons in Hin as [?|Hin]; [done|].
    apply elem_of_cons in Hin as [[= -> ->]|Hin];
      [|by apply execute_in_updates in Hin].
    rewrite Hh. split_and!; [done|apply Hsides|apply mcts_updates_NoDup|].
    eexists. split; [|by left]. done.
  - do 2 (apply elem_of_cons in Hin as [?|Hin]; [done|]).
    apply elem_of_cons in Hin as [[= -> ->]|Hin];
      [|by apply execute_in_updates in Hin].
    rewrite Hh. split_and!; [done|apply Hsides|apply mcts_updates_NoDup|].
    eexists. split; [|right; by exists n]. done.
Qed.

Lemma board_answer g evs seed s t g' s0 m :
  game_state g = Some s →
  board g evs seed = (t, Ok g') →
  is_human_turn g s = false →
  is_minimax (mode_of g (get_current_npc s))
  || is_random (mode_of g (get_current_npc s)) = true →
  CExecuteMove s0 m ∈ t →
  alg_answer seed (alg_of g (get_current_npc s)) s = Some m.
Proof.
  intros Hs Hrun Hh Hf Hin. unfold board in Hrun.
  destruct (draw_static_board_elements_silent g) as [Hd|Hd]; rewrite Hd in Hrun;
    [rewrite bind_ret in Hrun|done].
  destruct (draw_pieces_silent g) as [Hd'|Hd']; rewrite Hd' in Hrun;
    [rewrite bind_ret in Hrun|done].
  rewrite (bind_need _ _ _ Hs) in Hrun. simpl in Hrun.
  set (g0 := set_available_moves _ g) in Hrun.
  change (is_human_turn g0 s) with (is_human_turn g s) in Hrun.
  rewrite Hh in Hrun.
  apply bind_inv in Hrun as [(t1 & l & t2 & Hev & Hrest & ->)|[[? ?]|[? ?]]];
    [|done..].
  apply npc_events_calls with (s := s) in Hev as (om & full & Hnpc & _ & Hok);
    [|apply back_button_is_back|done].
  destruct (Hok l eq_refl) as [-> Hl]. destruct l as [g1|g1 om'].
  { destruct Hl as (-> & _). injection Hrest as <- <-. simpl in Hnpc. subst full.
    by apply elem_of_nil in Hin. }
  destruct Hl as (-> & Hsame & _ & Hans). destruct om as [m1|].
  2:{ injection Hrest as <- <-. simpl in Hnpc. subst full.
      by apply elem_of_nil in Hin. }
  assert (m = m1) as ->.
  { assert (Ht2 : ∀ c, c ∈ t2 → c = CUpdateMove (get_other_npc s) m1).
    { destruct (is_mcts _); [|unfold ret in Hrest; simplify_eq; by intros c ?%elem_of_nil].
      rewrite alg_update_move_run in Hrest.
      destruct (alg_of g1 _); simplify_eq/=.
      intros c Hc. by apply list_elem_of_singleton in Hc. }
    apply elem_of_app in Hin as [Hin|Hin]; [|by apply Ht2 in Hin].
    destruct Hnpc as [[_ ->]|(Hnf & _)]; [|change (mode_of g0) with (mode_of g) in Hnf; congruence].
    set_solver. }
  by apply (Hans m1).
Qed.

(** The move of an automated team's frame is applied: [execute_move]
    accepted it and its result is the state the frame leaves; when the team
    holds a tree, the move is the tree's best move after training. *)
Lemma board_best_move g evs seed s t g' s0 m :
  game_state g = Some s →
  board g evs seed = (t, Ok g') →
  is_human_turn g s = false →
  CExecuteMove s0 m ∈ t →
  (∃ s', execute_move s m = Some s' ∧ game_state g' = Some s') ∧
  (is_minimax (mode_of g (get_current_npc s))
   || is_random (mode_of g (get_current_npc s)) = false →
   ∃ tree n, alg_of g (get_current_npc s) = MctsAlg tree ∧
             mcts_budget (mode_of g (get_current_npc s)) = Some n ∧
             get_best_move (train_until seed tree n) = Some m).
Proof.
  intros Hs Hrun Hh Hin. unfold board in Hrun.
  destruct (draw_static_board_elements_silent g) as [Hd|Hd]; rewrite Hd in Hrun;
    [rewrite bind_ret in Hrun|done].
  destruct (draw_pieces_silent g) as [Hd'|Hd']; rewrite Hd' in Hrun;
    [rewrite bind_ret in Hrun|done].
  rewrite (bind_need _ _ _ Hs) in Hrun. simpl in Hrun.
  set (g0 := set_available_moves _ g) in Hrun.
  change (is_human_turn g0 s) with (is_human_turn g s) in Hrun.
  rewrite Hh in Hrun.
  apply bind_inv in Hrun as [(t1 & l & t2 & Hev & Hrest & ->)|[[? ?]|[? ?]]];
    [|done..].
  pose proof Hev as Hrun0.
  apply npc_events_calls with (s := s) in Hev as (om & full & Hnpc & _ & Hok);
    [|apply back_button_is_back|done].
  destruct (Hok l eq_refl) as [-> Hl]. destruct l as [g1|g1 om'].
  { destruct Hl as (-> & _). injection Hrest as <- <-. simpl in Hnpc. subst full.
    by apply elem_of_nil in Hin. }
  destruct Hl as (-> & Hsame & _ & _). destruct om as [m1|].
  2:{ injection Hrest as <- <-. simpl in Hnpc. subst full.
      by apply elem_of_nil in Hin. }
  assert (Hstate : game_state g' = game_state g1).
  { destruct (is_mcts _); [|unfold ret in Hrest; by simplify_eq].
    rewrite alg_update_move_run in Hrest.
    destruct (alg_of g1 _); simplify_eq/=. apply game_state_set_alg. }
  assert (m = m1) as ->.
  { assert (Ht2 : ∀ c, c ∈ t2 → c = CUpdateMove (get_other_npc s) m1).
    { destruct (is_mcts _); [|unfold ret in Hrest; simplify_eq; by intros c ?%elem_of_nil].
      rewrite alg_update_move_run in Hrest.
      destruct (alg_of g1 _); simplify_eq/=.
      intros c Hc. by apply list_elem_of_singleton in Hc. }
    apply elem_of_app in Hin as [Hin|Hin]; [|by apply Ht2 in Hin].
    destruct Hnpc as [[_ ->]|(_ & _ & n & _ & ->)]; set_solver. }
  apply npc_events_best_move with (s := s) in Hrun0 as [(s' & Hex & Hg1) Hbest];
    [|done].
  split; [exists s'; split; [done|congruence]|exact Hbest].
Qed.

(** C4, amended: the move an automated team applies comes from one of two
    contracts, and in both it is applied: [execute_move] accepts it on the
    current state and the frame leaves the state it returns.  A random or
    minimax team's algorithm is called on the current state and the move is
    what it returns; an MCTS team's tree is never called on a state: it is
    trained with the budget of the mode, then asked [get_best_move()] with no
    argument, and the move is what the trained tree answers. *)
Theorem automated_move_contracts g evs seed t g' s s0 m :
  game_state g = Some s →
  board g evs seed = (t, Ok g') →
  is_human_turn g s = false →
  CExecuteMove s0 m ∈ t →
  let side := get_current_npc s in
  s0 = s ∧
  (∃ s', execute_move s m = Some s' ∧ game_state g' = Some s') ∧
  ((is_minimax (mode_of g side) || is_random (mode_of g side) = true ∧
    alg_answer seed (alg_of g side) s = Some m ∧
    ∃ post, t = CAlg side s :: CExecuteMove s m :: post)
   ∨ (is_mcts (mode_of g side) = true ∧
      (∀ side' s', CAlg side' s' ∉ t) ∧
      ∃ tree n post,
        alg_of g side = MctsAlg tree ∧
        mcts_budget (mode_of g side) = Some n ∧
        get_best_move (train_until seed tree n) = Some m ∧
        t = CTrainUntil side n :: CGetBestMove side
              :: CExecuteMove s m :: post)).
Proof.
  intros Hs Hrun Hh Hin side.
  destruct (board_best_move _ _ _ _ _ _ _ _ Hs Hrun Hh Hin) as [Happlied Hbest].
  pose proof Hrun as (full & Hfull & _ & Hok)%(board_calls _ _ _ s); [|done].
  destruct (Hok g' eq_refl) as [-> _].
  destruct Hfull as [|m1 Hh'|m1 _ Hf|m1 n _ Hm Hn].
  - by apply elem_of_nil in Hin.
  - congruence.
  - apply elem_of_cons in Hin as [?|Hin]; [done|].
    apply elem_of_cons in Hin as [[= -> ->]|Hin];
      [|by apply execute_in_updates in Hin].
    split_and!; [done|done|]. left. split_and!; [done| |by eexists].
    apply (board_answer g evs seed s _ g' s m1 Hs Hrun Hh Hf).
    apply list_elem_of_further, list_elem_of_here.
  - do 2 (apply elem_of_cons in Hin as [?|Hin]; [done|]).
    apply elem_of_cons in Hin as [[= -> ->]|Hin];
      [|by apply execute_in_updates in Hin].
    split_and!; [done|done|]. right. split_and!; [done| |].
    + intros side' s' Hc. do 3 (apply elem_of_cons in Hc as [?|Hc]; [done|]).
      by apply mcts_updates_elem in Hc as (? & ? & _).
    + destruct Hbest as (tree & n' & Halg & Hn' & Hmove).
      { revert Hm. destruct (mode_of g (get_current_npc s)) as [[]|]; done. }
      exists tree, n', (mcts_updates g s m1).
      split_and!; [done..|]. unfold side. congruence.
Qed.

(** C9: a frame of [board] calls [get_best_move] only right after one
    [train_until] on the same tree, the first call of the frame, whose budget
    is the one of the team's mode: 100 for MCTS_QUICK, 1000 for MCTS_BETTER,
    2000 for MCTS_HEURISTICS. *)
Theorem train_until_before_get_best_move g evs seed t r pre side post :
  board g evs seed = (t, r) →
  t = pre ++ CGetBestMove side :: post →
  ∃ n, pre = [CTrainUntil side n] ∧
       mcts_budget (mode_of g side) = Some n ∧
       (mode_of g side = Some MCTS_QUICK ∧ n = 100
        ∨ mode_of g side = Some MCTS_BETTER ∧ n = 1000
        ∨ mode_of g side = Some MCTS_HEURISTICS ∧ n = 2000).
Proof.
  intros Hrun Ht. destruct (game_state g) as [s|] eqn:Hs.
  2:{ destruct (board_no_state g evs seed Hs) as [r' Hr'].
      rewrite Hr' in Hrun. injection Hrun as <- <-. by destruct pre. }
  apply board_calls with (s := s) in Hrun as (full & Hfull & [k Hk] & _); [|done].
  subst t. rewrite <- app_assoc in Hk. simpl in Hk.
  assert (Hin : CGetBestMove side ∈ full)
    by (rewrite Hk; apply elem_of_app; right; left).
  assert (Hup : ∀ m, CGetBestMove side ∉ mcts_updates g s m).
  { intros m (? & ? & _)%mcts_updates_elem. done. }
  destruct Hfull as [|m1 Hh|m1 Hh Hf|m1 n Hh Hm Hn].
  - by apply elem_of_nil in Hin.
  - apply elem_of_app in Hin as [Hin|Hin%list_elem_of_singleton];
      [by apply Hup in Hin|done].
  - do 2 (apply elem_of_cons in Hin as [?|Hin]; [done|]). by apply Hup in Hin.
  - destruct pre as [|c1 [|c2 pre]]; simplify_eq/=.
    + exists n. split_and!; [done..|].
      destruct (mode_of g (get_current_npc s)) as [[]|]; simplify_eq/=; auto.
    + exfalso.
      match goal with
      | Heq : _ :: mcts_updates g s m1 = _ |- _ =>
          assert (Hbest : CGetBestMove side ∈ CExecuteMove s m1 :: mcts_updates g s m1)
            by (rewrite Heq; apply elem_of_app; right; left)
      end.
      apply elem_of_cons in Hbest as [?|Hbest]; [done|]. by apply Hup in Hbest.
Qed.


End WindowFacts.
End UIFacts.

(** ** Further properties of the window *)

Module UIMore.
Import UI UISpec UIProps UIFacts.

Section MoreFacts.
Context `{Collaborators}.

(** *** How a run ends *)

Lemma bind_result {A B} (m : Run A) (f : A → Run B) :
  (bind m f).2 = match m.2 with
                 | Ok a => (f a).2
                 | Exited => Exited
                 | Raised => Raised
                 end.
Proof. destruct m as [t [a| |]]; simpl; try done. by destruct (f a). Qed.

Lemma bind_trace {A B} (m : Run A) (f : A → Run B) :
  (bind m f).1 = m.1 ++ match m.2 with
                        | Ok a => (f a).1
                        | _ => []
                        end.
Proof.
  destruct m as [t [a| |]]; simpl; rewrite ?app_nil_r; try done.
  by destruct (f a).
Qed.

Lemma bind_not_exited {A B} (m : Run A) (f : A → Run B) :
  m.2 ≠ Exited → (∀ a, (f a).2 ≠ Exited) → (bind m f).2 ≠ Exited.
Proof.
  intros Hm Hf. rewrite bind_result. destruct m.2; [apply Hf|done|done].
Qed.

Lemma need_not_exited {A} (o : option A) : (need o).2 ≠ Exited.
Proof. by destruct o. Qed.

Lemma run_action_not_exited a g : (run_action a g).2 ≠ Exited.
Proof.
  destruct a; simpl; try done.
  unfold mode_sel_button_action.
  repeat case_decide; try done.
  repeat (apply bind_not_exited; [try done; apply need_not_exited|intros ?]).
  done.
Qed.

Ltac no_exit :=
  repeat first
    [ done
    | apply need_not_exited
    | apply run_action_not_exited
    | apply bind_not_exited; [|intros ?]
    | case_decide
    | case_match ].

Lemma choose_alg_not_exited g mode p : (choose_alg g mode p).2 ≠ Exited.
Proof. destruct mode; cbv [choose_alg]; no_exit. Qed.

Lemma press_all_not_exited buttons x y g : (press_all buttons x y g).2 ≠ Exited.
Proof.
  induction buttons as [|b bs IH] in g |- *; simpl; [done|].
  destruct (mouse_collision b x y); [|apply IH].
  apply bind_not_exited; [apply run_action_not_exited|intros ?; apply IH].
Qed.

Lemma alg_update_move_not_exited side m g : (alg_update_move side m g).2 ≠ Exited.
Proof. rewrite alg_update_move_run. by destruct (alg_of g side). Qed.

Lemma apply_move_not_exited m g : (apply_move m g).2 ≠ Exited.
Proof. unfold apply_move. no_exit. Qed.

Lemma execute_human_move_not_exited g m : (execute_human_move g m).2 ≠ Exited.
Proof.
  unfold execute_human_move.
  apply bind_not_exited; [apply need_not_exited|intros s].
  apply bind_not_exited.
  - repeat case_match; try done; apply alg_update_move_not_exited.
  - intros g1. apply bind_not_exited; [apply apply_move_not_exited|done].
Qed.

Lemma kill_click_not_exited ms row col g : (kill_click ms row col g).2 ≠ Exited.
Proof.
  induction ms as [|m ms IH]; simpl; [done|].
  apply bind_not_exited; [apply need_not_exited|intros rc].
  case_decide; [|apply IH].
  apply bind_not_exited; [apply execute_human_move_not_exited|done].
Qed.

Lemma size_sel_events_exit back evs g :
  (size_sel_events back evs g).2 = Exited → QUIT ∈ evs.
Proof.
  induction evs as [|e evs IH] in g |- *; cbn [size_sel_events]; [done|].
  destruct e; try (intros ?%IH; by apply list_elem_of_further).
  - intros _. apply list_elem_of_here.
  - repeat case_match; try (intros ?%IH; by apply list_elem_of_further);
      intros Hx; by apply run_action_not_exited in Hx.
Qed.

Lemma mode_sel_events_exit back evs g :
  (mode_sel_events back evs g).2 = Exited → QUIT ∈ evs.
Proof.
  induction evs as [|e evs IH] in g |- *; cbn [mode_sel_events]; [done|].
  destruct e; try (intros ?%IH; by apply list_elem_of_further).
  - intros _. apply list_elem_of_here.
  - rewrite bind_result.
    destruct (press_all mode_sel_buttons x y g).2 as [g1| |] eqn:Hp; try done.
    + destruct (back_pressed back x y).
      * rewrite bind_result. intros Hx.
        destruct (run_action a g1).2 eqn:Ha; try done.
        by apply run_action_not_exited in Ha.
      * intros ?%IH. by apply list_elem_of_further.
    + by apply press_all_not_exited in Hp.
Qed.

Lemma human_events_exit back evs g :
  (human_events back evs g).2 = Exited → QUIT ∈ evs.
Proof.
  induction evs as [|e evs IH] in g |- *; cbn [human_events]; [done|].
  destruct e; try (intros ?%IH; by apply list_elem_of_further).
  - intros _. apply list_elem_of_here.
  - rewrite bind_result. destruct (need (available_moves g)).2 eqn:Hn; try done.
    + case_decide.
      * intros Hx. by apply execute_human_move_not_exited in Hx.
      * intros ?%IH. by apply list_elem_of_further.
    + by apply need_not_exited in Hn.
  - destruct (back_pressed back x y).
    { intros Hx. by apply run_action_not_exited in Hx. }
    rewrite bind_result. destruct (need (game_state g)).2 as [s| |] eqn:Hs; try done;
      [|by apply need_not_exited in Hs].
    rewrite bind_result.
    destruct (need (py_index2 (get_board_matrix s) (y `div` 70) (x `div` 70))).2
      as [v| |] eqn:Hv; try done; [|by apply need_not_exited in Hv].
    case_decide; [intros ?%IH; by apply list_elem_of_further|].
    case_decide.
    + rewrite bind_result.
      destruct (need (available_moves g)).2 as [avail| |] eqn:Hav; try done;
        [|by apply need_not_exited in Hav].
      simpl. generalize (filter (λ m, selects g (y `div` 70) (x `div` 70) m = true) avail).
      intros [|m [|m' l]]; try (intros ?%IH; by apply list_elem_of_further).
      intros Hx. by apply execute_human_move_not_exited in Hx.
    + rewrite bind_result.
      destruct (kill_click (selected_moves g) (y `div` 70) (x `div` 70) g).2
        as [[g'|]| |] eqn:Hk; try done.
      * intros ?%IH. by apply list_elem_of_further.
      * by apply kill_click_not_exited in Hk.
Qed.

Lemma alg_call_not_exited seed side s g : (alg_call seed side s g).2 ≠ Exited.
Proof.
  rewrite alg_call_run. destruct (alg_of g side); simpl; try done; by case_match.
Qed.

Lemma alg_get_best_move_not_exited side g : (alg_get_best_move side g).2 ≠ Exited.
Proof.
  rewrite alg_get_best_move_run. destruct (alg_of g side); simpl; try done.
  by case_match.
Qed.

Lemma alg_train_until_not_exited seed side n g :
  (alg_train_until seed side n g).2 ≠ Exited.
Proof. rewrite alg_train_until_run. by destruct (alg_of g side). Qed.

Lemma train_mcts_not_exited seed mode side g :
  (train_mcts seed mode side g).2 ≠ Exited.
Proof.
  unfold train_mcts. repeat case_match; try done; apply alg_train_until_not_exited.
Qed.

Lemma npc_events_exit back side seed evs g :
  (npc_events back side seed evs g).2 = Exited → QUIT ∈ evs.
Proof.
  induction evs as [|e evs IH] in g |- *; cbn [npc_events]; [done|].
  destruct e; try (intros ?%IH; by apply list_elem_of_further).
  - intros _. apply list_elem_of_here.
  - case_match.
    { intros Hx. exfalso. revert Hx.
      apply bind_not_exited; [apply need_not_exited|intros s].
      apply bind_not_exited; [apply alg_call_not_exited|intros move].
      apply bind_not_exited; [apply apply_move_not_exited|done]. }
    case_match; [|intros ?%IH; by apply list_elem_of_further].
    intros Hx. exfalso. revert Hx.
    apply bind_not_exited; [apply train_mcts_not_exited|intros g1].
    apply bind_not_exited; [apply alg_get_best_move_not_exited|intros move].
    apply bind_not_exited; [apply apply_move_not_exited|intros g2].
    apply bind_not_exited; [apply alg_update_move_not_exited|done].
  - destruct (back_pressed back x y); [|intros ?%IH; by apply list_elem_of_further].
    intros Hx. exfalso. revert Hx.
    apply bind_not_exited; [apply run_action_not_exited|done].
Qed.

Lemma game_over_events_exit back evs g :
  (game_over_events back evs g).2 = Exited → QUIT ∈ evs.
Proof.
  induction evs as [|e evs IH] in g |- *; cbn [game_over_events]; [done|].
  destruct e; try (intros ?%IH; by apply list_elem_of_further).
  - intros _. apply list_elem_of_here.
  - destruct (back_pressed back x y); [|intros ?%IH; by apply list_elem_of_further].
    intros Hx. by apply run_action_not_exited in Hx.
Qed.

Lemma silent_not_exited (m : Run unit) : silent m → m.2 ≠ Exited.
Proof. by intros [->| ->]. Qed.

Lemma bind_exit {A B} (m : Run A) (f : A → Run B) :
  (bind m f).2 = Exited → m.2 ≠ Exited → ∃ a, m.2 = Ok a ∧ (f a).2 = Exited.
Proof.
  rewrite bind_result. destruct m.2 as [a| |]; try done. intros Hx _. by exists a.
Qed.

Lemma size_sel_exit g evs : (size_sel g evs).2 = Exited → QUIT ∈ evs.
Proof. apply size_sel_events_exit. Qed.

Lemma mode_sel_exit g evs : (mode_sel g evs).2 = Exited → QUIT ∈ evs.
Proof.
  unfold mode_sel. rewrite bind_result.
  destruct (mode_sel_events (get_back_button g) evs g).2 as [l| |] eqn:Hl; try done.
  - intros Hx. exfalso. revert Hx. destruct l as [g'|g']; [|done].
    repeat case_match; try done.
    + apply bind_not_exited; [apply choose_alg_not_exited|done].
    + apply bind_not_exited; [apply choose_alg_not_exited|intros alg].
      apply bind_not_exited; [|done].
      apply silent_not_exited, change_canvas_size_silent.
  - intros _. by apply mode_sel_events_exit in Hl.
Qed.

Lemma handle_human_moves_exit g evs :
  (handle_human_moves g evs).2 = Exited → QUIT ∈ evs.
Proof.
  unfold handle_human_moves.
  intros (avail & _ & Hx)%bind_exit; [|apply need_not_exited].
  apply bind_exit in Hx as (s & _ & Hx); [|apply need_not_exited].
  apply bind_exit in Hx as (? & _ & Hx);
    [|apply silent_not_exited, draw_selected_moves_silent].
  by apply human_events_exit in Hx.
Qed.

Lemma board_exit g evs seed : (board g evs seed).2 = Exited → QUIT ∈ evs.
Proof.
  unfold board.
  intros (? & _ & Hx)%bind_exit;
    [|apply silent_not_exited, draw_static_board_elements_silent].
  apply bind_exit in Hx as (? & _ & Hx);
    [|apply silent_not_exited, draw_pieces_silent].
  apply bind_exit in Hx as (s & _ & Hx); [|apply need_not_exited].
  case_match; [by apply handle_human_moves_exit in Hx|].
  rewrite bind_result in Hx.
  destruct (npc_events _ _ _ _ _).2 as [l| |] eqn:Hl; try done.
  - exfalso. revert Hx. destruct l as [g'|g' [move|]]; try done.
    case_match; [apply alg_update_move_not_exited|done].
  - by apply npc_events_exit in Hl.
Qed.

Lemma game_over_exit g evs : (game_over g evs).2 = Exited → QUIT ∈ evs.
Proof.
  unfold game_over.
  intros (? & _ & Hx)%bind_exit; [|apply need_not_exited].
  apply bind_exit in Hx as (? & _ & Hx); [|apply need_not_exited].
  by apply game_over_events_exit in Hx.
Qed.

(** The program ends by [exit()] only in a frame that holds a quit event:
    none of the screens, and none of the collaborators' failures, leads
    there. *)
Theorem exit_only_on_quit g fr t :
  play_iteration g fr = (t, Exited) → QUIT ∈ events fr.
Proof.
  intros Hrun. assert (Hx : (play_iteration g fr).2 = Exited) by by rewrite Hrun.
  clear Hrun. unfold play_iteration in Hx.
  destruct (window_state g).
  - by apply size_sel_exit in Hx.
  - by apply mode_sel_exit in Hx.
  - by apply mode_sel_exit in Hx.
  - apply bind_exit in Hx as (s & _ & Hx); [|apply need_not_exited].
    apply bind_exit in Hx as (? & _ & Hx); [|done].
    case_decide; [done|]. by apply board_exit in Hx.
  - by apply game_over_exit in Hx.
Qed.

(** *** What a frame of the playing screen does *)

Lemma reselect_refl g : reselect g g.
Proof. exists (selected_piece g), (selected_moves g). by destruct g. Qed.

Lemma reselect_trans g1 g2 g3 : reselect g1 g2 → reselect g2 g3 → reselect g1 g3.
Proof. intros (p & l & ->) (p' & l' & ->). by exists p', l'. Qed.

Lemma reselect_set g p l : reselect g (set_selected_moves l (set_selected_piece p g)).
Proof. by exists p, l. Qed.

Lemma reselect_set_moves g l : reselect g (set_selected_moves l g).
Proof. exists (selected_piece g), l. by destruct g. Qed.

Lemma reselect_fields g g1 :
  reselect g g1 →
  window_state g1 = window_state g ∧ width g1 = width g ∧ height g1 = height g ∧
  game_state g1 = game_state g ∧ winner g1 = winner g ∧
  white_mode g1 = white_mode g ∧ black_mode g1 = black_mode g ∧
  available_moves g1 = available_moves g ∧
  white_alg g1 = white_alg g ∧ black_alg g1 = black_alg g.
Proof. by intros (p & l & ->). Qed.

Lemma Run_eta {A} (m : Run A) : m = (m.1, m.2).
Proof. by destruct m. Qed.

Lemma bind_Ok_inv {A B} (m : Run A) (f : A → Run B) t b :
  bind m f = (t, Ok b) →
  ∃ t1 a t2, m = (t1, Ok a) ∧ f a = (t2, Ok b) ∧ t = t1 ++ t2.
Proof.
  intros [(t1 & a & t2 & ? & ? & ?)|[[? ?]|[? ?]]]%bind_inv; [|done..].
  by exists t1, a, t2.
Qed.

Lemma need_Ok_inv {A} (o : option A) t a : need o = (t, Ok a) → o = Some a ∧ t = [].
Proof. destruct o; [|done]. by intros [= <- <-]. Qed.

Lemma kill_click_effect ms row col g t o :
  kill_click ms row col g = (t, Ok o) →
  match o with
  | None => t = []
  | Some g' =>
      ∃ m g2, m ∈ ms ∧ get_first_to_kill m = Some (row, col) ∧
              execute_human_move g m = (t, Ok g2) ∧ g' = set_selected_moves [] g2
  end.
Proof.
  induction ms as [|m ms IH]; cbn [kill_click].
  { by intros [= <- <-]. }
  intros (t1 & rc & t2 & [Hrc ->]%need_Ok_inv & Hrest & ->)%bind_Ok_inv.
  simpl. case_decide as Heq.
  - apply bind_Ok_inv in Hrest as (t3 & g2 & t4 & Hex & [= <- <-] & ->).
    rewrite app_nil_r. exists m, g2. split_and!; try done.
    + apply list_elem_of_here.
    + by rewrite Hrc, Heq.
  - apply IH in Hrest. destruct o as [g'|]; [|done].
    destruct Hrest as (m' & g2 & ? & ? & ? & ?). exists m', g2.
    split_and!; try done. by apply list_elem_of_further.
Qed.

(** The event loop of a human turn, when it runs to its end: the selection
    may have changed, and then either nothing else happened, or a back
    button was pressed, or one move was executed. *)
Lemma human_events_effect back evs g t g' :
  human_events back evs g = (t, Ok g') →
  ∃ g1, reselect g g1 ∧
    ((t = [] ∧ g' = g1)
     ∨ (∃ x y a, MOUSEBUTTONDOWN x y ∈ evs ∧ back_pressed back x y = Some a ∧
                 run_action a g1 = (t, Ok g'))
     ∨ (∃ m g2, execute_human_move g1 m = (t, Ok g2) ∧ reselect g2 g' ∧
                (K_RETURN ∈ evs ∨ ∃ x y, MOUSEBUTTONDOWN x y ∈ evs))).
Proof.
  assert (Hlift : ∀ e evs g0 g1 t g',
    reselect g0 g1 →
    ((t = [] ∧ g' = g1)
     ∨ (∃ x y a, MOUSEBUTTONDOWN x y ∈ evs ∧ back_pressed back x y = Some a ∧
                 run_action a g1 = (t, Ok g'))
     ∨ (∃ m g2, execute_human_move g1 m = (t, Ok g2) ∧ reselect g2 g' ∧
                (K_RETURN ∈ evs ∨ ∃ x y, MOUSEBUTTONDOWN x y ∈ evs))) →
    ((t = [] ∧ g' = g1)
     ∨ (∃ x y a, MOUSEBUTTONDOWN x y ∈ e :: evs ∧ back_pressed back x y = Some a ∧
                 run_action a g1 = (t, Ok g'))
     ∨ (∃ m g2, execute_human_move g1 m = (t, Ok g2) ∧ reselect g2 g' ∧
                (K_RETURN ∈ e :: evs ∨ ∃ x y, MOUSEBUTTONDOWN x y ∈ e :: evs)))).
  { intros e evs0 g0 g1 t0 g0' _ [?|[(x & y & a & ? & ? & ?)|(m & g2 & ? & ? & Hin)]].
    - by left.
    - right; left. exists x, y, a. split_and!; try done. by apply list_elem_of_further.
    - right; right. exists m, g2. split_and!; try done.
      destruct Hin as [?|(x & y & ?)]; [left|right; exists x, y];
        by apply list_elem_of_further. }
  revert g t. induction evs as [|e evs IH]; intros g t; cbn [human_events].
  { intros [= <- <-]. exists g. split; [apply reselect_refl|by left]. }
  destruct e.
  - done.
  - intros (t1 & avail & t2 & [Hav ->]%need_Ok_inv & Hrest & ->)%bind_Ok_inv.
    simpl. case_decide.
    + exists g. split; [apply reselect_refl|]. right; right.
      exists PassMove, g'. split_and!; [done|apply reselect_refl|].
      left. apply list_elem_of_here.
    + apply IH in Hrest as (g1 & Hre & Hcase). exists g1. split; [done|].
      by eapply Hlift.
  - destruct (back_pressed back x y) as [a|] eqn:Hback.
    { intros Hrun. exists g. split; [apply reselect_refl|]. right; left.
      exists x, y, a. split_and!; try done. apply list_elem_of_here. }
    intros (t1 & s & t2 & [Hs ->]%need_Ok_inv & Hrest & ->)%bind_Ok_inv.
    apply bind_Ok_inv in Hrest as (t3 & v & t4 & [Hv ->]%need_Ok_inv & Hrest & ->).
    simpl. case_decide.
    { apply IH in Hrest as (g1 & Hre & Hcase). exists g1. split.
      - eapply reselect_trans; [apply reselect_set|done].
      - by eapply Hlift. }
    case_decide.
    + apply bind_Ok_inv in Hrest as (t5 & avail & t6 & [Hav ->]%need_Ok_inv & Hrest & ->).
      simpl. simpl in Hrest.
      remember (filter (λ m, selects g (y `div` 70) (x `div` 70) m = true) avail)
        as sel eqn:Hsel.
      destruct sel as [|m [|m' sel]].
      * apply IH in Hrest as (g1 & Hre & Hcase). exists g1. split.
        -- eapply reselect_trans; [apply reselect_set_moves|done].
        -- by eapply Hlift.
      * exists (set_selected_moves [m] g). split; [apply reselect_set_moves|].
        right; right. exists m, g'. split_and!; [done|apply reselect_refl|].
        right. exists x, y. apply list_elem_of_here.
      * apply IH in Hrest as (g1 & Hre & Hcase). exists g1. split.
        -- eapply reselect_trans; [apply reselect_set_moves|done].
        -- by eapply Hlift.
    + apply bind_Ok_inv in Hrest as (t5 & o & t6 & Hk & Hrest & ->).
      apply kill_click_effect in Hk. destruct o as [g2|].
      * destruct Hk as (m & g3 & Hm & Hfirst & Hex & ->).
        injection Hrest as <- <-. rewrite app_nil_r.
        exists g. split; [apply reselect_refl|]. right; right.
        exists m, g3. split_and!; [done|apply reselect_set_moves|].
        right. exists x, y. apply list_elem_of_here.
      * subst t5. simpl. apply IH in Hrest as (g1 & Hre & Hcase).
        exists g1. split; [done|]. by eapply Hlift.
  - intros Hrest. apply IH in Hrest as (g1 & Hre & Hcase).
    exists g1. split; [done|]. by eapply Hlift.
Qed.

Lemma same_kind_refl a : same_kind a a.
Proof. by left. Qed.

Lemma same_kind_trans a b c : same_kind a b → same_kind b c → same_kind a c.
Proof.
  intros [->|(t1 & t2 & -> & ->)] Hbc; [done|].
  destruct Hbc as [<-|(t3 & t4 & Hb & ->)]; right; eauto.
Qed.

Lemma keeps_refl g : keeps g g.
Proof. split_and!; [apply same_setup_refl|apply same_kind_refl..]. Qed.

Lemma keeps_trans g1 g2 g3 : keeps g1 g2 → keeps g2 g3 → keeps g1 g3.
Proof.
  intros (? & ? & ?) (? & ? & ?). split_and!.
  - by eapply same_setup_trans.
  - by eapply same_kind_trans.
  - by eapply same_kind_trans.
Qed.

Lemma reselect_keeps g g1 : reselect g g1 → keeps g g1.
Proof. intros (p & l & ->). split_and!; [done|by left..]. Qed.

Lemma refreshed_keeps g g1 : refreshed g g1 → keeps g g1.
Proof. intros (av & p & l & ->). split_and!; [done|by left..]. Qed.

Lemma keeps_set_game_state g o : keeps g (set_game_state o g).
Proof. split_and!; [done|by left..]. Qed.

Lemma keeps_set_tree g side tree tree' :
  alg_of g side = MctsAlg tree → keeps g (set_alg side (MctsAlg tree') g).
Proof.
  unfold alg_of, set_alg. case_decide; intros Ha.
  - split_and!; [done| |by left]. right. by exists tree, tree'.
  - split_and!; [done|by left|]. right. by exists tree, tree'.
Qed.

Lemma alg_update_move_effect side m g t g' :
  alg_update_move side m g = (t, Ok g') →
  keeps g g' ∧ game_state g' = game_state g.
Proof.
  rewrite alg_update_move_run. destruct (alg_of g side) eqn:Ha; try done.
  intros [= <- <-]. split; [by eapply keeps_set_tree|apply game_state_set_alg].
Qed.

Lemma alg_train_until_effect seed side n g t g' :
  alg_train_until seed side n g = (t, Ok g') →
  keeps g g' ∧ game_state g' = game_state g.
Proof.
  rewrite alg_train_until_run. destruct (alg_of g side) eqn:Ha; try done.
  intros [= <- <-]. split; [by eapply keeps_set_tree|apply game_state_set_alg].
Qed.

Lemma train_mcts_effect seed mode side g t g' :
  train_mcts seed mode side g = (t, Ok g') →
  keeps g g' ∧ game_state g' = game_state g.
Proof.
  unfold train_mcts. repeat case_match; try (by apply alg_train_until_effect);
    intros [= <- <-]; split; try done; apply keeps_refl.
Qed.

Lemma apply_move_effect m g t g' :
  apply_move m g = (t, Ok g') →
  ∃ s s', game_state g = Some s ∧ execute_move s m = Some s' ∧
          g' = set_game_state (Some s') g ∧ t = [CExecuteMove s m].
Proof.
  destruct (game_state g) as [s|] eqn:Hs.
  - rewrite (apply_move_run _ _ _ Hs). destruct (execute_move s m) as [s'|] eqn:He; [|done].
    intros [= <- <-]. by exists s, s'.
  - unfold apply_move. by rewrite (bind_need_None _ _ Hs).
Qed.

(** A human move that goes through: the state is the engine's answer, the
    selection is cleared, and nothing else of the window changes but the
    trees. *)
Lemma execute_human_move_effect g m t g' :
  execute_human_move g m = (t, Ok g') →
  ∃ s s', game_state g = Some s ∧ execute_move s m = Some s' ∧
          game_state g' = Some s' ∧ keeps g g' ∧
          selected_piece g' = None ∧ selected_moves g' = [] ∧
          CExecuteMove s m ∈ t.
Proof.
  unfold execute_human_move.
  intros (t1 & s & t2 & [Hs ->]%need_Ok_inv & Hrest & ->)%bind_Ok_inv.
  apply bind_Ok_inv in Hrest as (t3 & g1 & t4 & Hup & Hrest & ->).
  apply bind_Ok_inv in Hrest as (t5 & g2 & t6 & Hap & [= <- <-] & ->).
  assert (Hg1 : keeps g g1 ∧ game_state g1 = game_state g).
  { repeat case_match; try (by eapply alg_update_move_effect).
    all: injection Hup as <- <-; split; [apply keeps_refl|done]. }
  destruct Hg1 as [Hk Hgs].
  apply apply_move_effect in Hap as (s0 & s' & Hs0 & He & -> & ->).
  simpl in Hs0. rewrite Hgs, Hs in Hs0. injection Hs0 as <-.
  assert (keeps g (set_selected_piece None
                     (set_game_state (Some s') (set_selected_moves [] g1)))).
  { eapply keeps_trans; [done|]. split_and!; [done|by left..]. }
  exists s, s'. split_and!; try done.
  rewrite !elem_of_app, elem_of_cons. eauto.
Qed.

(** The event loop of an automated team, when it runs to its end. *)
Lemma npc_events_effect back side seed evs g t l :
  npc_events back side seed evs g = (t, Ok l) →
  match l with
  | NpcReturned g' =>
      ∃ x y a, MOUSEBUTTONDOWN x y ∈ evs ∧ back_pressed back x y = Some a ∧
               run_action a g = (t, Ok g')
  | NpcFinished g' None => t = [] ∧ g' = g
  | NpcFinished g' (Some move) =>
      K_RETURN ∈ evs ∧
      ∃ s s', game_state g = Some s ∧ execute_move s move = Some s' ∧
              game_state g' = Some s' ∧ keeps g g' ∧ CExecuteMove s move ∈ t
  end.
Proof.
  assert (Hlift : ∀ e evs t l,
    match l with
    | NpcReturned g' =>
        ∃ x y a, MOUSEBUTTONDOWN x y ∈ evs ∧ back_pressed back x y = Some a ∧
                 run_action a g = (t, Ok g')
    | NpcFinished g' None => t = [] ∧ g' = g
    | NpcFinished g' (Some move) =>
        K_RETURN ∈ evs ∧
        ∃ s s', game_state g = Some s ∧ execute_move s move = Some s' ∧
                game_state g' = Some s' ∧ keeps g g' ∧ CExecuteMove s move ∈ t
    end →
    match l with
    | NpcReturned g' =>
        ∃ x y a, MOUSEBUTTONDOWN x y ∈ e :: evs ∧ back_pressed back x y = Some a ∧
                 run_action a g = (t, Ok g')
    | NpcFinished g' None => t = [] ∧ g' = g
    | NpcFinished g' (Some move) =>
        K_RETURN ∈ e :: evs ∧
        ∃ s s', game_state g = Some s ∧ execute_move s move = Some s' ∧
                game_state g' = Some s' ∧ keeps g g' ∧ CExecuteMove s move ∈ t
    end).
  { intros e evs0 t0 [g'|g' [move|]]; [|intros [? ?]; split; [by apply list_elem_of_further|done]|done].
    intros (x & y & a & ? & ? & ?). exists x, y, a. split_and!; try done.
    by apply list_elem_of_further. }
  induction evs as [|e evs IH]; cbn [npc_events].
  { by intros [= <- <-]. }
  destruct e.
  - done.
  - destruct (is_minimax (mode_of g side) || is_random (mode_of g side)).
    { intros (t1 & s & t2 & [Hs ->]%need_Ok_inv & Hrest & ->)%bind_Ok_inv.
      apply bind_Ok_inv in Hrest as (t3 & move & t4 & Hcall & Hrest & ->).
      apply bind_Ok_inv in Hrest as (t5 & g1 & t6 & Hap & [= <- <-] & ->).
      apply apply_move_effect in Hap as (s0 & s' & Hs0 & He & -> & ->).
      rewrite Hs in Hs0. injection Hs0 as <-.
      split; [apply list_elem_of_here|]. exists s, s'.
      pose proof (keeps_set_game_state g (Some s')).
      split_and!; try done.
      rewrite !elem_of_app, elem_of_cons. eauto. }
    destruct (is_mcts (mode_of g side)); [|intros ?%IH; by apply Hlift].
    intros (t1 & g1 & t2 & Htr & Hrest & ->)%bind_Ok_inv.
    apply bind_Ok_inv in Hrest as (t3 & move & t4 & Hbest & Hrest & ->).
    apply bind_Ok_inv in Hrest as (t5 & g2 & t6 & Hap & Hrest & ->).
    apply bind_Ok_inv in Hrest as (t7 & g3 & t8 & Hup & [= <- <-] & ->).
    apply train_mcts_effect in Htr as [Hk1 Hgs1].
    apply apply_move_effect in Hap as (s & s' & Hs & He & -> & ->).
    apply alg_update_move_effect in Hup as [Hk3 Hgs3].
    assert (keeps g g3).
    { eapply keeps_trans; [done|].
      eapply keeps_trans; [apply keeps_set_game_state|done]. }
    split; [apply list_elem_of_here|]. exists s, s'. split_and!; try done.
    + by rewrite <- Hgs1.
    + rewrite !elem_of_app, elem_of_cons. eauto.
  - destruct (back_pressed back x y) as [a|] eqn:Hback; [|intros ?%IH; by apply Hlift].
    intros (t1 & g' & t2 & Hact & [= <- <-] & ->)%bind_Ok_inv. rewrite app_nil_r.
    exists x, y, a. split_and!; try done. apply list_elem_of_here.
  - intros ?%IH. by apply Hlift.
Qed.

Lemma refreshed_reselect g g1 g2 : refreshed g g1 → reselect g1 g2 → refreshed g g2.
Proof. intros (av & p & l & ->) (p' & l' & ->). by exists av, p', l'. Qed.

Lemma refreshed_set_available_moves g av : refreshed g (set_available_moves av g).
Proof.
  exists av, (selected_piece g), (selected_moves g). by destruct g.
Qed.

Lemma refreshed_fields g g1 :
  refreshed g g1 →
  window_state g1 = window_state g ∧ width g1 = width g ∧ height g1 = height g ∧
  game_state g1 = game_state g ∧ winner g1 = winner g ∧
  white_mode g1 = white_mode g ∧ black_mode g1 = black_mode g ∧
  white_alg g1 = white_alg g ∧ black_alg g1 = black_alg g.
Proof. by intros (av & p & l & ->). Qed.

Lemma silent_Ok_inv (m : Run unit) t u : silent m → m = (t, Ok u) → t = [].
Proof. by intros [->| ->] [= <-]. Qed.

(** A frame of [board] that runs to its end: apart from the selection and
    the refreshed available moves, either nothing happened, or a back button
    was pressed, or one move was executed on the state of the frame. *)
Lemma board_effect g evs seed s t g' :
  game_state g = Some s →
  board g evs seed = (t, Ok g') →
  (∃ g1, refreshed g g1 ∧ t = [] ∧ g' = g1)
  ∨ (∃ g1 x y a, refreshed g g1 ∧ MOUSEBUTTONDOWN x y ∈ evs ∧
                 back_pressed (get_back_button g) x y = Some a ∧
                 run_action a g1 = (t, Ok g'))
  ∨ (∃ m s', execute_move s m = Some s' ∧ game_state g' = Some s' ∧
             keeps g g' ∧ CExecuteMove s m ∈ t ∧
             if is_human_turn g s
             then K_RETURN ∈ evs ∨ ∃ x y, MOUSEBUTTONDOWN x y ∈ evs
             else K_RETURN ∈ evs).
Proof.
  intros Hs. unfold board.
  intros (t1 & u1 & t2 & Hd1 & Hrest & ->)%bind_Ok_inv.
  apply silent_Ok_inv in Hd1 as ->; [|apply draw_static_board_elements_silent].
  apply bind_Ok_inv in Hrest as (t3 & u2 & t4 & Hd2 & Hrest & ->).
  apply silent_Ok_inv in Hd2 as ->; [|apply draw_pieces_silent].
  rewrite (bind_need _ _ _ Hs) in Hrest. simpl.
  set (ga := set_available_moves (Some (get_available_moves s)) g) in *.
  assert (Hga : refreshed g ga) by apply refreshed_set_available_moves.
  assert (Hturn : is_human_turn ga s = is_human_turn g s) by done.
  rewrite Hturn in Hrest.
  destruct (is_human_turn g s) eqn:Hhuman.
  - unfold handle_human_moves in Hrest.
    apply bind_Ok_inv in Hrest as (t5 & avail & t6 & [_ ->]%need_Ok_inv & Hrest & ->).
    apply bind_Ok_inv in Hrest as (t7 & s0 & t8 & [Hs0 ->]%need_Ok_inv & Hrest & ->).
    apply bind_Ok_inv in Hrest as (t9 & u3 & t10 & Hd3 & Hrest & ->).
    apply silent_Ok_inv in Hd3 as ->; [|apply draw_selected_moves_silent].
    simpl. apply human_events_effect in Hrest as (g1 & Hre & Hcase).
    assert (Hg1 : refreshed g g1) by by eapply refreshed_reselect.
    destruct Hcase as [[-> ->]|[(x & y & a & Hin & Hback & Hact)|(m & g2 & Hex & Hre2 & Hin)]].
    + left. by exists g1.
    + right; left. by exists g1, x, y, a.
    + right; right. apply execute_human_move_effect in Hex
        as (s1 & s' & Hs1 & He & Hs2 & Hk & _ & _ & Hc).
      apply refreshed_fields in Hg1 as Hf. destruct Hf as (_ & _ & _ & Hgs & _).
      rewrite Hgs, Hs in Hs1. injection Hs1 as <-.
      exists m, s'. split_and!; try done.
      * apply reselect_fields in Hre2 as (_ & _ & _ & -> & _). done.
      * eapply keeps_trans; [by apply refreshed_keeps|].
        eapply keeps_trans; [done|by apply reselect_keeps].
  - apply bind_Ok_inv in Hrest as (t5 & l & t6 & Hnpc & Hrest & ->).
    apply npc_events_effect in Hnpc.
    destruct l as [g1|g1 [move|]].
    + injection Hrest as <- <-. rewrite app_nil_r.
      destruct Hnpc as (x & y & a & ? & ? & ?). right; left. by exists ga, x, y, a.
    + destruct Hnpc as [Hk (s1 & s' & Hs1 & He & Hs2 & Hkeep & Hc)].
      assert (Hs1' : game_state ga = Some s) by done.
      rewrite Hs1' in Hs1. injection Hs1 as <-.
      assert (Hend : keeps g1 g' ∧ game_state g' = game_state g1).
      { destruct (is_mcts (mode_of g1 (get_other_npc s))).
        - by eapply alg_update_move_effect.
        - injection Hrest as <- <-. split; [apply keeps_refl|done]. }
      destruct Hend as [Hk' Hgs']. right; right. exists move, s'.
      split_and!; try done.
      * by rewrite Hgs'.
      * eapply keeps_trans; [by apply refreshed_keeps|]. by eapply keeps_trans.
      * apply elem_of_app. by left.
    + destruct Hnpc as [-> ->]. injection Hrest as <- <-. left. by exists ga.
Qed.

(** *** What a frame of the other screens does *)

Lemma back_pressed_action g x y a :
  back_pressed (get_back_button g) x y = Some a →
  back_action (window_state g) = Some a.
Proof.
  unfold back_pressed, get_back_button.
  destruct (window_state g); simpl; try done; case_match; by intros [= <-].
Qed.

Lemma back_pressed_elem back x y a :
  back_pressed back x y = Some a → ∃ b, back = Some b ∧ action b = a.
Proof.
  destruct back as [b|]; simpl; [|done]. case_match; [|done].
  intros [= <-]. by exists b.
Qed.

Lemma size_sel_events_effect back evs g t g' :
  size_sel_events back evs g = (t, Ok g') →
  (t = [] ∧ g' = g)
  ∨ (∃ b, b ∈ size_sel_buttons ∧ run_action (action b) g = (t, Ok g'))
  ∨ (∃ x y a, MOUSEBUTTONDOWN x y ∈ evs ∧ back_pressed back x y = Some a ∧
              run_action a g = (t, Ok g')).
Proof.
  assert (Hlift : ∀ e evs t g',
    (t = [] ∧ g' = g)
    ∨ (∃ b, b ∈ size_sel_buttons ∧ run_action (action b) g = (t, Ok g'))
    ∨ (∃ x y a, MOUSEBUTTONDOWN x y ∈ evs ∧ back_pressed back x y = Some a ∧
                run_action a g = (t, Ok g')) →
    (t = [] ∧ g' = g)
    ∨ (∃ b, b ∈ size_sel_buttons ∧ run_action (action b) g = (t, Ok g'))
    ∨ (∃ x y a, MOUSEBUTTONDOWN x y ∈ e :: evs ∧ back_pressed back x y = Some a ∧
                run_action a g = (t, Ok g'))).
  { intros e evs0 t0 g0 [?|[?|(x & y & a & ? & ? & ?)]]; [by left|by right; left|].
    right; right. exists x, y, a. split_and!; try done. by apply list_elem_of_further. }
  induction evs as [|e evs IH]; cbn [size_sel_events].
  { intros [= <- <-]. by left. }
  destruct e; try (intros ?%IH; by apply Hlift); [done|].
  destruct (head (filter (λ b, mouse_collision b x y = true) size_sel_buttons))
    as [b|] eqn:Hhd.
  - intros Hact. right; left. exists b. split; [|done].
    apply head_Some_elem_of in Hhd. by apply list_elem_of_filter in Hhd as [_ ?].
  - destruct (back_pressed back x y) as [a|] eqn:Hback; [|intros ?%IH; by apply Hlift].
    intros Hact. right; right. exists x, y, a. split_and!; try done.
    apply list_elem_of_here.
Qed.

Lemma mode_sel_button_action_effect mode g t g' :
  mode_sel_button_action mode g = (t, Ok g') → chosen g g'.
Proof.
  unfold mode_sel_button_action. case_decide as Hw.
  { intros [= <- <-]. split_and!; try done. by rewrite Hw. }
  case_decide.
  - intros (t1 & u & t2 & _ & Hrest & ->)%bind_Ok_inv.
    apply bind_Ok_inv in Hrest as (t3 & w & t4 & _ & Hrest & ->).
    apply bind_Ok_inv in Hrest as (t5 & h & t6 & _ & [= <- <-] & ->).
    by split_and!.
  - intros [= <- <-]. by split_and!.
Qed.

Lemma chosen_refl g : chosen g g.
Proof. by split_and!. Qed.

Lemma chosen_trans g1 g2 g3 : chosen g1 g2 → chosen g2 g3 → chosen g1 g3.
Proof.
  intros (Hw & ? & ? & ? & ? & ? & ? & Hm) (Hw' & ? & ? & ? & ? & ? & ? & Hm').
  split_and!; try congruence.
  intros Hb. rewrite Hm'; [by apply Hm|congruence].
Qed.

Lemma press_all_effect buttons x y g t g' :
  Forall (λ b, ∃ mode, action b = ModeSelAction mode) buttons →
  press_all buttons x y g = (t, Ok g') → chosen g g'.
Proof.
  intros Hall. revert g t. induction Hall as [|b bs [mode Hb] _ IH]; intros g t;
    cbn [press_all].
  { intros [= <- <-]. apply chosen_refl. }
  destruct (mouse_collision b x y); [|apply IH].
  intros (t1 & g1 & t2 & Hact & Hrest & ->)%bind_Ok_inv.
  rewrite Hb in Hact. simpl in Hact.
  eapply chosen_trans; [by eapply mode_sel_button_action_effect|by eapply IH].
Qed.

Lemma mode_sel_events_effect back evs g t l :
  mode_sel_events back evs g = (t, Ok l) →
  match l with
  | Finished g' => chosen g g'
  | Returned g' =>
      ∃ g1 x y a t', chosen g g1 ∧ MOUSEBUTTONDOWN x y ∈ evs ∧
                     back_pressed back x y = Some a ∧ run_action a g1 = (t', Ok g')
  end.
Proof.
  revert g t. induction evs as [|e evs IH]; intros g t; cbn [mode_sel_events].
  { intros [= <- <-]. apply chosen_refl. }
  assert (Hlift : ∀ g0 l,
    chosen g g0 →
    match l with
    | Finished g' => chosen g0 g'
    | Returned g' =>
        ∃ g1 x y a t', chosen g0 g1 ∧ MOUSEBUTTONDOWN x y ∈ evs ∧
                       back_pressed back x y = Some a ∧ run_action a g1 = (t', Ok g')
    end →
    match l with
    | Finished g' => chosen g g'
    | Returned g' =>
        ∃ g1 x y a t', chosen g g1 ∧ MOUSEBUTTONDOWN x y ∈ e :: evs ∧
                       back_pressed back x y = Some a ∧ run_action a g1 = (t', Ok g')
    end).
  { intros g0 [g'|g'] Hc; [by apply chosen_trans|].
    intros (g1 & x & y & a & t' & ? & ? & ? & ?). exists g1, x, y, a, t'.
    split_and!; try done; [by eapply chosen_trans|by apply list_elem_of_further]. }
  destruct e; try (intros ?%IH; apply (Hlift g); [apply chosen_refl|done]); [done|].
  intros (t1 & g1 & t2 & Hpress & Hrest & ->)%bind_Ok_inv.
  apply press_all_effect in Hpress; [|apply mode_sel_buttons_modes].
  destruct (back_pressed back x y) as [a|] eqn:Hback.
  - apply bind_Ok_inv in Hrest as (t3 & g2 & t4 & Hact & [= <- <-] & ->).
    exists g1, x, y, a, t3. split_and!; try done. apply list_elem_of_here.
  - apply IH in Hrest. by apply (Hlift g1).
Qed.

(** A frame of a mode screen that runs to its end: after the presses on mode
    buttons, either the back button was pressed, or the algorithm of the
    chosen mode is built and the next screen entered, or no mode is chosen
    yet. *)
Lemma mode_sel_effect g evs t g' :
  mode_sel g evs = (t, Ok g') →
  ∃ g1, chosen g g1 ∧
    ((∃ x y a t', MOUSEBUTTONDOWN x y ∈ evs ∧
                  back_pressed (get_back_button g) x y = Some a ∧
                  run_action a g1 = (t', Ok g'))
     ∨ (∃ wm alg t', window_state g1 = WHITE_MODE_SEL ∧ white_mode g1 = Some wm ∧
                     choose_alg g1 wm WHITE = (t', Ok alg) ∧
                     g' = set_window_state BLACK_MODE_SEL (set_white_alg alg g1))
     ∨ (∃ bm alg t', window_state g1 = BLACK_MODE_SEL ∧ black_mode g1 = Some bm ∧
                     choose_alg g1 bm BLACK = (t', Ok alg) ∧
                     g' = set_window_state PLAYING (set_black_alg alg g1))
     ∨ g' = g1).
Proof.
  unfold mode_sel.
  intros (t1 & l & t2 & Hev & Hrest & ->)%bind_Ok_inv.
  apply mode_sel_events_effect in Hev. destruct l as [g1|g1].
  - exists g1. split; [done|]. unfold chosen_on in Hrest.
    case_decide as Hw.
    + destruct (white_mode g1) as [wm|] eqn:Hwm.
      * apply bind_Ok_inv in Hrest as (t3 & alg & t4 & Hch & [= <- <-] & ->).
        right; left. by exists wm, alg, t3.
      * case_decide; [congruence|]. injection Hrest as <- <-. by right; right; right.
    + case_decide as Hb.
      * destruct (black_mode g1) as [bm|] eqn:Hbm.
        -- apply bind_Ok_inv in Hrest as (t3 & alg & t4 & Hch & Hrest & ->).
           apply bind_Ok_inv in Hrest as (t5 & u & t6 & _ & [= <- <-] & ->).
           right; right; left. by exists bm, alg, t3.
        -- injection Hrest as <- <-. by right; right; right.
      * injection Hrest as <- <-. by right; right; right.
  - injection Hrest as <- <-.
    destruct Hev as (g2 & x & y & a & t' & ? & ? & ? & ?).
    exists g2. split; [done|]. left. by exists x, y, a, t'.
Qed.

Lemma game_over_events_effect back evs g t g' :
  game_over_events back evs g = (t, Ok g') →
  (t = [] ∧ g' = g)
  ∨ (∃ x y a, MOUSEBUTTONDOWN x y ∈ evs ∧ back_pressed back x y = Some a ∧
              run_action a g = (t, Ok g')).
Proof.
  assert (Hlift : ∀ e evs t g',
    (t = [] ∧ g' = g)
    ∨ (∃ x y a, MOUSEBUTTONDOWN x y ∈ evs ∧ back_pressed back x y = Some a ∧
                run_action a g = (t, Ok g')) →
    (t = [] ∧ g' = g)
    ∨ (∃ x y a, MOUSEBUTTONDOWN x y ∈ e :: evs ∧ back_pressed back x y = Some a ∧
                run_action a g = (t, Ok g'))).
  { intros e evs0 t0 g0 [?|(x & y & a & ? & ? & ?)]; [by left|].
    right. exists x, y, a. split_and!; try done. by apply list_elem_of_further. }
  induction evs as [|e evs IH]; cbn [game_over_events].
  { intros [= <- <-]. by left. }
  destruct e; try (intros ?%IH; by apply Hlift); [done|].
  destruct (back_pressed back x y) as [a|] eqn:Hback; [|intros ?%IH; by apply Hlift].
  intros Hact. right. exists x, y, a. split_and!; try done. apply list_elem_of_here.
Qed.

Lemma game_over_effect g evs t g' :
  game_over g evs = (t, Ok g') →
  (t = [] ∧ g' = g)
  ∨ (∃ x y a, MOUSEBUTTONDOWN x y ∈ evs ∧
              back_pressed (get_back_button g) x y = Some a ∧
              run_action a g = (t, Ok g')).
Proof.
  unfold game_over.
  intros (t1 & w & t2 & [_ ->]%need_Ok_inv & Hrest & ->)%bind_Ok_inv.
  apply bind_Ok_inv in Hrest as (t3 & h & t4 & [_ ->]%need_Ok_inv & Hrest & ->).
  by apply game_over_events_effect.
Qed.

(** Every iteration of the main loop that runs to its end keeps the screen or
    follows one edge of the screen graph: size to white mode; white mode to
    black mode or back to size; black mode to playing or back to white mode;
    playing to game over or back to black mode; game over back to size. *)
Theorem screen_flow g fr t g' :
  play_iteration g fr = (t, Ok g') →
  next_screen (window_state g) (window_state g').
Proof.
  unfold play_iteration. destruct (window_state g) eqn:Hw; simpl.
  - intros Hrun. apply size_sel_events_effect in Hrun
      as [[_ ->]|[(b & Hb & Hact)|(x & y & a & _ & Hback & _)]].
    + by left.
    + apply size_sel_buttons_supported in Hb as (col & row & Hb & _).
      rewrite Hb in Hact. injection Hact as <- <-. by right.
    + apply back_pressed_action in Hback. by rewrite Hw in Hback.
  - intros (g1 & Hch & Hcase)%mode_sel_effect.
    destruct Hch as (Hw1 & _). rewrite Hw in Hw1.
    destruct Hcase as [(x & y & a & t' & _ & Hback & Hact)
                      |[(wm & alg & t' & _ & _ & _ & ->)
                       |[(bm & alg & t' & Hw2 & _)| ->]]].
    + apply back_pressed_action in Hback. rewrite Hw in Hback.
      injection Hback as <-. injection Hact as <- <-. by right; right.
    + by right; left.
    + congruence.
    + by left.
  - intros (g1 & Hch & Hcase)%mode_sel_effect.
    destruct Hch as (Hw1 & _). rewrite Hw in Hw1.
    destruct Hcase as [(x & y & a & t' & _ & Hback & Hact)
                      |[(wm & alg & t' & Hw2 & _)
                       |[(bm & alg & t' & _ & _ & _ & ->)| ->]]].
    + apply back_pressed_action in Hback. rewrite Hw in Hback.
      injection Hback as <-. injection Hact as <- <-. by right; right.
    + congruence.
    + by right; left.
    + by left.
  - intros (t1 & s & t2 & [Hs ->]%need_Ok_inv & Hrest & ->)%bind_Ok_inv.
    destruct (decide (check_winner s ≠ EMPTY)).
    { injection Hrest as <- <-. by right; left. }
    destruct (board _ _ _) as [t3 r] eqn:Hboard.
    injection Hrest as <- ->.
    apply board_effect with (s := s) in Hboard; [|done].
    destruct Hboard as [(g1 & Hre & _ & ->)
                       |[(g1 & x & y & a & Hre & _ & Hback & Hact)
                        |(m & s' & _ & _ & Hk & _)]].
    + apply refreshed_fields in Hre as (-> & _). simpl. by left.
    + apply back_pressed_action in Hback. simpl in Hback. rewrite Hw in Hback.
      injection Hback as <-. injection Hact as <- <-. by right; right.
    + destruct Hk as ((-> & _) & _). simpl. by left.
  - intros Hrun. apply game_over_effect in Hrun
      as [[_ ->]|(x & y & a & _ & Hback & Hact)].
    + by left.
    + apply back_pressed_action in Hback. rewrite Hw in Hback.
      injection Hback as <-. injection Hact as <- <-. by right.
Qed.

(** *** Moves *)

Lemma back_action_run g g1 a t g' :
  back_action (window_state g) = Some a →
  run_action a g1 = (t, Ok g') →
  t = [] ∧ g' = back_target a g1 ∧ game_state g' = game_state g1 ∧
  white_alg g' = white_alg g1 ∧ black_alg g' = black_alg g1 ∧
  selected_moves g' = selected_moves g1.
Proof.
  destruct (window_state g); simpl; try done; by intros [= <-] [= <- <-].
Qed.

Lemma frame_calls_execute g s full :
  frame_calls g s full →
  full = [] ∨
  ∃ m pre post, full = pre ++ CExecuteMove s m :: post ∧
                ∀ s0 m0, CExecuteMove s0 m0 ∉ pre ++ post.
Proof.
  intros [|m _|m _ _|m n _ _ _]; [by left|right..].
  - exists m, (mcts_updates g s m), []. split; [done|].
    intros s0 m0. rewrite app_nil_r. apply execute_in_updates.
  - exists m, [CAlg (get_current_npc s) s], (mcts_updates g s m). split; [done|].
    intros s0 m0 [Hin|Hin]%elem_of_app.
    + by apply list_elem_of_singleton in Hin.
    + by apply execute_in_updates in Hin.
  - exists m, [CTrainUntil (get_current_npc s) n; CGetBestMove (get_current_npc s)],
      (mcts_updates g s m). split; [done|].
    intros s0 m0 [Hin|Hin]%elem_of_app.
    + apply elem_of_cons in Hin as [?|Hin]; [done|].
      by apply list_elem_of_singleton in Hin.
    + by apply execute_in_updates in Hin.
Qed.

(** A frame of [board] that runs to its end applies at most one move: either
    [execute_move] is not called and the game state is the one the frame
    started with, or it is called once, on that state, and the game state
    becomes what it returned. *)
Theorem one_move_per_frame g evs seed s t g' :
  game_state g = Some s →
  board g evs seed = (t, Ok g') →
  (game_state g' = Some s ∧ ∀ s0 m, CExecuteMove s0 m ∉ t)
  ∨ ∃ m s' pre post,
      t = pre ++ CExecuteMove s m :: post ∧
      (∀ s0 m0, CExecuteMove s0 m0 ∉ pre ++ post) ∧
      execute_move s m = Some s' ∧ game_state g' = Some s'.
Proof.
  intros Hs Hrun.
  destruct (board_calls _ _ _ _ _ _ Hs Hrun) as (full & Hfull & _ & Hok).
  destruct (Hok g' eq_refl) as [-> _].
  destruct (board_effect _ _ _ _ _ _ Hs Hrun)
    as [(g1 & Hre & -> & ->)
       |[(g1 & x & y & a & Hre & _ & Hback & Hact)
        |(m & s' & He & Hs' & _ & Hin & _)]].
  - left. apply refreshed_fields in Hre as (_ & _ & _ & -> & _).
    split; [done|]. intros s0 m0 Hin. by apply elem_of_nil in Hin.
  - left. apply back_pressed_action in Hback.
    destruct (back_action_run _ _ _ _ _ Hback Hact) as (-> & _ & -> & _).
    apply refreshed_fields in Hre as (_ & _ & _ & -> & _).
    split; [done|]. intros s0 m0 Hin. by apply elem_of_nil in Hin.
  - right. apply frame_calls_execute in Hfull as [->|(m1 & pre & post & -> & Hno)].
    { by apply elem_of_nil in Hin. }
    assert (m = m1) as ->.
    { apply elem_of_app in Hin as [Hin|Hin].
      - exfalso. apply (Hno s m). apply elem_of_app. by left.
      - apply elem_of_cons in Hin as [[= ->]|Hin]; [done|].
        exfalso. apply (Hno s m). apply elem_of_app. by right. }
    by exists m1, s', pre, post.
Qed.

Lemma bind_silent_trace {B} (m : Run unit) (f : unit → Run B) :
  silent m → (bind m f).1 ≠ [] → (f tt).1 ≠ [].
Proof. intros [->| ->]; [by rewrite bind_ret|done]. Qed.

Lemma bind_need_trace {A B} (o : option A) (f : A → Run B) :
  (bind (need o) f).1 ≠ [] → ∃ a, o = Some a ∧ (f a).1 ≠ [].
Proof. destruct o as [a|]; [|done]. rewrite (bind_need _ a) by done. by exists a. Qed.

Lemma human_events_input back evs g :
  (human_events back evs g).1 ≠ [] →
  K_RETURN ∈ evs ∨ ∃ x y, MOUSEBUTTONDOWN x y ∈ evs.
Proof.
  induction evs as [|e evs IH] in g |- *; cbn [human_events]; [done|].
  destruct e.
  - done.
  - intros _. left. apply list_elem_of_here.
  - intros _. right. exists x, y. apply list_elem_of_here.
  - intros [?|(x & y & ?)]%IH; [left|right; exists x, y]; by apply list_elem_of_further.
Qed.

Lemma npc_events_input back side seed evs g :
  (∀ b, back = Some b → is_back (action b)) →
  (npc_events back side seed evs g).1 ≠ [] → K_RETURN ∈ evs.
Proof.
  intros Hback.
  induction evs as [|e evs IH]; cbn [npc_events]; [done|].
  destruct e.
  - done.
  - intros _. apply list_elem_of_here.
  - destruct (back_pressed back x y) as [a|] eqn:Hp.
    + destruct (back_pressed_run _ _ _ _ g Hback Hp) as [_ ->]. simpl. by intros [].
    + intros ?%IH. by apply list_elem_of_further.
  - intros ?%IH. by apply list_elem_of_further.
Qed.

(** A frame of [board] applies a move or turns to an agent only on input.
    The calls recorded for a frame are [execute_move], an algorithm called on
    the state, [train_until], [get_best_move] and [update_move]; what
    [board] reads on every frame through [get_available_moves()] and
    [get_board_matrix()] is not among them.  If a frame makes one of the
    recorded calls, then in a human turn it holds Enter or a mouse press, and
    in the turn of an automated team it holds Enter. *)
Theorem moves_need_input g evs seed t r :
  board g evs seed = (t, r) → t ≠ [] →
  Forall game_call t ∧
  ∃ s, game_state g = Some s ∧
       if is_human_turn g s
       then K_RETURN ∈ evs ∨ ∃ x y, MOUSEBUTTONDOWN x y ∈ evs
       else K_RETURN ∈ evs.
Proof.
  intros Hrun Ht.
  assert (Hinput : ∃ s, game_state g = Some s ∧
                        if is_human_turn g s
                        then K_RETURN ∈ evs ∨ ∃ x y, MOUSEBUTTONDOWN x y ∈ evs
                        else K_RETURN ∈ evs).
  { assert (Htr : (board g evs seed).1 ≠ []) by by rewrite Hrun.
    clear Hrun Ht. unfold board in Htr.
    apply bind_silent_trace in Htr; [|apply draw_static_board_elements_silent].
    apply bind_silent_trace in Htr; [|apply draw_pieces_silent].
    apply bind_need_trace in Htr as (s & Hs & Htr).
    exists s. split; [done|]. cbv zeta in Htr.
    set (ga := set_available_moves (Some (get_available_moves s)) g) in *.
    assert (Hturn : is_human_turn ga s = is_human_turn g s) by done.
    rewrite Hturn in Htr. destruct (is_human_turn g s).
    - unfold handle_human_moves in Htr.
      apply bind_need_trace in Htr as (avail & _ & Htr).
      apply bind_need_trace in Htr as (s0 & _ & Htr).
      apply bind_silent_trace in Htr; [|apply draw_selected_moves_silent].
      by apply human_events_input in Htr.
    - rewrite bind_trace in Htr.
      destruct (npc_events (get_back_button g) (get_current_npc s) seed evs ga)
        as [t1 r1] eqn:Hnpc.
      destruct t1 as [|c t1].
      + destruct r1 as [[g1|g1 [move|]]| |]; try done.
        by apply npc_events_effect in Hnpc as [? _].
      + eapply npc_events_input; [apply back_button_is_back|by rewrite Hnpc]. }
  split; [|exact Hinput].
  destruct Hinput as (s & Hs & _).
  apply (board_calls _ _ _ s) in Hrun as (full & Hfull & Hpre & _); [|done].
  eapply prefix_Forall; [done|]. by eapply frame_calls_game.
Qed.

Lemma execute_human_move_trace g m s t r s0 m0 :
  game_state g = Some s →
  execute_human_move g m = (t, r) →
  CExecuteMove s0 m0 ∈ t → s0 = s ∧ m0 = m.
Proof.
  intros Hs Hrun Hin.
  destruct (execute_human_move_calls _ _ _ _ _ Hs Hrun) as ([k Hpre] & _).
  assert (Hin' : CExecuteMove s0 m0 ∈ human_calls g s m).
  { rewrite Hpre. apply elem_of_app. by left. }
  unfold human_calls in Hin'. apply elem_of_app in Hin' as [Hin'|Hin'].
  - repeat case_match; try (by apply elem_of_nil in Hin');
      by apply list_elem_of_singleton in Hin'.
  - apply list_elem_of_singleton in Hin'. by injection Hin' as -> ->.
Qed.

Lemma kill_click_trace ms row col g s t r s0 m0 :
  game_state g = Some s →
  kill_click ms row col g = (t, r) →
  CExecuteMove s0 m0 ∈ t →
  s0 = s ∧ m0 ∈ ms ∧ get_first_to_kill m0 = Some (row, col).
Proof.
  intros Hs. revert t r. induction ms as [|m ms IH]; intros t r; cbn [kill_click].
  { intros [= <- <-] Hin. by apply elem_of_nil in Hin. }
  destruct (get_first_to_kill m) as [rc|] eqn:Hrc.
  2:{ rewrite (bind_need_None _ _ eq_refl). intros [= <- <-] Hin.
      by apply elem_of_nil in Hin. }
  rewrite (bind_need _ _ _ eq_refl). case_decide as Heq.
  - destruct (execute_human_move g m) as [t1 r1] eqn:Hex.
    intros Hrun Hin.
    assert (t = t1) as ->.
    { destruct r1; simpl in Hrun; injection Hrun as <- _; by rewrite ?app_nil_r. }
    destruct (execute_human_move_trace _ _ _ _ _ _ _ Hs Hex Hin) as [-> ->].
    split_and!; [done|apply list_elem_of_here|by rewrite Hrc, Heq].
  - intros Hrun Hin. destruct (IH _ _ Hrun Hin) as (? & ? & ?).
    split_and!; try done. by apply list_elem_of_further.
Qed.

Lemma human_events_trace back evs g s avail (carried : list Move) t r s0 m :
  (∀ b, back = Some b → is_back (action b)) →
  game_state g = Some s →
  available_moves g = Some avail →
  (∀ m', m' ∈ selected_moves g → m' ∈ avail ∨ m' ∈ carried) →
  human_events back evs g = (t, r) →
  CExecuteMove s0 m ∈ t →
  s0 = s ∧ (m ∈ avail ∨ m ∈ carried ∧ is_Some (get_first_to_kill m)).
Proof.
  intros Hback. revert g t r.
  induction evs as [|e evs IH]; intros g t r Hs Hav Hsel; cbn [human_events].
  { intros [= <- <-] Hin. by apply elem_of_nil in Hin. }
  destruct e.
  - intros [= <- <-] Hin. by apply elem_of_nil in Hin.
  - rewrite (bind_need _ _ _ Hav). case_decide as Hpass.
    + intros Hrun Hin.
      destruct (execute_human_move_trace _ _ _ _ _ _ _ Hs Hrun Hin) as [-> ->].
      split; [done|by left].
    + by apply IH.
  - destruct (back_pressed back x y) as [a|] eqn:Hp.
    { destruct (back_pressed_run _ _ _ _ g Hback Hp) as [_ ->].
      intros [= <- <-] Hin. by apply elem_of_nil in Hin. }
    rewrite (bind_need _ _ _ Hs).
    destruct (py_index2 (get_board_matrix s) (y `div` 70) (x `div` 70)) as [v|] eqn:Hv.
    2:{ rewrite (bind_need_None _ _ eq_refl). intros [= <- <-] Hin.
        by apply elem_of_nil in Hin. }
    rewrite (bind_need _ _ _ eq_refl). case_decide.
    { apply IH; try done. intros m' Hm'. by apply elem_of_nil in Hm'. }
    case_decide.
    + rewrite (bind_need _ _ _ Hav). cbv zeta.
      assert (Hfil : ∀ m', m' ∈ filter (λ m, selects g (y `div` 70) (x `div` 70) m = true) avail
                           → m' ∈ avail).
      { intros m' Hm'. by apply list_elem_of_filter in Hm' as [_ ?]. }
      simpl.
      destruct (filter (λ m, selects g (y `div` 70) (x `div` 70) m = true) avail)
        as [|m1 [|m2 sel]].
      * apply IH; try done. intros m' Hm'. left. by apply Hfil.
      * intros Hrun Hin.
        eapply (execute_human_move_trace (set_selected_moves [m1] g)) in Hin
          as [-> ->]; [|done|exact Hrun].
        split; [done|]. left. apply Hfil, list_elem_of_here.
      * apply IH; try done. intros m' Hm'. left. by apply Hfil.
    + destruct (kill_click (selected_moves g) (y `div` 70) (x `div` 70) g)
        as [t1 r1] eqn:Hk.
      destruct r1 as [[g2|]| |].
      * rewrite bind_Ok. simpl. rewrite app_nil_r. intros [= <- <-] Hin.
        destruct (kill_click_trace _ _ _ _ _ _ _ _ _ Hs Hk Hin) as (-> & Hm & Hfirst).
        split; [done|]. destruct (Hsel _ Hm) as [?|?]; [by left|right].
        split; [done|]. by rewrite Hfirst.
      * rewrite bind_Ok. simpl. intros Hrun Hin.
        destruct (human_events back evs g) as [t2 r2] eqn:Hrec.
        injection Hrun as <- <-.
        apply elem_of_app in Hin as [Hin|Hin].
        -- destruct (kill_click_trace _ _ _ _ _ _ _ _ _ Hs Hk Hin) as (-> & Hm & Hfirst).
           split; [done|]. destruct (Hsel _ Hm) as [?|?]; [by left|right].
           split; [done|]. by rewrite Hfirst.
        -- by eapply IH.
      * simpl. intros [= <- <-] Hin.
        destruct (kill_click_trace _ _ _ _ _ _ _ _ _ Hs Hk Hin) as (-> & Hm & Hfirst).
        split; [done|]. destruct (Hsel _ Hm) as [?|?]; [by left|right].
        split; [done|]. by rewrite Hfirst.
      * simpl. intros [= <- <-] Hin.
        destruct (kill_click_trace _ _ _ _ _ _ _ _ _ Hs Hk Hin) as (-> & Hm & Hfirst).
        split; [done|]. destruct (Hsel _ Hm) as [?|?]; [by left|right].
        split; [done|]. by rewrite Hfirst.
  - by apply IH.
Qed.

(** Where the moves of a human come from: a move handed to [execute_move]
    in a human turn is applied to the state of the frame, and it is one of
    the moves available in that state, or one of the moves that were in
    [selected_moves] when the frame began, picked by a press on its first
    captured cell. *)
Theorem human_move_available_or_kept g evs seed s t r s0 m :
  game_state g = Some s →
  is_human_turn g s = true →
  board g evs seed = (t, r) →
  CExecuteMove s0 m ∈ t →
  s0 = s ∧
  (m ∈ get_available_moves s
   ∨ m ∈ selected_moves g ∧ is_Some (get_first_to_kill m)).
Proof.
  intros Hs Hturn Hrun Hin.
  assert (Htr : CExecuteMove s0 m ∈ (board g evs seed).1) by by rewrite Hrun.
  clear Hrun Hin. unfold board in Htr.
  destruct (draw_static_board_elements_silent g) as [Hd| Hd]; rewrite Hd in Htr;
    [rewrite bind_ret in Htr|by apply elem_of_nil in Htr].
  destruct (draw_pieces_silent g) as [Hd'| Hd']; rewrite Hd' in Htr;
    [rewrite bind_ret in Htr|by apply elem_of_nil in Htr].
  rewrite (bind_need _ _ _ Hs) in Htr. cbv zeta in Htr.
  set (ga := set_available_moves (Some (get_available_moves s)) g) in *.
  assert (Hturn' : is_human_turn ga s = true) by done.
  rewrite Hturn' in Htr. unfold handle_human_moves in Htr.
  rewrite (bind_need _ (get_available_moves s)) in Htr by done.
  rewrite (bind_need _ s) in Htr by done.
  destruct (draw_selected_moves_silent (selected_moves ga) s) as [Hd''| Hd''];
    rewrite Hd'' in Htr; [rewrite bind_ret in Htr|by apply elem_of_nil in Htr].
  eapply (human_events_trace _ evs ga s (get_available_moves s) (selected_moves g));
    [apply back_button_is_back|done|done| |apply Run_eta|done].
  intros m' Hm'. by right.
Qed.

(** *** The algorithm objects *)

Lemma choose_alg_agrees g mode p t a :
  choose_alg g mode p = (t, Ok a) → agrees (Some mode) a.
Proof.
  destruct mode; cbv [choose_alg agrees]; try (by intros [= <- <-]).
  all: intros (t1 & u & t2 & _ & Hrest & ->)%bind_Ok_inv.
  all: apply bind_Ok_inv in Hrest as (t3 & w & t4 & _ & Hrest & ->).
  all: apply bind_Ok_inv in Hrest as (t5 & h & t6 & _ & [= <- <-] & ->).
  all: by eexists.
Qed.

Lemma agrees_same_kind mode a b : agrees mode a → same_kind a b → agrees mode b.
Proof.
  intros Ha [<-|(tree & tree' & -> & ->)]; [done|].
  destruct mode as [[]|]; try done; by eexists.
Qed.

Lemma equipped_keeps g g' : equipped g → keeps g g' → equipped g'.
Proof.
  intros [Hw Hb] ((Hws & _ & _ & _ & Hwm & Hbm) & Hkw & Hkb).
  split; rewrite Hws.
  - intros Hs. rewrite Hwm. eapply agrees_same_kind; [by apply Hw|done].
  - intros Hs. rewrite Hbm. eapply agrees_same_kind; [by apply Hb|done].
Qed.

Lemma play_iteration_equipped g fr t g' :
  equipped g → play_iteration g fr = (t, Ok g') → equipped g'.
Proof.
  intros [Hwhite Hblack] Hrun.
  unfold play_iteration in Hrun. destruct (window_state g) eqn:Hw.
  - apply size_sel_events_effect in Hrun
      as [[_ ->]|[(b & Hb & Hact)|(x & y & a & _ & Hback & _)]].
    + split; rewrite Hw; intros; naive_solver.
    + apply size_sel_buttons_supported in Hb as (col & row & Hb & _).
      rewrite Hb in Hact. injection Hact as <- <-. split; simpl; naive_solver.
    + apply back_pressed_action in Hback. by rewrite Hw in Hback.
  - apply mode_sel_effect in Hrun as (g1 & Hch & Hcase).
    destruct Hch as (Hw1 & _). rewrite Hw in Hw1.
    destruct Hcase as [(x & y & a & t' & _ & Hback & Hact)
                      |[(wm & alg & t' & _ & Hwm & Hch & ->)
                       |[(bm & alg & t' & Hw2 & _)| ->]]].
    + apply back_pressed_action in Hback. rewrite Hw in Hback.
      injection Hback as <-. injection Hact as <- <-. split; simpl; naive_solver.
    + split; simpl; [|naive_solver]. intros _. rewrite Hwm.
      by eapply choose_alg_agrees.
    + congruence.
    + split; rewrite Hw1; naive_solver.
  - apply mode_sel_effect in Hrun as (g1 & Hch & Hcase).
    destruct Hch as (Hw1 & _ & _ & Hwa & _ & _ & _ & Hwm).
    rewrite Hw in Hw1. specialize (Hwm Hw).
    assert (Hag : agrees (white_mode g1) (white_alg g1)).
    { rewrite Hwa, Hwm. apply Hwhite. by left. }
    destruct Hcase as [(x & y & a & t' & _ & Hback & Hact)
                      |[(wm & alg & t' & Hw2 & _)
                       |[(bm & alg & t' & _ & Hbm & Hch & ->)| ->]]].
    + apply back_pressed_action in Hback. rewrite Hw in Hback.
      injection Hback as <-. injection Hact as <- <-. split; simpl; naive_solver.
    + congruence.
    + split; simpl; [done|]. intros _. rewrite Hbm. by eapply choose_alg_agrees.
    + split; rewrite Hw1; [done|naive_solver].
  - apply bind_Ok_inv in Hrun as (t1 & s & t2 & [Hs ->]%need_Ok_inv & Hrest & ->).
    rewrite bind_call in Hrest.
    assert (Heq : equipped (set_winner (check_winner s) g)).
    { split; simpl; rewrite Hw; [apply Hwhite|apply Hblack]; by rewrite Hw. }
    case_decide.
    { injection Hrest as _ <-. destruct Heq as [Hw' Hb']. simpl in *.
      rewrite Hw in *. split; simpl; intros _; [apply Hw'|apply Hb']; naive_solver. }
    destruct (board _ _ _) as [t3 r] eqn:Hboard. simpl in Hrest.
    injection Hrest as _ ->.
    apply board_effect with (s := s) in Hboard; [|done].
    destruct Hboard as [(g1 & Hre & _ & ->)
                       |[(g1 & x & y & a & Hre & _ & Hback & Hact)
                        |(m & s' & _ & _ & Hk & _)]].
    + eapply equipped_keeps; [done|by apply refreshed_keeps].
    + apply refreshed_keeps in Hre. pose proof (equipped_keeps _ _ Heq Hre) as [Hw1 _].
      destruct Hre as ((Hws & _) & _). simpl in Hws.
      apply back_pressed_action in Hback. simpl in Hback. rewrite Hw in Hback.
      injection Hback as <-. injection Hact as <- <-.
      split; simpl; [|naive_solver]. intros _. apply Hw1. rewrite Hws, Hw. naive_solver.
    + by eapply equipped_keeps.
  - apply game_over_effect in Hrun as [[_ ->]|(x & y & a & _ & Hback & Hact)].
    + split; rewrite Hw; [apply Hwhite|apply Hblack]; by rewrite Hw.
    + apply back_pressed_action in Hback. rewrite Hw in Hback.
      injection Hback as <-. injection Hact as <- <-. split; simpl; naive_solver.
Qed.

Lemma reachable_equipped g : reachable g → equipped g.
Proof.
  induction 1 as [|g fr t g' _ IH Hrun].
  - split; simpl; naive_solver.
  - by eapply play_iteration_equipped.
Qed.

(** On the playing screen each team holds the algorithm object of its mode:
    nothing for a human, [get_random_move] for the random mode, the minimax
    closure [choose_alg] builds for a minimax mode, a tree for an MCTS mode.
    So [alg(state)] is only ever applied to a function and [train_until],
    [get_best_move] and [update_move] are only ever called on a tree. *)
Theorem algorithm_matches_mode g side :
  reachable g → window_state g = PLAYING →
  side = WHITE ∨ side = BLACK →
  agrees (mode_of g side) (alg_of g side).
Proof.
  intros [Hw Hb]%reachable_equipped Hplay [-> | ->]; unfold mode_of, alg_of; simpl.
  - apply Hw. by right; left.
  - apply Hb. by left.
Qed.

(** *** The screens around the game never fail *)

Lemma bind_not_raised {A B} (m : Run A) (f : A → Run B) :
  m.2 ≠ Raised → (∀ t a, m = (t, Ok a) → (f a).2 ≠ Raised) →
  (bind m f).2 ≠ Raised.
Proof.
  intros Hm Hf. rewrite bind_result. destruct m as [t [a| |]]; simpl in *; try done.
  by eapply Hf.
Qed.

Lemma back_action_not_raised screen a g :
  back_action screen = Some a → (run_action a g).2 ≠ Raised.
Proof. destruct screen; simpl; try done; by intros [= <-]. Qed.

Lemma back_pressed_not_raised g0 x y a g :
  back_pressed (get_back_button g0) x y = Some a → (run_action a g).2 ≠ Raised.
Proof. intros ?%back_pressed_action. by eapply back_action_not_raised. Qed.

Lemma size_sel_not_raised g evs :
  window_state g = BOARD_SIZE_SEL → (size_sel g evs).2 ≠ Raised.
Proof.
  intros Hw. unfold size_sel.
  induction evs as [|e evs IH]; cbn [size_sel_events]; [done|].
  destruct e; try done.
  destruct (head (filter (λ b, mouse_collision b x y = true) size_sel_buttons))
    as [b|] eqn:Hhd.
  - apply head_Some_elem_of in Hhd. apply list_elem_of_filter in Hhd as [_ Hb].
    apply size_sel_buttons_supported in Hb as (col & row & -> & _). done.
  - destruct (back_pressed (get_back_button g) x y) eqn:Hback; [|done].
    by eapply back_pressed_not_raised.
Qed.

Lemma mode_sel_button_action_not_raised mode g :
  is_Some (width g) → is_Some (height g) →
  (mode_sel_button_action mode g).2 ≠ Raised.
Proof.
  intros [w Hw] [h Hh]. unfold mode_sel_button_action.
  repeat case_decide; try done. simpl. rewrite Hw, Hh. done.
Qed.

Lemma press_all_not_raised buttons x y g :
  Forall (λ b, ∃ mode, action b = ModeSelAction mode) buttons →
  is_Some (width g) → is_Some (height g) →
  (press_all buttons x y g).2 ≠ Raised.
Proof.
  intros Hall. revert g. induction Hall as [|b bs [mode Hb] _ IH]; intros g Hw Hh;
    cbn [press_all]; [done|].
  destruct (mouse_collision b x y); [|by apply IH].
  rewrite Hb. simpl. apply bind_not_raised.
  - by apply mode_sel_button_action_not_raised.
  - intros t g1 (_ & Hw1 & Hh1 & _)%mode_sel_button_action_effect.
    apply IH; congruence.
Qed.

Lemma choose_alg_not_raised g mode p :
  is_Some (width g) → is_Some (height g) → (choose_alg g mode p).2 ≠ Raised.
Proof.
  intros [w Hw] [h Hh]. destruct mode; cbv [choose_alg]; try done.
  all: rewrite Hw, Hh; done.
Qed.

Lemma mode_sel_events_not_raised g0 evs g :
  is_Some (width g) → is_Some (height g) →
  (mode_sel_events (get_back_button g0) evs g).2 ≠ Raised.
Proof.
  revert g. induction evs as [|e evs IH]; intros g Hw Hh; cbn [mode_sel_events];
    [done|].
  destruct e; try done; try by apply IH.
  apply bind_not_raised.
  - apply press_all_not_raised; [apply mode_sel_buttons_modes|done..].
  - intros t g1 (_ & Hw1 & Hh1 & _)%press_all_effect; [|apply mode_sel_buttons_modes].
    destruct (back_pressed (get_back_button g0) x y) eqn:Hback.
    + apply bind_not_raised; [by eapply back_pressed_not_raised|done].
    + apply IH; congruence.
Qed.

Lemma mode_sel_not_raised g evs :
  is_Some (width g) → is_Some (height g) → (mode_sel g evs).2 ≠ Raised.
Proof.
  intros Hw Hh. unfold mode_sel. apply bind_not_raised.
  { by apply mode_sel_events_not_raised. }
  intros t [g1|g1] Hev; [|done].
  apply mode_sel_events_effect in Hev as (_ & Hw1 & Hh1 & _).
  rewrite <- Hw1 in Hw. rewrite <- Hh1 in Hh.
  unfold chosen_on. repeat case_match; try done.
  all: apply bind_not_raised; [by apply choose_alg_not_raised|intros ? alg _].
  all: try done.
  all: simpl; destruct Hw as [w ->], Hh as [h ->]; done.
Qed.

Lemma game_over_not_raised g evs :
  is_Some (width g) → is_Some (height g) → (game_over g evs).2 ≠ Raised.
Proof.
  intros [w Hw] [h Hh]. unfold game_over.
  rewrite (bind_need _ _ _ Hw), (bind_need _ _ _ Hh).
  induction evs as [|e evs IH]; cbn [game_over_events]; [done|].
  destruct e; try done.
  destruct (back_pressed (get_back_button g) x y) eqn:Hback; [|done].
  by eapply back_pressed_not_raised.
Qed.

(** The size, mode and game-over screens never raise: from every
    configuration the main loop reaches, an iteration on one of them ends
    normally or, on a quit event, by [exit()]. *)
Theorem menus_never_raise g fr t r :
  reachable g → window_state g ≠ PLAYING →
  play_iteration g fr = (t, r) → r ≠ Raised.
Proof.
  intros Hinv%reachable_invariant Hw Hrun.
  assert (Hr : r = (play_iteration g fr).2) by by rewrite Hrun.
  rewrite Hr. clear Hrun Hr. unfold play_iteration.
  assert (Hsize : window_state g ≠ BOARD_SIZE_SEL →
                  is_Some (width g) ∧ is_Some (height g)).
  { intros (w & h & -> & -> & _)%(inv_size _ Hinv). by split. }
  destruct (window_state g) eqn:Hws; try done.
  - by apply size_sel_not_raised.
  - destruct Hsize; [done|]. by apply mode_sel_not_raised.
  - destruct Hsize; [done|]. by apply mode_sel_not_raised.
  - destruct Hsize; [done|]. by apply game_over_not_raised.
Qed.

(** *** Presses outside the board *)

Lemma py_index_beyond {A} (l : list A) (i : Z) :
  Z.of_nat (length l) ≤ i → py_index l i = None.
Proof.
  intros Hi. unfold py_index. rewrite decide_True by lia.
  apply lookup_ge_None_2. lia.
Qed.

(** A mouse press below the last row of the board in a human turn raises:
    the row [y // 70] is no row of the board matrix.  With a matrix of
    [height] rows these are the presses on the 40 pixels of the canvas that
    hold the texts. *)
Theorem press_below_board_raises g s evs seed x y :
  game_state g = Some s →
  is_human_turn g s = true →
  70 * Z.of_nat (length (get_board_matrix s)) ≤ y →
  back_pressed (get_back_button g) x y = None →
  board g (MOUSEBUTTONDOWN x y :: evs) seed = ([], Raised).
Proof.
  intros Hs Hturn Hy Hback. unfold board.
  destruct (draw_static_board_elements_silent g) as [-> | ->]; [|done].
  rewrite bind_ret.
  destruct (draw_pieces_silent g) as [-> | ->]; [|done].
  rewrite bind_ret, (bind_need _ _ _ Hs). cbv zeta.
  set (ga := set_available_moves (Some (get_available_moves s)) g).
  assert (Hturn' : is_human_turn ga s = true) by done.
  rewrite Hturn'. unfold handle_human_moves.
  rewrite (bind_need _ (get_available_moves s)) by done.
  rewrite (bind_need _ s) by done.
  destruct (draw_selected_moves_silent (selected_moves ga) s) as [-> | ->]; [|done].
  rewrite bind_ret. cbn [human_events].
  assert (Hback' : back_pressed (get_back_button ga) x y = None) by done.
  rewrite Hback'. rewrite (bind_need _ s) by done.
  rewrite bind_need_None; [done|].
  unfold py_index2. rewrite py_index_beyond; [done|].
  apply Z.div_le_lower_bound; lia.
Qed.

(** *** The texts of the playing screen *)

Lemma fmap_imap_blit_text (f : nat → string * (Z * Z * Z) → Blit) l :
  (∀ i x, blit_text (f i x) = x) → blit_text <$> imap f l = l.
Proof.
  revert f. induction l as [|a l IH]; intros f Hf; simpl; [done|].
  rewrite Hf. f_equal. apply IH. intros i x. apply Hf.
Qed.

(** In a human turn the hint to press Enter for a pass is drawn exactly when
    Enter passes: the hint is among the texts if and only if [PassMove] is
    available in the state of the frame, in which case Enter executes it;
    when it is absent Enter is skipped. *)
Theorem pass_hint_iff_enter_passes g s blits back evs :
  game_state g = Some s →
  is_human_turn g s = true →
  let ga := set_available_moves (Some (get_available_moves s)) g in
  draw_playing_text ga = ([], Ok blits) →
  (pass_hint blits ↔ PassMove ∈ get_available_moves s) ∧
  human_events back (K_RETURN :: evs) ga
  = if decide (pass_hint blits)
    then execute_human_move ga PassMove
    else human_events back evs ga.
Proof.
  intros Hs Hturn ga Hdraw.
  assert (Hiff : pass_hint blits ↔ PassMove ∈ get_available_moves s).
  { unfold draw_playing_text in Hdraw.
    rewrite (bind_need _ s) in Hdraw by done.
    unfold is_human_turn in Hturn.
    apply bind_Ok_inv in Hdraw as (t1 & texts & t2 & Htexts & Hrest & _).
    assert (Hnames : blit_text <$> blits = texts).
    { destruct texts as [|text texts]; [by injection Hrest as _ <-|].
      apply bind_Ok_inv in Hrest as (t3 & w & t4 & _ & Hrest & _).
      apply bind_Ok_inv in Hrest as (t5 & h & t6 & _ & Hrest & _).
      injection Hrest as _ <-. simpl. f_equal. by apply fmap_imap_blit_text. }
    assert (Hhint : pass_hint blits
                    ↔ Exists (λ text, text.1 = (get_pass_move_text WHITE_COLOR).1) texts).
    { rewrite <- Hnames. unfold pass_hint. by rewrite Exists_fmap. }
    rewrite Hhint. clear Hrest Hnames Hhint.
    assert (Hcases : ∃ turn_text color,
      texts = [turn_text]
              ++ (if decide (PassMove ∈ get_available_moves s)
                  then [get_pass_move_text color] else []) ∧
      turn_text.1 ≠ (get_pass_move_text WHITE_COLOR).1).
    { apply orb_true_iff in Hturn as [Hturn|Hturn];
        apply andb_true_iff in Hturn as [Hm Hp];
        apply bool_decide_eq_true in Hm; apply bool_decide_eq_true in Hp.
      - rewrite decide_False in Htexts by (rewrite Hp; done).
        rewrite decide_True in Htexts by done.
        rewrite decide_True in Htexts by done.
        rewrite (bind_need _ (get_available_moves s)) in Htexts by done.
        injection Htexts as _ <-. by exists get_white_move_text, WHITE_COLOR.
      - rewrite decide_True in Htexts by done.
        rewrite decide_True in Htexts by done.
        rewrite (bind_need _ (get_available_moves s)) in Htexts by done.
        injection Htexts as _ <-. by exists get_black_move_text, BLACK_COLOR. }
    destruct Hcases as (turn_text & color & -> & Hne).
    clear Htexts.
    destruct (decide (PassMove ∈ get_available_moves s)); simpl;
      rewrite ?Exists_cons, ?Exists_nil; simpl.
    - split; [done|]. intros _. by right; left.
    - split; [|done]. by intros [?|[]]. }
  split; [done|].
  cbn [human_events]. rewrite (bind_need _ (get_available_moves s)) by done.
  destruct (decide (PassMove ∈ get_available_moves s)) as [Hp|Hp];
    destruct (decide (pass_hint blits)) as [Hc|Hc]; try done; exfalso; tauto.
Qed.

(** The texts of the playing screen fit the canvas: at most two lines are
    drawn, centred across the board, in the 40 pixels the canvas has below
    the last row. *)
Theorem playing_texts_fit_canvas g w h t blits :
  width g = Some w → height g = Some h →
  draw_playing_text g = (t, Ok blits) →
  t = [] ∧ (length blits ≤ 2)%nat ∧
  Forall (λ b, (blit_center b).1 = (w * 70) `div` 2 ∧
               h * 70 < (blit_center b).2 < get_canvas_height h) blits.
Proof.
  intros Hw Hh. unfold draw_playing_text.
  intros (t1 & s & t2 & [_ ->]%need_Ok_inv & Hrest & ->)%bind_Ok_inv.
  apply bind_Ok_inv in Hrest as (t3 & texts & t4 & Htexts & Hrest & ->).
  assert (Hlen : t3 = [] ∧ (length texts ≤ 2)%nat).
  { repeat case_decide; try (injection Htexts as <- <-; simpl; split; [done|lia]).
    all: apply bind_Ok_inv in Htexts as (t5 & avail & t6 & [_ ->]%need_Ok_inv & Heq & ->).
    all: injection Heq as <- <-; split; [done|].
    all: case_decide; simpl; lia. }
  destruct Hlen as [-> Hlen].
  destruct texts as [|a [|b [|c texts]]]; [| | |simpl in Hlen; lia].
  - injection Hrest as <- <-. by split_and!.
  - rewrite (bind_need _ _ _ Hw), (bind_need _ _ _ Hh) in Hrest.
    injection Hrest as <- <-. split_and!; [done|simpl; lia|].
    repeat constructor; simpl; unfold get_canvas_height; lia.
  - rewrite (bind_need _ _ _ Hw), (bind_need _ _ _ Hh) in Hrest.
    injection Hrest as <- <-. split_and!; [done|simpl; lia|].
    repeat constructor; simpl; unfold get_canvas_height; lia.
Qed.

(** *** The buttons *)

(** Every supported size and every mode has exactly one button: the size
    buttons stand on a 70 pixel grid by column and row, the mode buttons in
    a column by their value in the enum, all inside the default canvas. *)
Theorem every_choice_has_one_button :
  (∀ col row, 5 ≤ col ≤ 10 → 5 ≤ row ≤ 10 →
     filter (λ b, action b = SizeSelAction col row) size_sel_buttons
     = [mkButton ((col - 4) * 70) ((row - 4) * 70) None (SizeSelAction col row)]) ∧
  (∀ mode,
     filter (λ b, action b = ModeSelAction mode) mode_sel_buttons
     = [mkButton 245 ((PlayerModes_value mode + 2) * 40) (Some 245)
                 (ModeSelAction mode)]) ∧
  Forall (λ b, 0 < btn_x b < get_default_canvas_width ∧
               0 < btn_y b < get_default_canvas_height)
         (size_sel_buttons ++ mode_sel_buttons).
Proof.
  split_and!.
  - intros col row Hcol Hrow.
    assert (Hc : col ∈ [5; 6; 7; 8; 9; 10]).
    { rewrite !elem_of_cons. lia. }
    assert (Hr : row ∈ [5; 6; 7; 8; 9; 10]).
    { rewrite !elem_of_cons. lia. }
    clear Hcol Hrow.
    repeat (apply elem_of_cons in Hc as [->|Hc]);
      [..|by apply elem_of_nil in Hc];
      repeat (apply elem_of_cons in Hr as [->|Hr]);
      try (by apply elem_of_nil in Hr); vm_compute; reflexivity.
  - intros []; vm_compute; reflexivity.
  - apply Forall_forall. intros b Hb. vm_compute in Hb.
    repeat (apply elem_of_cons in Hb as [->|Hb]); try (by apply elem_of_nil in Hb).
    all: vm_compute; split; split; reflexivity.
Qed.

(** *** The game-over screen and the start of a game *)

(** The game-over screen calls no collaborator and changes nothing until the
    back button is pressed; the back button then leads to the size screen
    with the sizes, the modes, the stored winner and the selected piece
    reset, and the game state, the algorithm objects and the selected moves
    as they were. *)
Theorem game_over_waits_for_back g fr t g' :
  window_state g = GAME_OVER →
  play_iteration g fr = (t, Ok g') →
  t = [] ∧
  (g' = g
   ∨ (∃ x y, MOUSEBUTTONDOWN x y ∈ events fr) ∧
     g' = mkGame BOARD_SIZE_SEL None None None (game_state g) EMPTY None None
                 (available_moves g) (white_alg g) (black_alg g)
                 (selected_moves g)).
Proof.
  intros Hw. unfold play_iteration. rewrite Hw.
  intros [[-> ->]|(x & y & a & Hin & Hback & Hact)]%game_over_effect.
  { split; [done|by left]. }
  apply back_pressed_action in Hback. rewrite Hw in Hback.
  injection Hback as <-. injection Hact as <- <-.
  split; [done|]. right. split; [by exists x, y|done].
Qed.

Lemma mode_sel_button_action_started mode g t g' :
  window_state g = BLACK_MODE_SEL →
  mode_sel_button_action mode g = (t, Ok g') →
  ∃ w h, width g = Some w ∧ height g = Some h ∧ started w h g'.
Proof.
  intros Hw. unfold mode_sel_button_action.
  rewrite decide_False by (rewrite Hw; done). rewrite decide_True by done.
  intros (t1 & u & t2 & _ & Hrest & ->)%bind_Ok_inv.
  apply bind_Ok_inv in Hrest as (t3 & w & t4 & [Hwd _]%need_Ok_inv & Hrest & _).
  apply bind_Ok_inv in Hrest as (t5 & h & t6 & [Hht _]%need_Ok_inv & [= _ <-] & _).
  by exists w, h.
Qed.

Lemma press_all_started buttons x y g t g' :
  Forall (λ b, ∃ mode, action b = ModeSelAction mode) buttons →
  window_state g = BLACK_MODE_SEL →
  press_all buttons x y g = (t, Ok g') →
  g' = g ∨ ∃ w h, width g = Some w ∧ height g = Some h ∧ started w h g'.
Proof.
  intros Hall. revert g t. induction Hall as [|b bs [mode Hb] _ IH]; intros g t Hw;
    cbn [press_all].
  { intros [= _ <-]. by left. }
  destruct (mouse_collision b x y); [|by apply IH].
  intros (t1 & g1 & t2 & Hact & Hrest & ->)%bind_Ok_inv.
  rewrite Hb in Hact. simpl in Hact.
  pose proof (mode_sel_button_action_effect _ _ _ _ Hact) as (Hw1 & Hwd & Hht & _).
  apply mode_sel_button_action_started in Hact as (w & h & ? & ? & ?); [|done].
  right. exists w, h. split_and!; try done.
  apply IH in Hrest as [->|(w' & h' & Hw' & Hh' & ?)]; [done| |congruence].
  by replace w with w' by congruence; replace h with h' by congruence.
Qed.

Lemma mode_sel_events_started back evs g t g' :
  window_state g = BLACK_MODE_SEL →
  mode_sel_events back evs g = (t, Ok (Finished g')) →
  g' = g ∨ ∃ w h, width g = Some w ∧ height g = Some h ∧ started w h g'.
Proof.
  revert g t. induction evs as [|e evs IH]; intros g t Hw; cbn [mode_sel_events].
  { intros [= _ <-]. by left. }
  destruct e; try (by apply IH); [done|].
  intros (t1 & g1 & t2 & Hpress & Hrest & ->)%bind_Ok_inv.
  pose proof (press_all_effect _ _ _ _ _ _ mode_sel_buttons_modes Hpress)
    as (Hw1 & Hwd & Hht & _).
  apply press_all_started in Hpress; [|apply mode_sel_buttons_modes|done].
  destruct (back_pressed back x y).
  { by apply bind_Ok_inv in Hrest as (? & ? & ? & _ & [= _ ?] & _). }
  apply IH in Hrest as [->|(w' & h' & Hw' & Hh' & ?)]; [done| |congruence].
  right. exists w', h'. split_and!; congruence.
Qed.

(** A game entered from the black team's mode screen is a fresh one: when
    an iteration on that screen, begun with no black mode chosen, leads to
    the playing screen, the game state is [State(width, height)], the
    available moves are those of that state and no piece is selected.  The
    white team's mode and algorithm object and the selected moves are what
    they were before. *)
Theorem new_game_is_fresh g fr t g' :
  window_state g = BLACK_MODE_SEL → black_mode g = None →
  play_iteration g fr = (t, Ok g') → window_state g' = PLAYING →
  ∃ w h, width g = Some w ∧ height g = Some h ∧
    started w h g' ∧
    white_mode g' = white_mode g ∧ white_alg g' = white_alg g ∧
    selected_moves g' = selected_moves g.
Proof.
  intros Hw Hbm. unfold play_iteration. rewrite Hw. unfold mode_sel.
  intros (t1 & l & t2 & Hev & Hrest & ->)%bind_Ok_inv Hplay.
  destruct l as [g1|g1].
  2:{ injection Hrest as _ <-.
      apply mode_sel_events_effect in Hev
        as (g2 & x & y & a & t' & (Hw2 & _) & _ & Hback & Hact).
      apply back_pressed_action in Hback. rewrite Hw in Hback.
      injection Hback as <-. by injection Hact as _ <-. }
  pose proof (mode_sel_events_effect _ _ _ _ _ Hev)
    as (Hw1 & _ & _ & Hwa & _ & Hsel & _ & Hwm).
  apply mode_sel_events_started in Hev; [|done].
  unfold chosen_on in Hrest.
  rewrite decide_False in Hrest by (rewrite Hw1, Hw; done).
  rewrite decide_True in Hrest by (by rewrite Hw1).
  destruct (black_mode g1) as [bm|] eqn:Hbm1.
  2:{ injection Hrest as _ <-. congruence. }
  destruct Hev as [->|(w & h & Hwd & Hht & Hst)]; [congruence|].
  apply bind_Ok_inv in Hrest as (t3 & alg & t4 & _ & Hrest & _).
  apply bind_Ok_inv in Hrest as (t5 & u & t6 & _ & [= _ <-] & _).
  exists w, h. split_and!; try done. by apply Hwm.
Qed.

(** *** The turn of an automated team *)

Lemma draw_pieces_covers g w h s :
  width g = Some w → height g = Some h → game_state g = Some s →
  covers w h (get_board_matrix s) → draw_pieces g = ret tt.
Proof.
  intros Hw Hh Hs Hcov. unfold draw_pieces.
  rewrite (bind_need _ _ _ Hh), (bind_need _ _ _ Hw), (bind_need _ _ _ Hs).
  case_match eqn:Hall; [done|]. exfalso.
  apply not_true_iff_false in Hall. apply Hall.
  apply forallb_forall. intros row Hrow%list_elem_of_In.
  apply forallb_forall. intros col Hcol%list_elem_of_In.
  apply bool_decide_eq_true.
  unfold py_range in *. apply elem_of_seqZ in Hrow. apply elem_of_seqZ in Hcol.
  apply Hcov; lia.
Qed.

Lemma agrees_tree mode a :
  agrees mode a → is_mcts mode = true → ∃ tree, a = MctsAlg tree.
Proof. destruct mode as [[]|]; try done. Qed.

Lemma agrees_function mode a :
  agrees mode a → is_minimax mode || is_random mode = true →
  a = RandomAlg ∨ ∃ hl depth, a = MinimaxAlg hl depth.
Proof.
  destruct mode as [[]|]; try done; cbv [agrees choose_alg];
    intros Ha _; try (by left); injection Ha as <-; right; by eexists _, _.
Qed.

Lemma agrees_automated mode a :
  agrees mode a → mode ≠ Some HUMAN →
  is_minimax mode || is_random mode = true
  ∨ is_minimax mode || is_random mode = false ∧ is_mcts mode = true.
Proof. destruct mode as [[]|]; try done; intros _ _; (by left) || by right. Qed.

Lemma npc_events_enter back side seed evs g s m s' :
  game_state g = Some s →
  agrees (mode_of g side) (alg_of g side) →
  mode_of g side ≠ Some HUMAN →
  agent_move seed g side s = Some m →
  execute_move s m = Some s' →
  ∃ t g1, npc_events back side seed (K_RETURN :: evs) g
          = (t, Ok (NpcFinished g1 (Some m))) ∧
          game_state g1 = Some s' ∧ keeps g g1 ∧ CExecuteMove s m ∈ t.
Proof.
  intros Hs Hag Hauto Hmove He. cbn [npc_events].
  destruct (agrees_automated _ _ Hag Hauto) as [Hfun|[Hfun Hmcts]]; rewrite Hfun.
  - rewrite (bind_need _ _ _ Hs), alg_call_run.
    unfold agent_move in Hmove.
    destruct (agrees_function _ _ Hag Hfun) as [Ha|(hl & depth & Ha)];
      rewrite Ha in *; rewrite Hmove, bind_Ok, (apply_move_run _ _ _ Hs), He; simpl.
    all: eexists _, _; split_and!; [done|done|apply keeps_set_game_state|].
    all: rewrite !elem_of_cons; eauto.
  - rewrite Hmcts.
    destruct (agrees_tree _ _ Hag Hmcts) as [tree Ha].
    destruct (train_mcts_run seed (mode_of g side) side g Hmcts) as (n & Hn & ->).
    unfold agent_move in Hmove. rewrite Ha, Hn in Hmove. simpl in Hmove.
    rewrite alg_train_until_run, Ha, bind_Ok. cbn [fst snd].
    set (g1 := set_alg side (MctsAlg (train_until seed tree n)) g).
    assert (Ha1 : alg_of g1 side = MctsAlg (train_until seed tree n))
      by apply alg_of_set_alg.
    assert (Hs1 : game_state g1 = Some s) by (unfold g1; by rewrite game_state_set_alg).
    rewrite alg_get_best_move_run, Ha1, Hmove, bind_Ok. cbn [fst snd].
    rewrite (apply_move_run _ _ _ Hs1), He, bind_Ok. cbn [fst snd].
    set (g2 := set_game_state (Some s') g1).
    assert (Ha2 : alg_of g2 side = MctsAlg (train_until seed tree n)).
    { unfold g2, alg_of in *. by destruct (decide (side = WHITE)). }
    rewrite alg_update_move_run, Ha2. simpl.
    eexists _, _. split_and!; [done| | |].
    + by rewrite game_state_set_alg.
    + eapply keeps_trans; [by eapply (keeps_set_tree g side)|].
      eapply keeps_trans; [apply (keeps_set_game_state g1 (Some s'))|].
      by eapply (keeps_set_tree g2 side).
    + rewrite !elem_of_cons. eauto.
Qed.

(** Enter on the turn of an automated team makes the agent's move: from
    every configuration the loop reaches on the playing screen, if the board
    matrix covers the board, the agent of the team to move decides on [m]
    and the rule engine accepts [m], then the frame runs to its end without
    an exception and leaves the game in the state [execute_move] returned,
    whatever events follow Enter. *)
Theorem enter_applies_agent_move g s w h evs seed m s' :
  reachable g → window_state g = PLAYING →
  game_state g = Some s → width g = Some w → height g = Some h →
  covers w h (get_board_matrix s) →
  mode_of g (get_current_npc s) ≠ Some HUMAN →
  agent_move seed g (get_current_npc s) s = Some m →
  execute_move s m = Some s' →
  ∃ t g', board g (K_RETURN :: evs) seed = (t, Ok g') ∧
          game_state g' = Some s' ∧ CExecuteMove s m ∈ t.
Proof.
  intros Hreach Hplay Hs Hw Hh Hcov Hauto Hmove He.
  pose proof (reachable_equipped _ Hreach) as [Hwhite Hblack].
  assert (Hag : ∀ side, side = WHITE ∨ side = BLACK →
                        agrees (mode_of g side) (alg_of g side)).
  { intros side [-> | ->]; unfold mode_of, alg_of; simpl;
      [apply Hwhite|apply Hblack]; rewrite Hplay; auto. }
  assert (Hsides : (get_current_npc s = WHITE ∨ get_current_npc s = BLACK) ∧
                   (get_other_npc s = WHITE ∨ get_other_npc s = BLACK)).
  { unfold get_current_npc, get_other_npc. case_decide; auto. }
  destruct Hsides as [Hcur Hoth].
  assert (Hturn : is_human_turn g s = false).
  { unfold is_human_turn. unfold get_current_npc, mode_of in Hauto.
    destruct (decide (player s = WHITE)) as [Hp|Hp]; simpl in Hauto.
    - rewrite (bool_decide_eq_false_2 _ Hauto). simpl.
      rewrite (bool_decide_eq_false_2 (player s = BLACK)) by (rewrite Hp; done).
      by rewrite andb_false_r.
    - rewrite (bool_decide_eq_false_2 _ Hp), andb_false_r. simpl.
      by rewrite (bool_decide_eq_false_2 _ Hauto). }
  unfold board, draw_static_board_elements.
  rewrite (bind_need _ _ _ Hw), (bind_need _ _ _ Hh), !bind_ret.
  rewrite (draw_pieces_covers _ _ _ _ Hw Hh Hs Hcov), bind_ret.
  rewrite (bind_need _ _ _ Hs). cbv zeta.
  set (ga := set_available_moves (Some (get_available_moves s)) g).
  assert (Hturn' : is_human_turn ga s = false) by done.
  rewrite Hturn'.
  destruct (npc_events_enter (get_back_button g) (get_current_npc s) seed evs ga s m s')
    as (t1 & g1 & Hnpc & Hs1 & Hk1 & Hin); try done.
  { by apply Hag. }
  rewrite Hnpc, bind_Ok. cbn [fst snd].
  destruct (is_mcts (mode_of g1 (get_other_npc s))) eqn:Hmo.
  - assert (Hago : agrees (mode_of g1 (get_other_npc s)) (alg_of g1 (get_other_npc s))).
    { destruct Hk1 as (Hsame & Hkw & Hkb).
      rewrite (mode_of_same ga g1 _ Hsame).
      eapply agrees_same_kind; [by apply (Hag (get_other_npc s))|].
      unfold alg_of. by case_decide. }
    destruct (agrees_tree _ _ Hago Hmo) as [tree Ht].
    rewrite alg_update_move_run, Ht. simpl.
    eexists _, _. split_and!; [done| |].
    + by rewrite game_state_set_alg.
    + apply elem_of_app. by left.
  - simpl. eexists _, _. split_and!; [done|done|]. by rewrite app_nil_r.
Qed.

(** *** The turn of a human *)

Lemma execute_human_move_ok g m s s' :
  game_state g = Some s → execute_move s m = Some s' →
  agrees (white_mode g) (white_alg g) → agrees (black_mode g) (black_alg g) →
  ∃ t g', execute_human_move g m = (t, Ok g') ∧ game_state g' = Some s' ∧
          selected_piece g' = None ∧ selected_moves g' = [] ∧
          CExecuteMove s m ∈ t.
Proof.
  intros Hs He Hw Hb. unfold execute_human_move.
  rewrite (bind_need _ _ _ Hs).
  assert (Hup : ∃ t1 g1,
    (if bool_decide (player s = BLACK) && is_mcts (white_mode g)
     then alg_update_move WHITE m g
     else if bool_decide (player s = WHITE) && is_mcts (black_mode g)
          then alg_update_move BLACK m g
          else ret g) = (t1, Ok g1) ∧ game_state g1 = Some s).
  { destruct (bool_decide (player s = BLACK) && is_mcts (white_mode g)) eqn:H1.
    - apply andb_true_iff in H1 as [_ Hm].
      destruct (agrees_tree _ _ Hw Hm) as [tree Ht].
      rewrite alg_update_move_run. unfold alg_of. simpl. rewrite Ht.
      eexists _, _. split; [done|]. by rewrite game_state_set_alg.
    - destruct (bool_decide (player s = WHITE) && is_mcts (black_mode g)) eqn:H2.
      + apply andb_true_iff in H2 as [_ Hm].
        destruct (agrees_tree _ _ Hb Hm) as [tree Ht].
        rewrite alg_update_move_run. unfold alg_of. simpl. rewrite Ht.
        eexists _, _. split; [done|]. by rewrite game_state_set_alg.
      + by eexists _, _. }
  destruct Hup as (t1 & g1 & -> & Hs1).
  rewrite bind_Ok. cbn [fst snd].
  rewrite (apply_move_run _ _ s) by done. rewrite He, bind_Ok. simpl.
  eexists _, _. split_and!; try done.
  rewrite !elem_of_app, elem_of_cons. eauto.
Qed.

(** Selecting a piece and pressing its destination makes the move.  Take a
    configuration the loop reaches on the playing screen, in a human turn,
    with no selected moves left over, whose board matrix has a cell for every
    row below [height] and column below [width].  Two presses, neither of
    them on the back button, the first on a cell that holds a piece of the
    team to move, the second on an empty cell on which exactly one available
    move of that piece ends, apply that move, provided the rule engine
    accepts it: the frame ends without an exception in the state
    [execute_move] returned, with the selection cleared. *)
Theorem select_then_press_moves g s w h evs seed x1 y1 x2 y2 m s' :
  reachable g → window_state g = PLAYING →
  game_state g = Some s → width g = Some w → height g = Some h →
  covers w h (get_board_matrix s) →
  is_human_turn g s = true → selected_moves g = [] →
  back_pressed (get_back_button g) x1 y1 = None →
  back_pressed (get_back_button g) x2 y2 = None →
  player s ≠ EMPTY →
  py_index2 (get_board_matrix s) (y1 `div` 70) (x1 `div` 70) = Some (player s) →
  py_index2 (get_board_matrix s) (y2 `div` 70) (x2 `div` 70) = Some EMPTY →
  filter (λ m', selects (set_selected_piece (Some (y1 `div` 70, x1 `div` 70)) g)
                        (y2 `div` 70) (x2 `div` 70) m' = true)
         (get_available_moves s) = [m] →
  execute_move s m = Some s' →
  ∃ t g', board g (MOUSEBUTTONDOWN x1 y1 :: MOUSEBUTTONDOWN x2 y2 :: evs) seed
          = (t, Ok g') ∧
          game_state g' = Some s' ∧ selected_piece g' = None ∧
          selected_moves g' = [] ∧ CExecuteMove s m ∈ t.
Proof.
  intros Hreach Hplay Hs Hw Hh Hcov Hturn Hsel Hb1 Hb2 Hp Hc1 Hc2 Hfil He.
  pose proof (reachable_equipped _ Hreach) as [Hwhite Hblack].
  unfold board, draw_static_board_elements.
  rewrite (bind_need _ _ _ Hw), (bind_need _ _ _ Hh), !bind_ret.
  rewrite (draw_pieces_covers _ _ _ _ Hw Hh Hs Hcov), bind_ret.
  rewrite (bind_need _ _ _ Hs). cbv zeta.
  set (ga := set_available_moves (Some (get_available_moves s)) g).
  assert (Hturn' : is_human_turn ga s = true) by done.
  rewrite Hturn'. unfold handle_human_moves.
  rewrite (bind_need _ (get_available_moves s)) by done.
  rewrite (bind_need _ s) by done.
  assert (Hsel' : selected_moves ga = []) by done.
  rewrite Hsel'. cbn [draw_selected_moves]. rewrite bind_ret.
  assert (Hback : get_back_button ga = get_back_button g) by done.
  rewrite Hback. cbn [human_events]. rewrite Hb1.
  rewrite (bind_need _ s) by done. rewrite (bind_need _ _ _ Hc1).
  rewrite decide_True by done. rewrite Hb2.
  rewrite (bind_need _ s) by done. rewrite (bind_need _ _ _ Hc2).
  rewrite decide_False by done. rewrite decide_True by done.
  rewrite (bind_need _ (get_available_moves s)) by done.
  cbv zeta.
  set (g1 := set_selected_moves [] (set_selected_piece (Some (y1 `div` 70, x1 `div` 70)) ga)).
  assert (Hfil' : filter (λ m', selects g1 (y2 `div` 70) (x2 `div` 70) m' = true)
                         (get_available_moves s) = [m]).
  { rewrite <- Hfil. apply list_filter_iff. intros m'. by destruct m'. }
  cbn [selected_moves set_selected_moves]. rewrite Hfil'.
  apply (execute_human_move_ok (set_selected_moves [m] g1) m s s'); try done.
  - simpl. apply Hwhite. rewrite Hplay. auto.
  - simpl. apply Hblack. rewrite Hplay. auto.
Qed.

(** *** Who is called on which screen *)

Lemma size_sel_silent g evs : window_state g = BOARD_SIZE_SEL → (size_sel g evs).1 = [].
Proof.
  intros Hw. unfold size_sel.
  induction evs as [|e evs IH]; cbn [size_sel_events]; [done|].
  destruct e; try done.
  destruct (head (filter (λ b, mouse_collision b x y = true) size_sel_buttons))
    as [b|] eqn:Hhd.
  - apply head_Some_elem_of in Hhd. apply list_elem_of_filter in Hhd as [_ Hb].
    apply size_sel_buttons_supported in Hb as (col & row & -> & _). done.
  - destruct (back_pressed (get_back_button g) x y) eqn:Hback; [|done].
    apply back_pressed_action in Hback. by rewrite Hw in Hback.
Qed.

Lemma game_over_silent g evs : (game_over g evs).1 = [].
Proof.
  unfold game_over.
  destruct (width g); [|done]. rewrite (bind_need _ _ _ eq_refl).
  destruct (height g); [|done]. rewrite (bind_need _ _ _ eq_refl).
  induction evs as [|e evs IH]; cbn [game_over_events]; [done|].
  destruct e; try done.
  destruct (back_pressed (get_back_button g) x y) eqn:Hback; [|done].
  apply back_pressed_action in Hback.
  by destruct (window_state g); simplify_eq/=.
Qed.

Lemma menu_call_chosen g g1 c : chosen g g1 → menu_call g1 c → menu_call g c.
Proof.
  intros (Hw & Hwd & Hht & _). destruct c; simpl; try done; rewrite Hw, Hwd, Hht; done.
Qed.

Lemma mode_sel_button_action_menu mode g :
  Forall (menu_call g) (mode_sel_button_action mode g).1.
Proof.
  unfold mode_sel_button_action. case_decide; [done|]. case_decide; [|done].
  rewrite bind_call. simpl. apply Forall_cons. split; [done|].
  destruct (width g); [|done]. rewrite (bind_need _ _ _ eq_refl).
  destruct (height g); [|done]. by rewrite (bind_need _ _ _ eq_refl).
Qed.

Lemma press_all_menu buttons x y g :
  Forall (λ b, ∃ mode, action b = ModeSelAction mode) buttons →
  Forall (menu_call g) (press_all buttons x y g).1.
Proof.
  intros Hall. revert g. induction Hall as [|b bs [mode Hb] _ IH]; intros g;
    cbn [press_all]; [done|].
  destruct (mouse_collision b x y); [|apply IH].
  rewrite Hb. simpl. rewrite bind_trace. apply Forall_app. split.
  { apply mode_sel_button_action_menu. }
  destruct (mode_sel_button_action mode g) as [t1 [g1| |]] eqn:Hact; simpl; try done.
  apply mode_sel_button_action_effect in Hact.
  eapply Forall_impl; [apply IH|]. intros c. by apply menu_call_chosen.
Qed.

Lemma choose_alg_menu g mode p :
  window_state g = WHITE_MODE_SEL ∧ p = WHITE
  ∨ window_state g = BLACK_MODE_SEL ∧ p = BLACK →
  Forall (menu_call g) (choose_alg g mode p).1.
Proof.
  intros Hp. destruct mode; cbv [choose_alg]; try done.
  all: rewrite bind_call; apply Forall_cons; split; [done|].
  all: destruct (width g); [|done]; rewrite (bind_need _ _ _ eq_refl).
  all: destruct (height g); [|done]; by rewrite (bind_need _ _ _ eq_refl).
Qed.

Lemma mode_sel_events_menu back evs g :
  (∀ b, back = Some b → is_back (action b)) →
  Forall (menu_call g) (mode_sel_events back evs g).1.
Proof.
  intros Hback. revert g. induction evs as [|e evs IH]; intros g;
    cbn [mode_sel_events]; [done|].
  destruct e; try done; try apply IH.
  rewrite bind_trace. apply Forall_app. split.
  { apply press_all_menu, mode_sel_buttons_modes. }
  destruct (press_all mode_sel_buttons x y g) as [t1 [g1| |]] eqn:Hpress; simpl;
    try done.
  apply press_all_effect in Hpress; [|apply mode_sel_buttons_modes].
  destruct (back_pressed back x y) as [a|] eqn:Hp.
  - destruct (back_pressed_run _ _ _ _ g1 Hback Hp) as [_ ->]. done.
  - eapply Forall_impl; [apply IH|]. intros c. by apply menu_call_chosen.
Qed.

Lemma mode_sel_menu g evs :
  window_state g = WHITE_MODE_SEL ∨ window_state g = BLACK_MODE_SEL →
  Forall (menu_call g) (mode_sel g evs).1.
Proof.
  intros Hw. unfold mode_sel. rewrite bind_trace. apply Forall_app. split.
  { apply mode_sel_events_menu, back_button_is_back. }
  destruct (mode_sel_events (get_back_button g) evs g) as [t1 [[g1|g1]| |]] eqn:Hev;
    simpl; try done.
  apply mode_sel_events_effect in Hev. destruct (Hev) as (Hw1 & _).
  eapply Forall_impl; [|intros c; by apply (menu_call_chosen g g1)].
  unfold chosen_on. repeat case_match; try done.
  all: rewrite bind_trace; apply Forall_app; split;
    [apply choose_alg_menu; auto|].
  all: destruct (choose_alg _ _ _) as [t2 [alg| |]]; simpl; try done.
  all: simpl; by destruct (change_canvas_size_silent (width g1) (height g1))
    as [-> | ->].
Qed.

(** Which of the recorded calls each screen makes.  The calls recorded are
    [State(...)], [from_player(...)], [check_winner], [execute_move], an
    algorithm called on a state, [train_until], [get_best_move] and
    [update_move]; reading [get_available_moves()] or [get_board_matrix()]
    and building a minimax closure or a [HeuristicsList] are not recorded.
    Of the recorded calls the size and game-over screens make none; a mode
    screen only builds, on the sizes of the window, the tree of its team
    and, on the black team's screen, the game state; the playing screen asks
    [check_winner] first and then only calls [execute_move] and the agents. *)
Theorem calls_by_screen g fr t r :
  play_iteration g fr = (t, r) →
  match window_state g with
  | BOARD_SIZE_SEL | GAME_OVER => t = []
  | WHITE_MODE_SEL | BLACK_MODE_SEL => Forall (menu_call g) t
  | PLAYING =>
      t = [] ∨ ∃ s t', game_state g = Some s ∧ t = CCheckWinner s :: t' ∧
                       Forall game_call t'
  end.
Proof.
  intros Hrun. assert (Ht : t = (play_iteration g fr).1) by by rewrite Hrun.
  clear Hrun. subst t. unfold play_iteration.
  destruct (window_state g) eqn:Hw.
  - by apply size_sel_silent.
  - apply mode_sel_menu. auto.
  - apply mode_sel_menu. auto.
  - destruct (game_state g) as [s|] eqn:Hs; [|by left].
    right. exists s. rewrite (bind_need _ _ _ eq_refl), bind_call. cbn [fst].
    eexists. split_and!; [done|done|].
    case_decide; [done|].
    destruct (board _ _ _) as [t1 r1] eqn:Hboard.
    apply (board_calls _ _ _ s) in Hboard as (full & Hfull & Hpre & _); [|done].
    eapply prefix_Forall; [done|]. by eapply frame_calls_game.
  - apply game_over_silent.
Qed.

(** *** The trees over a whole game *)

Lemma executed_app t1 t2 : executed (t1 ++ t2) = executed t1 ++ executed t2.
Proof. apply omap_app. Qed.

Lemma updated_app side t1 t2 :
  updated side (t1 ++ t2) = updated side t1 ++ updated side t2.
Proof. apply omap_app. Qed.

Lemma executed_mcts_updates g s m : executed (mcts_updates g s m) = [].
Proof.
  unfold mcts_updates, mcts_update. rewrite executed_app.
  by repeat case_match.
Qed.

Lemma updated_mcts_updates g s m side :
  side = WHITE ∨ side = BLACK → is_mcts (mode_of g side) = true →
  updated side (mcts_updates g s m) = [m].
Proof.
  intros Hside Hm. unfold mcts_updates, mcts_update, get_current_npc, get_other_npc.
  rewrite updated_app.
  destruct Hside as [-> | ->]; case_decide; rewrite ?Hm; simpl; by repeat case_match.
Qed.

Lemma frame_calls_updated g s full side :
  frame_calls g s full →
  side = WHITE ∨ side = BLACK → is_mcts (mode_of g side) = true →
  updated side full = executed full.
Proof.
  intros Hfull Hside Hm. destruct Hfull as [|m _|m _ _|m n _ _ _].
  - done.
  - rewrite updated_app, executed_app, executed_mcts_updates,
      (updated_mcts_updates _ _ _ _ Hside Hm). done.
  - change (CAlg (get_current_npc s) s :: CExecuteMove s m :: mcts_updates g s m)
      with ([CAlg (get_current_npc s) s; CExecuteMove s m] ++ mcts_updates g s m).
    rewrite updated_app, executed_app, executed_mcts_updates,
      (updated_mcts_updates _ _ _ _ Hside Hm). done.
  - change (CTrainUntil (get_current_npc s) n :: CGetBestMove (get_current_npc s)
              :: CExecuteMove s m :: mcts_updates g s m)
      with ([CTrainUntil (get_current_npc s) n; CGetBestMove (get_current_npc s);
             CExecuteMove s m] ++ mcts_updates g s m).
    rewrite updated_app, executed_app, executed_mcts_updates,
      (updated_mcts_updates _ _ _ _ Hside Hm). done.
Qed.

Lemma no_back_pressed g fr x y a :
  no_back fr → MOUSEBUTTONDOWN x y ∈ events fr →
  back_pressed (get_back_button g) x y = Some a → False.
Proof.
  intros Hno Hin Hback.
  destruct (get_back_button g) as [b|] eqn:Hg; [|done].
  assert (Hbb : b ∈ back_buttons).
  { unfold get_back_button in Hg. destruct (window_state g); try done;
      by apply list_elem_of_lookup_2 in Hg. }
  simpl in Hback. by rewrite (Hno x y b Hin Hbb) in Hback.
Qed.

Lemma play_iteration_game g fr t g' side :
  window_state g = PLAYING ∨ window_state g = GAME_OVER →
  side = WHITE ∨ side = BLACK → is_mcts (mode_of g side) = true →
  no_back fr → play_iteration g fr = (t, Ok g') →
  updated side t = executed t ∧ mode_of g' side = mode_of g side ∧
  (window_state g' = PLAYING ∨ window_state g' = GAME_OVER).
Proof.
  intros Hw Hside Hm Hno Hrun. unfold play_iteration in Hrun.
  destruct Hw as [Hw|Hw]; rewrite Hw in Hrun.
  - apply bind_Ok_inv in Hrun as (t1 & s & t2 & [Hs ->]%need_Ok_inv & Hrest & ->).
    rewrite bind_call in Hrest. cbn [fst snd] in Hrest.
    case_decide.
    { injection Hrest as <- <-. split_and!; [done|done|by right]. }
    destruct (board _ _ _) as [t3 r] eqn:Hboard.
    injection Hrest as <- ->. simpl.
    set (g0 := set_winner (check_winner s) g) in *.
    assert (Hs0 : game_state g0 = Some s) by done.
    assert (Hm0 : is_mcts (mode_of g0 side) = true) by done.
    destruct (board_calls _ _ _ _ _ _ Hs0 Hboard) as (full & Hfull & _ & Hok).
    destruct (Hok g' eq_refl) as [-> _].
    split; [by apply (frame_calls_updated g0 s)|].
    destruct (board_effect _ _ _ _ _ _ Hs0 Hboard)
      as [(g1 & Hre & _ & ->)
         |[(g1 & x & y & a & _ & Hin & Hback & _)
          |(m & s' & _ & _ & (Hsame & _) & _)]].
    + apply refreshed_keeps in Hre as (Hsame & _).
      split; [by rewrite (mode_of_same g0 g1)|].
      left. destruct Hsame as (-> & _). done.
    + exfalso. by eapply (no_back_pressed g0 fr).
    + split; [by rewrite (mode_of_same g0 g')|].
      left. destruct Hsame as (-> & _). done.
  - apply game_over_effect in Hrun as [[-> ->]|(x & y & a & Hin & Hback & _)].
    + split_and!; [done|done|by right].
    + exfalso. by eapply no_back_pressed.
Qed.

(** The trees follow the game: over any stretch of the main loop that
    starts on the playing screen and in which no press lands on a back
    button, the moves handed to [update_move] on the tree of a team playing
    an MCTS mode are, in order, exactly the moves handed to [execute_move],
    whoever made them. *)
Theorem trees_follow_the_game g frames t g' side :
  window_state g = PLAYING →
  side = WHITE ∨ side = BLACK → is_mcts (mode_of g side) = true →
  Forall no_back frames →
  play g frames = (t, Ok g') →
  updated side t = executed t.
Proof.
  intros Hw Hside Hm Hno Hrun.
  assert (Hw' : window_state g = PLAYING ∨ window_state g = GAME_OVER) by by left.
  clear Hw. revert g t Hw' Hm Hrun.
  induction Hno as [|fr frames Hfr _ IH]; intros g t Hw Hm; cbn [play].
  { by intros [= <- <-]. }
  intros (t1 & g1 & t2 & Hit & Hrest & ->)%bind_Ok_inv.
  destruct (play_iteration_game _ _ _ _ _ Hw Hside Hm Hfr Hit) as (Heq & Hm1 & Hw1).
  rewrite updated_app, executed_app, Heq. f_equal.
  apply (IH g1); [done| |done]. by rewrite Hm1.
Qed.

(** *** What is drawn and where presses land *)

Ltac pair_eq :=
  repeat match goal with
         | |- (_, _) = (_, _) => apply (f_equal2 pair)
         end; lia.

(** The lines of the board: every line [draw_static_board_elements] draws
    runs down a column, across a row, or joins two diagonal neighbours that
    are both strong intersections (column plus row even); and from every
    strong intersection the diagonals to both neighbours of the next row are
    drawn. *)
Theorem diagonals_join_strong_points w h :
  (∀ seg, seg ∈ static_board_lines w h →
     (∃ i, 0 ≤ i < w ∧ seg = (point i 0, point i (h - 1)))
     ∨ (∃ j, 0 ≤ j < h ∧ seg = (point 0 j, point (w - 1) j))
     ∨ (∃ a b a', seg = (point a b, point a' (b + 1)) ∧
          0 ≤ a < w ∧ 0 ≤ a' < w ∧ 0 ≤ b ∧ b + 1 < h ∧
          (a' = a + 1 ∨ a' = a - 1) ∧ strong a b ∧ strong a' (b + 1))) ∧
  (∀ a b a', 0 ≤ a < w → 0 ≤ a' < w → 0 ≤ b → b + 1 < h →
     a' = a + 1 ∨ a' = a - 1 → strong a b →
     (point a b, point a' (b + 1)) ∈ static_board_lines w h).
Proof.
  unfold static_board_lines, point, strong, py_range. split.
  - intros seg. rewrite !elem_of_app, !list_elem_of_bind.
    intros [(i & Hseg & Hi)|[(j & Hseg & Hj)|(i & Hseg & Hi)]].
    + apply list_elem_of_singleton in Hseg as ->. apply elem_of_seqZ in Hi.
      left. exists i. split; [lia|]. pair_eq.
    + apply list_elem_of_singleton in Hseg as ->. apply elem_of_seqZ in Hj.
      right; left. exists j. split; [lia|]. pair_eq.
    + apply list_elem_of_bind in Hseg as (j & Hseg & Hj).
      apply list_elem_of_singleton in Hseg as ->.
      apply elem_of_seqZ in Hi. apply elem_of_seqZ in Hj.
      right; right. case_decide as Hpar.
      * exists i, j, (i + 1). split; [pair_eq|].
        split_and!; try lia. revert Hpar. clear. intros Hpar.
        replace (i + 1 + (j + 1)) with (i + j + 1 * 2) by lia.
        by rewrite Z.mod_add.
      * exists (i + 1), j, i. split; [pair_eq|].
        split_and!; try lia.
        -- pose proof (Z.mod_pos_bound (i + j) 2 ltac:(lia)).
           replace (i + 1 + j) with (i + j + 1) by lia.
           rewrite <- Zplus_mod_idemp_l.
           replace ((i + j) `mod` 2) with 1 by lia. done.
        -- pose proof (Z.mod_pos_bound (i + j) 2 ltac:(lia)).
           replace (i + (j + 1)) with (i + j + 1) by lia.
           rewrite <- Zplus_mod_idemp_l.
           replace ((i + j) `mod` 2) with 1 by lia. done.
  - intros a b a' Ha Ha' Hb Hb' Hnext Hstrong.
    rewrite !elem_of_app. right; right.
    destruct Hnext as [-> | ->].
    + apply list_elem_of_bind. exists a. split; [|apply elem_of_seqZ; lia].
      apply list_elem_of_bind. exists b. split; [|apply elem_of_seqZ; lia].
      rewrite decide_True by done. apply list_elem_of_singleton.
      pair_eq.
    + apply list_elem_of_bind. exists (a - 1). split; [|apply elem_of_seqZ; lia].
      apply list_elem_of_bind. exists b. split; [|apply elem_of_seqZ; lia].
      rewrite decide_False.
      * apply list_elem_of_singleton. pair_eq.
      * pose proof (Z.mod_pos_bound (a - 1 + b) 2 ltac:(lia)).
        intros Hpar. replace (a + b) with (a - 1 + b + 1) in Hstrong by lia.
        rewrite <- Zplus_mod_idemp_l, Hpar in Hstrong. done.
Qed.

Lemma div_70_center c d : -35 ≤ d < 35 → (70 * c + 35 + d) `div` 70 = c.
Proof.
  intros Hd. symmetry. apply (Z.div_unique _ 70 c (35 + d)); lia.
Qed.

Lemma piece_circles_elem m w h circles color cx cy :
  piece_circles m w h = Some circles →
  (color, (cx, cy)) ∈ circles →
  ∃ row col v, py_index2 m row col = Some v ∧ cx = 70 * col + 35 ∧
               cy = 70 * row + 35 ∧
               (v = WHITE ∧ color = WHITE_COLOR ∨ v = BLACK ∧ color = BLACK_COLOR).
Proof.
  unfold piece_circles. intros (k & Hk & ->)%fmap_Some.
  intros (l & Hc & Hl)%list_elem_of_join.
  apply mapM_Some_1 in Hk.
  apply list_elem_of_lookup in Hl as [i Hi].
  destruct (Forall2_lookup_r _ _ _ _ _ Hk Hi) as ([row col] & _ & Hcell).
  simpl in Hcell. unfold piece_circle in Hcell.
  apply bind_Some in Hcell as (v & Hv & [= <-]).
  exists row, col, v. split; [done|].
  repeat case_decide.
  - apply list_elem_of_singleton in Hc. injection Hc as -> -> ->. auto.
  - apply list_elem_of_singleton in Hc. injection Hc as -> -> ->. auto.
  - by apply elem_of_nil in Hc.
Qed.

(** A press on a drawn piece selects it: in a human turn, if [draw_pieces]
    draws a circle in the colour of the team to move, a press inside that
    circle (radius 30), not on the back button, makes the piece of that
    cell the selected piece and clears the selected moves. *)
Theorem press_on_piece_selects_it g s w h circles cx cy x y back evs :
  game_state g = Some s → player s ≠ EMPTY →
  piece_circles (get_board_matrix s) w h = Some circles →
  (piece_color (player s), (cx, cy)) ∈ circles →
  (x - cx) * (x - cx) + (y - cy) * (y - cy) ≤ 30 * 30 →
  back_pressed back x y = None →
  human_events back (MOUSEBUTTONDOWN x y :: evs) g
  = human_events back evs
      (set_selected_moves []
         (set_selected_piece (Some (cy `div` 70, cx `div` 70)) g)).
Proof.
  intros Hs Hp Hcircles Hin Hdist Hback.
  destruct (piece_circles_elem _ _ _ _ _ _ _ Hcircles Hin)
    as (row & col & v & Hv & -> & -> & Hcol).
  assert (Hvp : v = player s).
  { unfold piece_color, WHITE_COLOR, BLACK_COLOR in Hcol.
    destruct Hcol as [[-> Hc]|[-> Hc]]; case_decide; try done.
    by destruct (player s). }
  assert (Hxy : -30 ≤ x - (70 * col + 35) ≤ 30 ∧ -30 ≤ y - (70 * row + 35) ≤ 30).
  { revert Hdist. generalize (x - (70 * col + 35)) (y - (70 * row + 35)).
    intros dx dy Hdist.
    pose proof (Z.square_nonneg dx). pose proof (Z.square_nonneg dy).
    split; nia. }
  destruct Hxy as [Hx Hy].
  assert (Hxd : x `div` 70 = col).
  { replace x with (70 * col + 35 + (x - (70 * col + 35))) by lia.
    apply div_70_center. lia. }
  assert (Hyd : y `div` 70 = row).
  { replace y with (70 * row + 35 + (y - (70 * row + 35))) by lia.
    apply div_70_center. lia. }
  assert (Hcd : (70 * col + 35) `div` 70 = col).
  { replace (70 * col + 35) with (70 * col + 35 + 0) by lia.
    apply div_70_center. lia. }
  assert (Hrd : (70 * row + 35) `div` 70 = row).
  { replace (70 * row + 35) with (70 * row + 35 + 0) by lia.
    apply div_70_center. lia. }
  cbn [human_events]. rewrite Hback, (bind_need _ _ _ Hs), Hxd, Hyd, Hcd, Hrd.
  rewrite (bind_need _ _ _ Hv). by rewrite decide_True.
Qed.

End MoreFacts.
End UIMore.

(** ** The theorems on the reference instance *)

Module Scenarios.
Import UI UISpec Fixture.

Lemma mandatory_capture_witness :
  (∃ m, m ∈ Rules.get_available_moves opening_state ∧ is_capture m = true) ∧
  ∀ m', m' ∈ Rules.get_available_moves opening_state →
        is_quiet m' = false ∧ m' ≠ PassMove.
Proof.
  assert (Hcap : ∃ m, m ∈ Rules.get_available_moves opening_state
                      ∧ is_capture m = true).
  { exists capture_right. split; [compute_done|reflexivity]. }
  split; [exact Hcap|exact (RulesFacts.mandatory_capture opening_state Hcap)].
Defined.

Lemma reachable_counts_witness :
  Rules.reachable 5 5 opening_state ∧
  (Z.of_nat (Rules.count_cells WHITE (Rules.board opening_state)
             + Rules.count_cells BLACK (Rules.board opening_state)
             + Rules.count_cells EMPTY (Rules.board opening_state)) = 5 * 5 ∧
   ∀ m s', Rules.execute_move opening_state m = Some s' →
     (Rules.occupied (Rules.board s') ≤ Rules.occupied (Rules.board opening_state))%nat ∧
     (is_capture m = true →
      (Rules.occupied (Rules.board s') < Rules.occupied (Rules.board opening_state))%nat) ∧
     (is_capture m = false →
      Rules.occupied (Rules.board s') = Rules.occupied (Rules.board opening_state))).
Proof.
  assert (Hreach : Rules.reachable 5 5 opening_state).
  { apply Rules.reach_init; [|discriminate].
    unfold Rules.rectangular. split_and!; [lia|lia|reflexivity|].
    vm_compute. repeat constructor. }
  split; [exact Hreach|exact (RulesFacts.reachable_counts 5 5 opening_state Hreach)].
Defined.

Lemma update_move_before_human_move :
  ¬ updated_after human_against_tree
      (board human_against_tree first_capture 0%nat).1.
Proof.
  intros Hc.
  specialize (Hc [CUpdateMove BLACK capture_right] opening_state capture_right
                 [] BLACK).
  assert (Hin : CUpdateMove BLACK capture_right ∈ @nil Call).
  { apply Hc; compute_done. }
  by apply elem_of_nil in Hin.
Qed.

Lemma update_move_around_applied_move_witness :
  game_state human_against_tree = Some opening_state ∧
  board human_against_tree first_capture 0%nat
  = ([CUpdateMove BLACK capture_right; CExecuteMove opening_state capture_right],
     Ok (result (board human_against_tree first_capture 0%nat))) ∧
  CExecuteMove opening_state capture_right
  ∈ [CUpdateMove BLACK capture_right; CExecuteMove opening_state capture_right] ∧
  (opening_state = opening_state ∧
   (∀ side, CUpdateMove side capture_right
              ∈ mcts_updates human_against_tree opening_state capture_right ↔
            (side = WHITE ∨ side = BLACK) ∧
            is_mcts (mode_of human_against_tree side) = true) ∧
   NoDup (mcts_updates human_against_tree opening_state capture_right) ∧
   if is_human_turn human_against_tree opening_state
   then [CUpdateMove BLACK capture_right; CExecuteMove opening_state capture_right]
        = mcts_updates human_against_tree opening_state capture_right
          ++ [CExecuteMove opening_state capture_right]
   else ∃ pre,
       [CUpdateMove BLACK capture_right; CExecuteMove opening_state capture_right]
       = pre ++ CExecuteMove opening_state capture_right
             :: mcts_updates human_against_tree opening_state capture_right ∧
       (pre = [CAlg (get_current_npc opening_state) opening_state]
        ∨ ∃ n, pre = [CTrainUntil (get_current_npc opening_state) n;
                      CGetBestMove (get_current_npc opening_state)])).
Proof.
  assert (H1 : game_state human_against_tree = Some opening_state)
    by compute_done.
  assert (H2 : board human_against_tree first_capture 0%nat
               = ([CUpdateMove BLACK capture_right;
                   CExecuteMove opening_state capture_right],
                  Ok (result (board human_against_tree first_capture 0%nat))))
    by compute_done.
  assert (H3 : CExecuteMove opening_state capture_right
               ∈ [CUpdateMove BLACK capture_right;
                  CExecuteMove opening_state capture_right])
    by (apply list_elem_of_further, list_elem_of_here).
  exact (conj H1 (conj H2 (conj H3
           (UIFacts.update_move_around_applied_move _ _ _ _ _ _ _ _ H1 H2 H3)))).
Defined.

Lemma tree_not_called_on_state :
  ¬ decided_by_call tree_against_random opening_state
      (board tree_against_random [K_RETURN] 0%nat).1.
Proof.
  intros Hc.
  assert (Hin : CAlg (get_current_npc opening_state) opening_state
                ∈ [CTrainUntil WHITE 100; CGetBestMove WHITE]).
  { apply (Hc eq_refl _ first_available [CUpdateMove WHITE first_available]).
    compute_done. }
  apply elem_of_cons in Hin as [Hin|Hin]; [discriminate Hin|].
  apply elem_of_cons in Hin as [Hin|Hin]; [discriminate Hin|].
  by apply elem_of_nil in Hin.
Qed.

Lemma automated_move_contracts_witness :
  game_state tree_against_random = Some opening_state ∧
  board tree_against_random [K_RETURN] 0%nat
  = ([CTrainUntil WHITE 100; CGetBestMove WHITE;
      CExecuteMove opening_state first_available;
      CUpdateMove WHITE first_available],
     Ok (result (board tree_against_random [K_RETURN] 0%nat))) ∧
  is_human_turn tree_against_random opening_state = false ∧
  CExecuteMove opening_state first_available
  ∈ [CTrainUntil WHITE 100; CGetBestMove WHITE;
     CExecuteMove opening_state first_available;
     CUpdateMove WHITE first_available] ∧
  (opening_state = opening_state ∧
   (∃ s', execute_move opening_state first_available = Some s' ∧
          game_state (result (board tree_against_random [K_RETURN] 0%nat))
          = Some s') ∧
   ((is_minimax (mode_of tree_against_random (get_current_npc opening_state))
     || is_random (mode_of tree_against_random (get_current_npc opening_state))
     = true ∧
     alg_answer 0%nat (alg_of tree_against_random (get_current_npc opening_state))
       opening_state = Some first_available ∧
     ∃ post, [CTrainUntil WHITE 100; CGetBestMove WHITE;
              CExecuteMove opening_state first_available;
              CUpdateMove WHITE first_available]
             = CAlg (get_current_npc opening_state) opening_state
                 :: CExecuteMove opening_state first_available :: post)
    ∨ (is_mcts (mode_of tree_against_random (get_current_npc opening_state)) = true ∧
       (∀ side' s', CAlg side' s'
                    ∉ [CTrainUntil WHITE 100; CGetBestMove WHITE;
                       CExecuteMove opening_state first_available;
                       CUpdateMove WHITE first_available]) ∧
       ∃ tree n post,
         alg_of tree_against_random (get_current_npc opening_state)
         = MctsAlg tree ∧
         mcts_budget (mode_of tree_against_random (get_current_npc opening_state))
         = Some n ∧
         get_best_move (train_until 0%nat tree n) = Some first_available ∧
         [CTrainUntil WHITE 100; CGetBestMove WHITE;
          CExecuteMove opening_state first_available;
          CUpdateMove WHITE first_available]
         = CTrainUntil (get_current_npc opening_state) n
             :: CGetBestMove (get_current_npc opening_state)
             :: CExecuteMove opening_state first_available :: post))).
Proof.
  assert (H1 : game_state tree_against_random = Some opening_state)
    by compute_done.
  assert (H2 : board tree_against_random [K_RETURN] 0%nat
               = ([CTrainUntil WHITE 100; CGetBestMove WHITE;
                   CExecuteMove opening_state first_available;
                   CUpdateMove WHITE first_available],
                  Ok (result (board tree_against_random [K_RETURN] 0%nat))))
    by compute_done.
  assert (H3 : is_human_turn tree_against_random opening_state = false)
    by compute_done.
  assert (H4 : CExecuteMove opening_state first_available
               ∈ [CTrainUntil WHITE 100; CGetBestMove WHITE;
                  CExecuteMove opening_state first_available;
                  CUpdateMove WHITE first_available])
    by (do 2 apply list_elem_of_further; apply list_elem_of_here).
  exact (conj H1 (conj H2 (conj H3 (conj H4
           (UIFacts.automated_move_contracts _ _ _ _ _ _ _ _ H1 H2 H3 H4))))).
Defined.

Lemma train_until_before_get_best_move_witness :
  board tree_against_random [K_RETURN] 0%nat
  = ([CTrainUntil WHITE 100; CGetBestMove WHITE;
      CExecuteMove opening_state first_available;
      CUpdateMove WHITE first_available],
     Ok (result (board tree_against_random [K_RETURN] 0%nat))) ∧
  [CTrainUntil WHITE 100; CGetBestMove WHITE;
   CExecuteMove opening_state first_available; CUpdateMove WHITE first_available]
  = [CTrainUntil WHITE 100] ++ CGetBestMove WHITE
      :: [CExecuteMove opening_state first_available;
          CUpdateMove WHITE first_available] ∧
  ∃ n, [CTrainUntil WHITE 100] = [CTrainUntil WHITE n] ∧
       mcts_budget (mode_of tree_against_random WHITE) = Some n ∧
       (mode_of tree_against_random WHITE = Some MCTS_QUICK ∧ n = 100
        ∨ mode_of tree_against_random WHITE = Some MCTS_BETTER ∧ n = 1000
        ∨ mode_of tree_against_random WHITE = Some MCTS_HEURISTICS ∧ n = 2000).
Proof.
  assert (H1 : board tree_against_random [K_RETURN] 0%nat
               = ([CTrainUntil WHITE 100; CGetBestMove WHITE;
                   CExecuteMove opening_state first_available;
                   CUpdateMove WHITE first_available],
                  Ok (result (board tree_against_random [K_RETURN] 0%nat))))
    by compute_done.
  assert (H2 : [CTrainUntil WHITE 100; CGetBestMove WHITE;
                CExecuteMove opening_state first_available;
                CUpdateMove WHITE first_available]
               = [CTrainUntil WHITE 100] ++ CGetBestMove WHITE
                   :: [CExecuteMove opening_state first_available;
                       CUpdateMove WHITE first_available])
    by reflexivity.
  exact (conj H1 (conj H2
           (UIFacts.train_until_before_get_best_move _ _ _ _ _ _ _ _ H1 H2))).
Defined.

Lemma board_size_supported_witness :
  reachable choosing_black ∧
  CState (Some 5) (Some 5) ∈ (play_iteration choosing_black (frame [click_mode 0])).1 ∧
  ((∀ b, b ∈ size_sel_buttons →
         ∃ col row, action b = SizeSelAction col row ∧
                    5 ≤ col ≤ 10 ∧ 5 ≤ row ≤ 10) ∧
   (window_state choosing_black ≠ BOARD_SIZE_SEL →
    supported (width choosing_black) (height choosing_black)) ∧
   ∀ fr t r w h,
     play_iteration choosing_black fr = (t, r) → CState w h ∈ t →
     ∃ w' h', w = Some w' ∧ h = Some h' ∧ 5 ≤ w' ≤ 10 ∧ 5 ≤ h' ≤ 10).
Proof.
  assert (H1 : reachable choosing_black) by apply UIFacts.played_reachable.
  refine (conj H1 (conj _ (UIFacts.board_size_supported choosing_black H1))).
  compute_done.
Defined.

Lemma check_winner_once_per_frame_witness :
  reachable last_capture_made ∧
  window_state last_capture_made = PLAYING ∧
  play_iteration last_capture_made (frame [])
  = ((play_iteration last_capture_made (frame [])).1,
     (play_iteration last_capture_made (frame [])).2) ∧
  ∃ s t',
    game_state last_capture_made = Some s ∧
    (play_iteration last_capture_made (frame [])).1 = CCheckWinner s :: t' ∧
    (∀ s', CCheckWinner s' ∉ t') ∧
    (check_winner s ≠ EMPTY →
       t' = [] ∧
       ∃ g', (play_iteration last_capture_made (frame [])).2 = Ok g' ∧
             window_state g' = GAME_OVER ∧
             winner g' = check_winner s ∧ game_state g' = Some s).
Proof.
  assert (H1 : reachable last_capture_made) by apply UIFacts.played_reachable.
  assert (H2 : window_state last_capture_made = PLAYING) by compute_done.
  assert (H3 : play_iteration last_capture_made (frame [])
               = ((play_iteration last_capture_made (frame [])).1,
                  (play_iteration last_capture_made (frame [])).2))
    by apply surjective_pairing.
  exact (conj H1 (conj H2 (conj H3
           (UIFacts.check_winner_once_per_frame _ _ _ _ H1 H2 H3)))).
Defined.

Lemma game_over_has_winner_witness :
  reachable (played won_game) ∧
  window_state (played won_game) = GAME_OVER ∧
  ((winner (played won_game) = WHITE ∨ winner (played won_game) = BLACK) ∧
   (get_winner_text (played won_game)).1 ≠ "Empate!"%string).
Proof.
  assert (H1 : reachable (played won_game)) by apply UIFacts.played_reachable.
  assert (H2 : window_state (played won_game) = GAME_OVER) by compute_done.
  exact (conj H1 (conj H2 (UIFacts.game_over_has_winner _ H1 H2))).
Defined.



(** C6 fails on the code: the moves kept in [selected_moves] outlive the game
    they were selected in.  After the back button and a new game, a click on
    the piece a kept move captures first hands that move to [execute_move]
    on the opening position, where it is not available (its origin is an
    empty cell); the modelled engine rejects it and the run ends with an
    exception. *)
Theorem stale_selected_move_executed :
  CExecuteMove opening_state stale_move ∈ (play init stale_selection).1 ∧
  (stale_move ∉ get_available_moves opening_state) ∧
  Rules.cell (Rules.board opening_state) 2 2 = Some EMPTY ∧
  (play init stale_selection).2 = Raised ∧
  ¬ executes_available (play init stale_selection).1.
Proof.
  assert (Hin : CExecuteMove opening_state stale_move
                ∈ (play init stale_selection).1).
  { compute_done. }
  assert (Hout : stale_move ∉ get_available_moves opening_state).
  { compute_done. }
  split_and!; [exact Hin|exact Hout|reflexivity|compute_done|].
  intros Hall. apply Hout. by apply Hall.
Qed.

End Scenarios.

(** ** The further theorems on the reference instance *)

Module MoreScenarios.
Import UI UISpec UIProps Fixture.

Lemma opening_covers : covers 5 5 (get_board_matrix opening_state).
Proof.
  intros row col Hrow Hcol.
  assert (Hr : row ∈ [0; 1; 2; 3; 4]) by (rewrite !elem_of_cons; lia).
  assert (Hc : col ∈ [0; 1; 2; 3; 4]) by (rewrite !elem_of_cons; lia).
  clear Hrow Hcol.
  repeat (apply elem_of_cons in Hr as [->|Hr]); try (by apply elem_of_nil in Hr);
    repeat (apply elem_of_cons in Hc as [->|Hc]); try (by apply elem_of_nil in Hc);
    vm_compute; by eexists.
Qed.

Lemma exit_only_on_quit_witness :
  play_iteration init (frame [QUIT]) = ([], Exited) ∧
  QUIT ∈ events (frame [QUIT]).
Proof.
  assert (H1 : play_iteration init (frame [QUIT]) = ([], Exited)) by compute_done.
  exact (conj H1 (UIMore.exit_only_on_quit _ _ _ H1)).
Defined.

Lemma screen_flow_witness :
  play_iteration init (frame [click_size 5 5])
  = ([], Ok (played [frame [click_size 5 5]])) ∧
  next_screen (window_state init) (window_state (played [frame [click_size 5 5]])).
Proof.
  assert (H1 : play_iteration init (frame [click_size 5 5])
               = ([], Ok (played [frame [click_size 5 5]]))) by compute_done.
  exact (conj H1 (UIMore.screen_flow _ _ _ _ H1)).
Defined.

Lemma one_move_per_frame_witness :
  game_state two_humans = Some opening_state ∧
  board two_humans first_capture 0%nat
  = ((board two_humans first_capture 0%nat).1,
     Ok (result (board two_humans first_capture 0%nat))) ∧
  ((game_state (result (board two_humans first_capture 0%nat)) = Some opening_state ∧
    ∀ s0 m, CExecuteMove s0 m ∉ (board two_humans first_capture 0%nat).1)
   ∨ ∃ m s' pre post,
       (board two_humans first_capture 0%nat).1
       = pre ++ CExecuteMove opening_state m :: post ∧
       (∀ s0 m0, CExecuteMove s0 m0 ∉ pre ++ post) ∧
       execute_move opening_state m = Some s' ∧
       game_state (result (board two_humans first_capture 0%nat)) = Some s').
Proof.
  assert (H1 : game_state two_humans = Some opening_state) by compute_done.
  assert (H2 : board two_humans first_capture 0%nat
               = ((board two_humans first_capture 0%nat).1,
                  Ok (result (board two_humans first_capture 0%nat))))
    by compute_done.
  exact (conj H1 (conj H2 (UIMore.one_move_per_frame _ _ _ _ _ _ H1 H2))).
Defined.

Lemma moves_need_input_witness :
  board tree_against_random [K_RETURN] 0%nat
  = ((board tree_against_random [K_RETURN] 0%nat).1,
     (board tree_against_random [K_RETURN] 0%nat).2) ∧
  (board tree_against_random [K_RETURN] 0%nat).1 ≠ [] ∧
  Forall game_call (board tree_against_random [K_RETURN] 0%nat).1 ∧
  ∃ s, game_state tree_against_random = Some s ∧
       if is_human_turn tree_against_random s
       then K_RETURN ∈ [K_RETURN] ∨ ∃ x y, MOUSEBUTTONDOWN x y ∈ [K_RETURN]
       else K_RETURN ∈ [K_RETURN].
Proof.
  assert (H1 : board tree_against_random [K_RETURN] 0%nat
               = ((board tree_against_random [K_RETURN] 0%nat).1,
                  (board tree_against_random [K_RETURN] 0%nat).2))
    by apply surjective_pairing.
  assert (H2 : (board tree_against_random [K_RETURN] 0%nat).1 ≠ []) by compute_done.
  exact (conj H1 (conj H2 (UIMore.moves_need_input _ _ _ _ _ H1 H2))).
Defined.

Lemma human_move_available_or_kept_witness :
  game_state two_humans = Some opening_state ∧
  is_human_turn two_humans opening_state = true ∧
  CExecuteMove opening_state capture_right
    ∈ (board two_humans first_capture 0%nat).1 ∧
  opening_state = opening_state ∧
  (capture_right ∈ get_available_moves opening_state
   ∨ capture_right ∈ selected_moves two_humans
     ∧ is_Some (get_first_to_kill capture_right)).
Proof.
  assert (H1 : game_state two_humans = Some opening_state) by compute_done.
  assert (H2 : is_human_turn two_humans opening_state = true) by compute_done.
  assert (H3 : board two_humans first_capture 0%nat
               = ((board two_humans first_capture 0%nat).1,
                  (board two_humans first_capture 0%nat).2))
    by apply surjective_pairing.
  assert (H4 : CExecuteMove opening_state capture_right
               ∈ (board two_humans first_capture 0%nat).1) by compute_done.
  exact (conj H1 (conj H2 (conj H4
           (UIMore.human_move_available_or_kept _ _ _ _ _ _ _ _ H1 H2 H3 H4)))).
Defined.

Lemma algorithm_matches_mode_witness :
  reachable tree_against_random ∧
  window_state tree_against_random = PLAYING ∧
  agrees (mode_of tree_against_random WHITE) (alg_of tree_against_random WHITE).
Proof.
  assert (H1 : reachable tree_against_random) by apply UIFacts.played_reachable.
  assert (H2 : window_state tree_against_random = PLAYING) by compute_done.
  exact (conj H1 (conj H2
           (UIMore.algorithm_matches_mode _ WHITE H1 H2 (or_introl eq_refl)))).
Defined.

Lemma menus_never_raise_witness :
  reachable choosing_black ∧
  window_state choosing_black ≠ PLAYING ∧
  (play_iteration choosing_black (frame [click_mode 0])).2 ≠ Raised.
Proof.
  assert (H1 : reachable choosing_black) by apply UIFacts.played_reachable.
  assert (H2 : window_state choosing_black ≠ PLAYING) by compute_done.
  exact (conj H1 (conj H2
           (UIMore.menus_never_raise _ _ _ _ H1 H2 (surjective_pairing _)))).
Defined.

Lemma press_below_board_raises_witness :
  game_state two_humans = Some opening_state ∧
  is_human_turn two_humans opening_state = true ∧
  70 * Z.of_nat (length (get_board_matrix opening_state)) ≤ 360 ∧
  360 < get_canvas_height 5 ∧
  back_pressed (get_back_button two_humans) 100 360 = None ∧
  board two_humans [MOUSEBUTTONDOWN 100 360] 0%nat = ([], Raised).
Proof.
  assert (H1 : game_state two_humans = Some opening_state) by compute_done.
  assert (H2 : is_human_turn two_humans opening_state = true) by compute_done.
  assert (H3 : 70 * Z.of_nat (length (get_board_matrix opening_state)) ≤ 360)
    by compute_done.
  assert (H4 : back_pressed (get_back_button two_humans) 100 360 = None)
    by compute_done.
  assert (H5 : 360 < get_canvas_height 5) by compute_done.
  exact (conj H1 (conj H2 (conj H3 (conj H5 (conj H4
           (UIMore.press_below_board_raises _ _ [] 0%nat _ _ H1 H2 H3 H4)))))).
Defined.

Lemma pass_hint_iff_enter_passes_witness :
  game_state two_humans = Some opening_state ∧
  is_human_turn two_humans opening_state = true ∧
  draw_playing_text
    (set_available_moves (Some (get_available_moves opening_state)) two_humans)
  = ([], Ok [mkBlit get_white_move_text (175, 357)]) ∧
  (pass_hint [mkBlit get_white_move_text (175, 357)]
   ↔ PassMove ∈ get_available_moves opening_state) ∧
  human_events None [K_RETURN]
    (set_available_moves (Some (get_available_moves opening_state)) two_humans)
  = if decide (pass_hint [mkBlit get_white_move_text (175, 357)])
    then execute_human_move
           (set_available_moves (Some (get_available_moves opening_state)) two_humans)
           PassMove
    else human_events None []
           (set_available_moves (Some (get_available_moves opening_state)) two_humans).
Proof.
  assert (H1 : game_state two_humans = Some opening_state) by compute_done.
  assert (H2 : is_human_turn two_humans opening_state = true) by compute_done.
  assert (H3 : draw_playing_text
                 (set_available_moves (Some (get_available_moves opening_state))
                    two_humans)
               = ([], Ok [mkBlit get_white_move_text (175, 357)])) by compute_done.
  exact (conj H1 (conj H2 (conj H3
           (UIMore.pass_hint_iff_enter_passes _ _ _ None [] H1 H2 H3)))).
Defined.

Lemma playing_texts_fit_canvas_witness :
  width tree_against_random = Some 5 ∧ height tree_against_random = Some 5 ∧
  draw_playing_text tree_against_random = ([], Ok automated_white_texts) ∧
  ([] : list Call) = [] ∧
  (length automated_white_texts ≤ 2)%nat ∧
  Forall (λ b, (blit_center b).1 = (5 * 70) `div` 2 ∧
               5 * 70 < (blit_center b).2 < get_canvas_height 5)
         automated_white_texts.
Proof.
  assert (H1 : width tree_against_random = Some 5) by compute_done.
  assert (H2 : height tree_against_random = Some 5) by compute_done.
  assert (H3 : draw_playing_text tree_against_random
               = ([], Ok automated_white_texts)) by compute_done.
  exact (conj H1 (conj H2 (conj H3
           (UIMore.playing_texts_fit_canvas _ _ _ _ _ H1 H2 H3)))).
Defined.

Lemma every_choice_has_one_button_witness :
  5 ≤ 6 ≤ 10 ∧ 5 ≤ 9 ≤ 10 ∧
  filter (λ b, action b = SizeSelAction 6 9) size_sel_buttons
  = [mkButton ((6 - 4) * 70) ((9 - 4) * 70) None (SizeSelAction 6 9)].
Proof.
  assert (H1 : 5 ≤ 6 ≤ 10) by lia.
  assert (H2 : 5 ≤ 9 ≤ 10) by lia.
  exact (conj H1 (conj H2 (proj1 UIMore.every_choice_has_one_button 6 9 H1 H2))).
Defined.

Lemma game_over_waits_for_back_witness :
  window_state (played won_game) = GAME_OVER ∧
  play_iteration (played won_game) (frame [click_back])
  = ([], Ok (played (won_game ++ [frame [click_back]]))) ∧
  ([] : list Call) = [] ∧
  (played (won_game ++ [frame [click_back]]) = played won_game
   ∨ (∃ x y, MOUSEBUTTONDOWN x y ∈ events (frame [click_back])) ∧
     played (won_game ++ [frame [click_back]])
     = mkGame BOARD_SIZE_SEL None None None (game_state (played won_game)) EMPTY
              None None (available_moves (played won_game))
              (white_alg (played won_game)) (black_alg (played won_game))
              (selected_moves (played won_game))).
Proof.
  assert (H1 : window_state (played won_game) = GAME_OVER) by compute_done.
  assert (H2 : play_iteration (played won_game) (frame [click_back])
               = ([], Ok (played (won_game ++ [frame [click_back]]))))
    by compute_done.
  exact (conj H1 (conj H2 (UIMore.game_over_waits_for_back _ _ _ _ H1 H2))).
Defined.

Lemma new_game_is_fresh_witness :
  window_state choosing_black = BLACK_MODE_SEL ∧
  black_mode choosing_black = None ∧
  play_iteration choosing_black (frame [click_mode 0])
  = ((play_iteration choosing_black (frame [click_mode 0])).1, Ok two_humans) ∧
  window_state two_humans = PLAYING ∧
  ∃ w h, width choosing_black = Some w ∧ height choosing_black = Some h ∧
    started w h two_humans ∧
    white_mode two_humans = white_mode choosing_black ∧
    white_alg two_humans = white_alg choosing_black ∧
    selected_moves two_humans = selected_moves choosing_black.
Proof.
  assert (H1 : window_state choosing_black = BLACK_MODE_SEL) by compute_done.
  assert (H2 : black_mode choosing_black = None) by compute_done.
  assert (H3 : play_iteration choosing_black (frame [click_mode 0])
               = ((play_iteration choosing_black (frame [click_mode 0])).1,
                  Ok two_humans)) by compute_done.
  assert (H4 : window_state two_humans = PLAYING) by compute_done.
  exact (conj H1 (conj H2 (conj H3 (conj H4
           (UIMore.new_game_is_fresh _ _ _ _ H1 H2 H3 H4))))).
Defined.

Lemma enter_applies_agent_move_witness :
  reachable tree_against_random ∧
  window_state tree_against_random = PLAYING ∧
  game_state tree_against_random = Some opening_state ∧
  width tree_against_random = Some 5 ∧ height tree_against_random = Some 5 ∧
  mode_of tree_against_random (get_current_npc opening_state) ≠ Some HUMAN ∧
  agent_move 0%nat tree_against_random (get_current_npc opening_state) opening_state
  = Some first_available ∧
  execute_move opening_state first_available = Some after_first_available ∧
  ∃ t g', board tree_against_random [K_RETURN] 0%nat = (t, Ok g') ∧
          game_state g' = Some after_first_available ∧
          CExecuteMove opening_state first_available ∈ t.
Proof.
  assert (H1 : reachable tree_against_random) by apply UIFacts.played_reachable.
  assert (H2 : window_state tree_against_random = PLAYING) by compute_done.
  assert (H3 : game_state tree_against_random = Some opening_state) by compute_done.
  assert (H4 : width tree_against_random = Some 5) by compute_done.
  assert (H5 : height tree_against_random = Some 5) by compute_done.
  assert (H6 : mode_of tree_against_random (get_current_npc opening_state)
               ≠ Some HUMAN) by compute_done.
  assert (H7 : agent_move 0%nat tree_against_random
                 (get_current_npc opening_state) opening_state
               = Some first_available) by compute_done.
  assert (H8 : execute_move opening_state first_available
               = Some after_first_available) by compute_done.
  exact (conj H1 (conj H2 (conj H3 (conj H4 (conj H5 (conj H6 (conj H7 (conj H8
           (UIMore.enter_applies_agent_move _ _ _ _ [] _ _ _
              H1 H2 H3 H4 H5 opening_covers H6 H7 H8))))))))).
Defined.

Lemma select_then_press_moves_witness :
  reachable two_humans ∧
  window_state two_humans = PLAYING ∧
  game_state two_humans = Some opening_state ∧
  is_human_turn two_humans opening_state = true ∧
  selected_moves two_humans = [] ∧
  py_index2 (get_board_matrix opening_state) (175 `div` 70) (105 `div` 70)
  = Some (player opening_state) ∧
  py_index2 (get_board_matrix opening_state) (175 `div` 70) (175 `div` 70)
  = Some EMPTY ∧
  filter (λ m', selects (set_selected_piece (Some (175 `div` 70, 105 `div` 70))
                           two_humans)
                        (175 `div` 70) (175 `div` 70) m' = true)
         (get_available_moves opening_state) = [capture_right] ∧
  execute_move opening_state capture_right = Some after_capture_right ∧
  ∃ t g', board two_humans [MOUSEBUTTONDOWN 105 175; MOUSEBUTTONDOWN 175 175] 0%nat
          = (t, Ok g') ∧
          game_state g' = Some after_capture_right ∧ selected_piece g' = None ∧
          selected_moves g' = [] ∧ CExecuteMove opening_state capture_right ∈ t.
Proof.
  assert (H1 : reachable two_humans) by apply UIFacts.played_reachable.
  assert (H2 : window_state two_humans = PLAYING) by compute_done.
  assert (H3 : game_state two_humans = Some opening_state) by compute_done.
  assert (H4 : width two_humans = Some 5) by compute_done.
  assert (H5 : height two_humans = Some 5) by compute_done.
  assert (H6 : is_human_turn two_humans opening_state = true) by compute_done.
  assert (H7 : selected_moves two_humans = []) by compute_done.
  assert (H8 : back_pressed (get_back_button two_humans) 105 175 = None)
    by compute_done.
  assert (H9 : back_pressed (get_back_button two_humans) 175 175 = None)
    by compute_done.
  assert (H10 : player opening_state ≠ EMPTY) by compute_done.
  assert (H11 : py_index2 (get_board_matrix opening_state)
                  (175 `div` 70) (105 `div` 70)
                = Some (player opening_state)) by compute_done.
  assert (H12 : py_index2 (get_board_matrix opening_state)
                  (175 `div` 70) (175 `div` 70) = Some EMPTY) by compute_done.
  assert (H13 : filter (λ m', selects (set_selected_piece
                                        (Some (175 `div` 70, 105 `div` 70))
                                        two_humans)
                                (175 `div` 70) (175 `div` 70) m' = true)
                       (get_available_moves opening_state) = [capture_right])
    by compute_done.
  assert (H14 : execute_move opening_state capture_right
                = Some after_capture_right) by compute_done.
  exact (conj H1 (conj H2 (conj H3 (conj H6 (conj H7 (conj H11 (conj H12
           (conj H13 (conj H14
              (UIMore.select_then_press_moves _ _ _ _ [] 0%nat _ _ _ _ _ _
                 H1 H2 H3 H4 H5 opening_covers H6 H7 H8 H9 H10 H11 H12 H13
                 H14)))))))))).
Defined.

Lemma calls_by_screen_witness :
  play_iteration tree_against_random (frame [K_RETURN])
  = ((play_iteration tree_against_random (frame [K_RETURN])).1,
     (play_iteration tree_against_random (frame [K_RETURN])).2) ∧
  match window_state tree_against_random with
  | BOARD_SIZE_SEL | GAME_OVER =>
      (play_iteration tree_against_random (frame [K_RETURN])).1 = []
  | WHITE_MODE_SEL | BLACK_MODE_SEL =>
      Forall (menu_call tree_against_random)
             (play_iteration tree_against_random (frame [K_RETURN])).1
  | PLAYING =>
      (play_iteration tree_against_random (frame [K_RETURN])).1 = []
      ∨ ∃ s t', game_state tree_against_random = Some s ∧
                (play_iteration tree_against_random (frame [K_RETURN])).1
                = CCheckWinner s :: t' ∧
                Forall game_call t'
  end.
Proof.
  assert (H1 : play_iteration tree_against_random (frame [K_RETURN])
               = ((play_iteration tree_against_random (frame [K_RETURN])).1,
                  (play_iteration tree_against_random (frame [K_RETURN])).2))
    by apply surjective_pairing.
  exact (conj H1 (UIMore.calls_by_screen _ _ _ _ H1)).
Defined.

Lemma trees_follow_the_game_witness :
  window_state tree_against_random = PLAYING ∧
  is_mcts (mode_of tree_against_random WHITE) = true ∧
  Forall no_back [frame [K_RETURN]; frame []] ∧
  play tree_against_random [frame [K_RETURN]; frame []]
  = ((play tree_against_random [frame [K_RETURN]; frame []]).1,
     Ok (result (play tree_against_random [frame [K_RETURN]; frame []]))) ∧
  updated WHITE (play tree_against_random [frame [K_RETURN]; frame []]).1
  = executed (play tree_against_random [frame [K_RETURN]; frame []]).1.
Proof.
  assert (H1 : window_state tree_against_random = PLAYING) by compute_done.
  assert (H2 : is_mcts (mode_of tree_against_random WHITE) = true) by compute_done.
  assert (H3 : Forall no_back [frame [K_RETURN]; frame []]).
  { repeat constructor; intros x y b Hin _; simpl in Hin.
    - apply list_elem_of_singleton in Hin. discriminate Hin.
    - by apply elem_of_nil in Hin. }
  assert (H4 : play tree_against_random [frame [K_RETURN]; frame []]
               = ((play tree_against_random [frame [K_RETURN]; frame []]).1,
                  Ok (result (play tree_against_random [frame [K_RETURN]; frame []]))))
    by compute_done.
  exact (conj H1 (conj H2 (conj H3 (conj H4
           (UIMore.trees_follow_the_game _ _ _ _ WHITE H1 (or_introl eq_refl)
              H2 H3 H4))))).
Defined.

Lemma press_on_piece_selects_it_witness :
  game_state two_humans = Some opening_state ∧
  player opening_state ≠ EMPTY ∧
  piece_circles (get_board_matrix opening_state) 5 5 = Some opening_circles ∧
  (piece_color (player opening_state), (105, 175)) ∈ opening_circles ∧
  (120 - 105) * (120 - 105) + (190 - 175) * (190 - 175) ≤ 30 * 30 ∧
  back_pressed (get_back_button two_humans) 120 190 = None ∧
  human_events (get_back_button two_humans) [MOUSEBUTTONDOWN 120 190] two_humans
  = human_events (get_back_button two_humans) []
      (set_selected_moves []
         (set_selected_piece (Some (175 `div` 70, 105 `div` 70)) two_humans)).
Proof.
  assert (H1 : game_state two_humans = Some opening_state) by compute_done.
  assert (H2 : player opening_state ≠ EMPTY) by compute_done.
  assert (H3 : piece_circles (get_board_matrix opening_state) 5 5
               = Some opening_circles) by compute_done.
  assert (H4 : (piece_color (player opening_state), (105, 175)) ∈ opening_circles)
    by compute_done.
  assert (H5 : (120 - 105) * (120 - 105) + (190 - 175) * (190 - 175) ≤ 30 * 30)
    by lia.
  assert (H6 : back_pressed (get_back_button two_humans) 120 190 = None)
    by compute_done.
  exact (conj H1 (conj H2 (conj H3 (conj H4 (conj H5 (conj H6
           (UIMore.press_on_piece_selects_it _ _ _ _ _ _ _ _ _ _ []
              H1 H2 H3 H4 H5 H6))))))).
Defined.

End MoreScenarios.
